(** * Scoped CSS rewriting (endorphin postcss plugin): a shallow embedding

    The development follows [src/index.ts].  Selector trees are the trees of
    the selector parser the plugin runs on; stylesheet trees are the trees of
    the stylesheet processor.  Both libraries are external to the plugin; the
    few primitives the plugin calls on them ([insertBefore], [insertAfter],
    [replaceWith], [clone], [at], [index]) are written out on lists.

    Conventions of the embedding.
    - A JavaScript reference to a child node of a selector is a position in
      the selector's [nodes]; where the plugin first mutates the selector and
      then looks a node up again, the position is tracked through the
      mutation ([index_after]).
    - The one-shot marker [node[processed]] is the field [processed].
    - A text is a sequence of code units below 256, one character of
      [string] each; the classes [\w] and [\s] of the plugin's regular
      expressions are taken on these.
    - A regular expression of the options is an object with its
      [lastIndex].  The functions that call [test] on it return the options
      as they are afterwards, and the selector processor and the stylesheet
      pass hand them on from one selector, and one rule, to the next. *)

From Stdlib Require Import String Ascii List Lia Bool Arith Sorted.
From stdpp Require Import base list strings gmap.

Open Scope string_scope.
Open Scope list_scope.
Open Scope nat_scope.

Set Warnings "-register-all".

(** ** Selector trees *)

Module Sel.

(** The node kinds of the selector parser. *)
Inductive NodeType :=
| Tag | StringNode | Selector | Root | Pseudo | Nesting
| Id | CommentNode | Combinator | Class | Attribute | Universal.

Scheme Equality for NodeType.

(** One node of a selector tree.  [value] is the text of a tag, class, id,
    pseudo, combinator or string node; [attribute] is the text between the
    brackets of an attribute node; [before] and [after] are [spaces.before]
    and [spaces.after]; [nodes] are the children of a container (a selector,
    a pseudo with arguments, a root) and empty elsewhere. *)
Inductive Node := mkNode {
  type : NodeType;
  value : string;
  attribute : string;
  before : string;
  after : string;
  nodes : list Node;
  processed : bool
}.

Definition is_type (t : NodeType) (n : Node) : bool := NodeType_beq (type n) t.

Definition set_nodes (n : Node) (ns : list Node) : Node :=
  mkNode (type n) (value n) (attribute n) (before n) (after n) ns (processed n).
Definition set_value (n : Node) (v : string) : Node :=
  mkNode (type n) v (attribute n) (before n) (after n) (nodes n) (processed n).
Definition set_before (n : Node) (s : string) : Node :=
  mkNode (type n) (value n) (attribute n) s (after n) (nodes n) (processed n).
Definition set_after (n : Node) (s : string) : Node :=
  mkNode (type n) (value n) (attribute n) (before n) s (nodes n) (processed n).
Definition markProcessed (n : Node) : Node :=
  mkNode (type n) (value n) (attribute n) (before n) (after n) (nodes n) true.

(** Constructors of the parser: [selParser.tag], [.attribute], [.string],
    [.combinator], [.className], [.id], [.pseudo], [.selector]. *)
Definition tag (v : string) : Node := mkNode Tag v "" "" "" [] false.
Definition attr (a : string) : Node := mkNode Attribute "" a "" "" [] false.
Definition str (v : string) : Node := mkNode StringNode v "" "" "" [] false.
Definition combinator (v : string) : Node := mkNode Combinator v "" "" "" [] false.
Definition className (v : string) : Node := mkNode Class v "" "" "" [] false.
Definition idName (v : string) : Node := mkNode Id v "" "" "" [] false.
Definition universal : Node := mkNode Universal "*" "" "" "" [] false.
Definition pseudo (v : string) (args : list Node) : Node :=
  mkNode Pseudo v "" "" "" args false.
Definition selector (ns : list Node) : Node := mkNode Selector "" "" "" "" ns false.

(** [Array.prototype.splice(start, deleteCount, ...items)]. *)
Definition splice {A} (l : list A) (start deleteCount : nat) (items : list A) : list A :=
  take start l ++ items ++ drop (start + deleteCount) l.

(** [container.at(i)]. *)
Definition at_ (c : Node) (i : nat) : option Node := nodes c !! i.

(** [item.replaceWith(...items)] for the child at position [i] of [c]: the
    items are inserted before the child, then the child is removed. *)
Definition replaceWith (c : Node) (i : nat) (items : list Node) : Node :=
  set_nodes c (splice (nodes c) i 1 items).

(** [node.clone({})]: a deep copy.  The copy loop enumerates string keys
    only, so the symbol-keyed marker is not carried over. *)
Fixpoint clone (n : Node) : Node :=
  match n with
  | mkNode t v a b af ns _ => mkNode t v a b af (map clone ns) false
  end.

(** Position, after the child at [p] of [old] was rewritten into [new], of
    the child that stood at [q <> p] before. *)
Definition index_after (p : nat) (old new : Node) (q : nat) : nat :=
  if q <? p then q else q + length (nodes new) - length (nodes old).

(** *** The plugin's node helpers *)

Definition scopeElement (scope : string) : Node := attr scope.
Definition scopeHost (scope : string) : Node := attr (scope +:+ "-host").

Definition isCompoundBoundary (node : Node) : bool := is_type Combinator node.

(** [insertBefore(selector, oldNode, newNode)], [oldNode] being the child at [i]. *)
Definition insertBefore (selector : Node) (i : nat) (newNode : Node) : Node :=
  match at_ selector i with
  | None => selector
  | Some oldNode =>
      let newNode := set_before newNode (before oldNode) in
      let oldNode := set_before oldNode "" in
      set_nodes selector (splice (<[i := oldNode]> (nodes selector)) i 0 [newNode])
  end.

(** [insertAfter(selector, oldNode, newNode)], [oldNode] being the child at [i]. *)
Definition insertAfter (selector : Node) (i : nat) (newNode : Node) : Node :=
  match at_ selector i with
  | None => selector
  | Some oldNode =>
      let newNode := set_after newNode (after oldNode) in
      let oldNode := set_after oldNode "" in
      set_nodes selector (splice (<[i := oldNode]> (nodes selector)) (S i) 0 [newNode])
  end.

(** [getCompound(sel)]: the positions where compound selectors start.  The
    flag [part] says whether the loop variable [part] is non-null. *)
Fixpoint getCompound_from (i : nat) (part : bool) (ns : list Node) : list nat :=
  match ns with
  | [] => []
  | node :: ns' =>
      if isCompoundBoundary node then getCompound_from (S i) false ns'
      else if part then getCompound_from (S i) true ns'
      else i :: getCompound_from (S i) true ns'
  end.

Definition getCompound (sel : Node) : list nat := getCompound_from 0 false (nodes sel).

(** [rewriteSelectorPart(selector, item, scope)], [item] being the child at [i]. *)
Definition rewriteSelectorPart (selector : Node) (i : nat) (scope : string) : Node :=
  match at_ selector i with
  | None => selector
  | Some item =>
      if processed item then selector
      else match type item with
      | Pseudo =>
          if String.eqb (value item) ":host" then
            replaceWith selector i (scopeHost scope :: nodes item)
          else if String.eqb (value item) ":host-context" then
            replaceWith selector i (nodes item ++ [str " "; scopeHost scope])
          else selector
      | Tag | Universal => insertAfter selector i (scopeElement scope)
      | Id | Class | Attribute => insertBefore selector i (scopeElement scope)
      | _ => selector
      end
  end.

(** [rewriteSlotted(selector, scope)]: the flag returned and the selector
    as it is afterwards. *)
Definition rewriteSlotted (selector : Node) (scope : string) : bool * Node :=
  match nodes selector with
  | node :: _ =>
      if is_type Pseudo node && String.eqb (value node) "::slotted" then
        (true, replaceWith selector 0
                 (tag "slot" :: attr "slotted" :: scopeElement scope
                    :: combinator " > " :: nodes node))
      else (false, selector)
  | [] => (false, selector)
  end.

(** [refName = next.value.slice(1)]. *)
Definition slice1 (s : string) : string :=
  match s with
  | EmptyString => EmptyString
  | String _ s' => s'
  end.

(** The attribute [rewriteRefs] builds from the pseudo [next]. *)
Definition refAttribute (next : Node) (scope : string) : Node :=
  markProcessed (attr ("ref-" +:+ slice1 (value next) +:+ "-" +:+ scope)).

(** [rewriteRefs(selector, scope)]: [walkTags] visits the children in
    order and descends into every child that is not a tag; a [ref] tag with
    a pseudo next to it is replaced, with that pseudo, by the attribute, and
    the walk goes on behind the pair. *)
Fixpoint rewriteRefs (selector : Node) (scope : string) {struct selector} : Node :=
  match selector with
  | mkNode t v a b af ns p =>
      mkNode t v a b af
        ((fix walk (l : list Node) : list Node :=
            match l with
            | [] => []
            | node :: rest =>
                if is_type Tag node then
                  if String.eqb (value node) "ref" then
                    match rest with
                    | next :: rest' =>
                        if is_type Pseudo next
                        then refAttribute next scope :: walk rest'
                        else node :: walk rest
                    | [] => node :: walk rest
                    end
                  else node :: walk rest
                else rewriteRefs node scope :: walk rest
            end) ns) p
  end.

(** *** [rewriteSelector] *)

(** [part.type === 'pseudo' && specialPseudo.includes(part.value)]. *)
Definition isSpecialPseudo (part : Node) : bool :=
  is_type Pseudo part
  && (String.eqb (value part) "::global" || String.eqb (value part) "::local").

Definition isSpecialAt (sel : Node) (i : nat) : bool :=
  match at_ sel i with
  | Some part => isSpecialPseudo part
  | None => false
  end.

(** The body of the loop over [part.nodes]: the clone of one replacement
    with the pseudo at [ix] replaced for the alternative [childSel]. *)
Definition replacePseudo (scope : string) (part : Node) (ix : nat)
    (replacement childSel : Node) : Node :=
  let sel := clone replacement in
  if String.eqb (value part) "::global" then
    replaceWith sel ix (nodes childSel)
  else if String.eqb (value part) "::local" then
    replaceWith sel ix (scopeHost scope :: str " " :: nodes childSel)
  else sel.

(** [for (let i = replacements.length - 1; i >= 0; i--)]: the argument [n]
    is [i + 1]. *)
Fixpoint expandDown (scope : string) (part : Node) (ix : nat) (n : nat)
    (replacements : list Node) : list Node :=
  match n with
  | 0 => replacements
  | S i =>
      let innerReplacements :=
        match replacements !! i with
        | Some r => map (replacePseudo scope part ix r) (nodes part)
        | None => []
        end in
      expandDown scope part ix i (splice replacements i 1 innerReplacements)
  end.

(** [while (localGlobal.length)]: [popped] lists the positions in [sel] of
    the collected pseudos in the order [localGlobal.pop()] yields them.  The
    pseudos are children of [sel], so [sel.index(part)] is never -1. *)
Fixpoint expandAll (scope : string) (sel : Node) (popped : list nat)
    (replacements : list Node) : list Node :=
  match popped with
  | [] => replacements
  | ix :: more =>
      match at_ sel ix with
      | Some part =>
          expandAll scope sel more
            (expandDown scope part ix (length replacements) replacements)
      | None => expandAll scope sel more replacements
      end
  end.

(** The local constants of [rewriteSelector]: [localGlobal] and [scopable]
    split the representatives, [first = scopable.shift()] and
    [last = scopable.pop()]. *)
Definition localGlobal (sel : Node) : list nat :=
  List.filter (isSpecialAt sel) (getCompound sel).
Definition scopable (sel : Node) : list nat :=
  List.filter (fun i => negb (isSpecialAt sel i)) (getCompound sel).
Definition firstPart (sel : Node) : option nat := head (scopable sel).
Definition lastPart (sel : Node) : option nat := last (tail (scopable sel)).

(** [first && rewriteSelectorPart(sel, first, scope)], and where a child
    of [sel] other than [first] stands afterwards. *)
Definition scopeFirst (sel : Node) (scope : string) : Node :=
  match firstPart sel with
  | Some i => rewriteSelectorPart sel i scope
  | None => sel
  end.
Definition trackFirst (sel : Node) (scope : string) (q : nat) : nat :=
  match firstPart sel with
  | Some i => index_after i sel (scopeFirst sel scope) q
  | None => q
  end.

(** [last && rewriteSelectorPart(sel, last, scope)] after that, and where
    a child of [sel] other than [first] and [last] stands afterwards. *)
Definition scopeLast (sel : Node) (scope : string) : Node :=
  match lastPart sel with
  | Some j => rewriteSelectorPart (scopeFirst sel scope) (trackFirst sel scope j) scope
  | None => scopeFirst sel scope
  end.
Definition trackLast (sel : Node) (scope : string) (q : nat) : nat :=
  match lastPart sel with
  | Some j =>
      index_after (trackFirst sel scope j) (scopeFirst sel scope) (scopeLast sel scope)
        (trackFirst sel scope q)
  | None => trackFirst sel scope q
  end.

(** [rewriteSelector(sel, scope)].  The result is [sel] as it is afterwards
    and, when [sel.replaceWith(...replacements)] is called, the replacements
    (which take the place of [sel] in its parent, when it has one). *)
Definition rewriteSelector (sel : Node) (scope : string) : Node * option (list Node) :=
  let sel2 := scopeLast sel scope in
  match localGlobal sel with
  | [] => (sel2, None)
  | parts =>
      (sel2, Some (expandAll scope sel2 (rev (map (trackLast sel scope) parts))
                     [clone sel2]))
  end.

(** [handleSelector(sel)]. *)
Definition handleSelector (scope : string) (sel : Node) : Node * option (list Node) :=
  let sel := rewriteRefs sel scope in
  match rewriteSlotted sel scope with
  | (true, sel') => (sel', None)
  | (false, _) => rewriteSelector sel scope
  end.

(** What stands in the root at the place of a selector after
    [handleSelector] ran on it: the replacements when [replaceWith] was
    called on a selector that has a parent, the selector itself otherwise. *)
Definition inRoot (r : Node * option (list Node)) : list Node :=
  match r with
  | (_, Some replacements) => replacements
  | (sel, None) => [sel]
  end.

(** The value [handleSelector] returns for a selector without parent (a
    fresh clone): [replaceWith] does nothing there. *)
Definition detached (r : Node * option (list Node)) : Node := fst r.

(** *** Serialisation

    [String(node)] of the selector parser, used to read results: a node
    prints its spaces around its text, a pseudo prints its arguments in
    parentheses separated by commas, a selector prints its children. *)
Fixpoint toString (n : Node) : string :=
  match n with
  | mkNode t v a b af ns _ =>
      let children := (fix all (l : list Node) : list string :=
                         match l with
                         | [] => []
                         | c :: l' => toString c :: all l'
                         end) ns in
      match t with
      | Selector | Root => String.concat (match t with Root => "," | _ => "" end) children
      | Pseudo =>
          b +:+ v +:+ (match ns with
                       | [] => ""
                       | _ => "(" +:+ String.concat "," children +:+ ")"
                       end) +:+ af
      | Class => b +:+ "." +:+ v +:+ af
      | Id => b +:+ "#" +:+ v +:+ af
      | Attribute => b +:+ "[" +:+ a +:+ "]" +:+ af
      | _ => b +:+ v +:+ af
      end
  end.

(** *** Class-name scoping *)

(** A regular expression object, as far as [test] shows it.  [matchFrom s i]
    is the index behind the match that matching finds in [s] when it starts
    at index [i] (the leftmost match from [i] on, or with the y flag the
    match at [i]), and [None] when there is none; [flagged] says that the g
    or the y flag is set; [lastIndex] is the property of that name. *)
Record RegExp := mkRegExp {
  matchFrom : string -> nat -> option nat;
  flagged : bool;
  lastIndex : nat
}.

Definition set_lastIndex (re : RegExp) (i : nat) : RegExp :=
  mkRegExp (matchFrom re) (flagged re) i.

(** [re.test(s)]: the answer and the expression as it is afterwards.  With
    the g or the y flag matching starts at [lastIndex], which is then set to
    the index behind the match, or to 0 when there is no match; without
    them it starts at 0 and [lastIndex] is left alone. *)
Definition test (re : RegExp) (s : string) : bool * RegExp :=
  if flagged re then
    if String.length s <? lastIndex re then (false, set_lastIndex re 0)
    else match matchFrom re s (lastIndex re) with
         | Some e => (true, set_lastIndex re e)
         | None => (false, set_lastIndex re 0)
         end
  else match matchFrom re s 0 with
       | Some _ => (true, re)
       | None => (false, re)
       end.

(** [ClassScopeOptions].  The two regular expressions are objects with a
    state of their own, which every call of [test] may change: the
    functions that test them take the options and return them as they are
    afterwards. *)
Record ClassScopeOptions := mkClassScopeOptions {
  prefix : option string;
  suffix : option string;
  include : option RegExp;
  exclude : option RegExp;
  full : bool
}.

Definition set_include (options : ClassScopeOptions) (re : RegExp) : ClassScopeOptions :=
  mkClassScopeOptions (prefix options) (suffix options) (Some re) (exclude options)
    (full options).
Definition set_exclude (options : ClassScopeOptions) (re : RegExp) : ClassScopeOptions :=
  mkClassScopeOptions (prefix options) (suffix options) (include options) (Some re)
    (full options).

(** Truthiness of an optional string, and [s || '']. *)
Definition truthy (s : option string) : bool :=
  match s with
  | Some EmptyString | None => false
  | Some _ => true
  end.
Definition orEmpty (s : option string) : string :=
  match s with
  | Some s => s
  | None => ""
  end.

(** [shouldScopeNode(node, options)]: [exclude] is tested first, and
    [include] only when [exclude] did not match. *)
Definition shouldScopeNode (node : Node) (options : ClassScopeOptions)
    : bool * ClassScopeOptions :=
  if negb (is_type Class node) then (false, options)
  else
    let '(excluded, options) :=
      match exclude options with
      | Some re => let '(b, re) := test re (value node) in (b, set_exclude options re)
      | None => (false, options)
      end in
    if excluded then (false, options)
    else match include options with
         | Some re => let '(b, re) := test re (value node) in (b, set_include options re)
         | None => (true, options)
         end.

(** [scopeValue(node, options)]. *)
Definition scopeValue (node : Node) (options : ClassScopeOptions)
    : Node * ClassScopeOptions :=
  let '(should, options') := shouldScopeNode node options in
  if should then
    (set_value node (orEmpty (prefix options) +:+ value node +:+ orEmpty (suffix options)),
     options')
  else (node, options').

Definition ignoreClassScopingPseudo : list string :=
  [":host"; ":host-context"; "::slotted"; "::global"; "::local"].

Definition isIgnoredPseudo (node : Node) : bool :=
  is_type Pseudo node
  && existsb (String.eqb (value node)) ignoreClassScopingPseudo.

(** [scopeClassNames(sel, options, force)] under its test of the prefix and
    suffix; the recursive call on the children of a child passes no
    [force]. *)
Fixpoint scopeClassNames_rec (force : bool) (sel : Node) (options : ClassScopeOptions)
    {struct sel} : Node * ClassScopeOptions :=
  match sel with
  | mkNode t v a b af ns p =>
      let '(ns, options) :=
        (fix each (l : list Node) (options : ClassScopeOptions)
           : list Node * ClassScopeOptions :=
           match l with
           | [] => ([], options)
           | node :: l' =>
               let '(should, options) := shouldScopeNode node options in
               let '(node, options) :=
                 if should then scopeValue node options
                 else if force || negb (isIgnoredPseudo node) then
                   match node with
                   | mkNode t' v' a' b' af' ns' p' =>
                       let '(ns', options) :=
                         (fix children (cs : list Node) (options : ClassScopeOptions)
                            : list Node * ClassScopeOptions :=
                            match cs with
                            | [] => ([], options)
                            | child :: cs' =>
                                let '(child, options) :=
                                  scopeClassNames_rec false child options in
                                let '(cs', options) := children cs' options in
                                (child :: cs', options)
                            end) ns' options in
                       (mkNode t' v' a' b' af' ns' p', options)
                   end
                 else (node, options) in
               let '(l', options) := each l' options in
               (node :: l', options)
           end) ns options in
      (mkNode t v a b af ns p, options)
  end.

Definition scopeClassNames (sel : Node) (options : ClassScopeOptions) (force : bool)
    : Node * ClassScopeOptions :=
  if truthy (prefix options) || truthy (suffix options)
  then scopeClassNames_rec force sel options
  else (sel, options).

(** [container.walkClasses(node => ...)] with the callback of
    [scopeClassNamesInContainer]: the classes are tested in document order
    and the walk stops at the first one to scope. *)
Fixpoint anyClassToScope (container : Node) (options : ClassScopeOptions)
    {struct container} : bool * ClassScopeOptions :=
  match container with
  | mkNode _ _ _ _ _ ns _ =>
      (fix any (l : list Node) (options : ClassScopeOptions)
         : bool * ClassScopeOptions :=
         match l with
         | [] => (false, options)
         | node :: l' =>
             let '(should, options) := shouldScopeNode node options in
             if should then (true, options)
             else
               let '(found, options) := anyClassToScope node options in
               if found then (true, options) else any l' options
         end) ns options
  end.

(** One step of [for (let sel of toUpdate.slice())] at a class position [i]:
    the clone with [scopeValue] run on its child at [i]. *)
Definition scopeAt (i : nat) (sel : Node) (options : ClassScopeOptions)
    : Node * ClassScopeOptions :=
  let sel := clone sel in
  match at_ sel i with
  | Some node =>
      let '(node, options) := scopeValue node options in
      (set_nodes sel (<[i := node]> (nodes sel)), options)
  | None => (sel, options)
  end.

(** The whole loop over the snapshot of [toUpdate]: the clones pushed. *)
Fixpoint scopeSnapshot (i : nat) (sels : list Node) (options : ClassScopeOptions)
    : list Node * ClassScopeOptions :=
  match sels with
  | [] => ([], options)
  | sel :: sels' =>
      let '(sel, options) := scopeAt i sel options in
      let '(sels', options) := scopeSnapshot i sels' options in
      (sel :: sels', options)
  end.

(** The copies pushed for the argument [j] of the pseudo at [i] and one
    selector of the snapshot, given the variants [us] of that argument: a
    running clone in which the argument is replaced by each [u] in turn. *)
Definition substituteArgument (i j : nat) (us : list Node) (sel : Node) : list Node :=
  map (fun u =>
         let sel := clone sel in
         match at_ sel i with
         | Some targetPseudo =>
             set_nodes sel (<[i := replaceWith targetPseudo j [u]]> (nodes sel))
         | None => sel
         end) us.

(** [scopeClassNamesInContainer(container, options)].  In the loop over the
    arguments of a pseudo the variants of an argument are computed anew for
    every selector of the snapshot. *)
Fixpoint scopeClassNamesInContainer (container : Node) (options : ClassScopeOptions)
    {struct container} : list Node * ClassScopeOptions :=
  if negb (full options) then
    let '(shouldUpdate, options) := anyClassToScope container options in
    if shouldUpdate then
      let '(copy, options) := scopeClassNames (clone container) options true in
      ([copy], options)
    else ([], options)
  else
    match container with
    | mkNode _ _ _ _ _ ns _ =>
        let '(toUpdate, options) :=
          (fix forEach (l : list Node) (i : nat) (toUpdate : list Node)
             (options : ClassScopeOptions) {struct l} : list Node * ClassScopeOptions :=
             match l with
             | [] => (toUpdate, options)
             | node :: l' =>
                 let '(should, options) := shouldScopeNode node options in
                 let '(toUpdate, options) :=
                   if should then
                     let '(pushed, options) := scopeSnapshot i toUpdate options in
                     (toUpdate ++ pushed, options)
                   else if is_type Pseudo node then
                     match node with
                     | mkNode _ _ _ _ _ pseudoSels _ =>
                         (fix forEachArg (ps : list Node) (j : nat) (toUpdate : list Node)
                            (options : ClassScopeOptions) {struct ps}
                            : list Node * ClassScopeOptions :=
                            match ps with
                            | [] => (toUpdate, options)
                            | pseudoSel :: ps' =>
                                let '(pushed, options) :=
                                  (fix snapshot (sels : list Node)
                                     (options : ClassScopeOptions) {struct sels}
                                     : list Node * ClassScopeOptions :=
                                     match sels with
                                     | [] => ([], options)
                                     | sel :: sels' =>
                                         let '(us, options) :=
                                           scopeClassNamesInContainer pseudoSel options in
                                         let '(pushed, options) :=
                                           snapshot sels' options in
                                         (substituteArgument i j us sel ++ pushed, options)
                                     end) toUpdate options in
                                forEachArg ps' (S j) (toUpdate ++ pushed) options
                            end) pseudoSels 0 toUpdate options
                     end
                   else (toUpdate, options) in
                 forEach l' (S i) toUpdate options
             end) ns 0 [container] options in
        (tail toUpdate, options)
    end.

(** *** The selector processor *)

(** The plugin option [classScope?: boolean | ClassScopeOptions]. *)
Inductive ClassScope :=
| ClassScopeAbsent
| ClassScopeFlag (b : bool)
| ClassScopeObject (o : ClassScopeOptions).

Definition noOptions : ClassScopeOptions := mkClassScopeOptions None None None None false.

Definition isGlobalClassScope (options : ClassScope) : bool :=
  match options with
  | ClassScopeObject o => truthy (suffix o) || truthy (prefix o)
  | _ => false
  end.

(** [getClassScopeOptions(scope, classScope)]; [None] is [undefined].  The
    copy made by [Object.assign] holds the regular expression objects of
    [classScope] themselves. *)
Definition getClassScopeOptions (scope : string) (classScope : ClassScope)
    : option ClassScopeOptions :=
  let opt := match classScope with
             | ClassScopeObject o => Some o
             | ClassScopeFlag true => Some noOptions
             | _ => None
             end in
  match opt with
  | Some opt =>
      if negb (truthy (prefix opt)) && negb (truthy (suffix opt)) && negb (String.eqb scope "")
      then Some (mkClassScopeOptions (prefix opt) (Some ("_" +:+ scope))
                   (include opt) (exclude opt) (full opt))
      else Some opt
  | None => None
  end.

(** The option [classScope] after its regular expressions were used through
    the options [used]. *)
Definition withRegExps (classScope : ClassScope) (used : ClassScopeOptions) : ClassScope :=
  match classScope with
  | ClassScopeObject o =>
      ClassScopeObject
        (mkClassScopeOptions (prefix o) (suffix o) (include used) (exclude used) (full o))
  | _ => classScope
  end.

(** The body of [root.each(sel => ...)]: the selectors standing in the root
    at the place of [sel] afterwards, and the option afterwards.  The copies
    are handled as selectors without parent and inserted before [sel]. *)
Definition eachSelector_st (classScope : ClassScope) (scope : string) (sel : Node)
    : list Node * ClassScope :=
  match getClassScopeOptions scope classScope with
  | Some options =>
      if isGlobalClassScope classScope then
        let '(copies, options) := scopeClassNamesInContainer sel options in
        (map (fun selCopy => detached (handleSelector scope selCopy)) copies
         ++ inRoot (handleSelector scope sel),
         withRegExps classScope options)
      else
        let '(sel, options) := scopeClassNames sel options false in
        (inRoot (handleSelector scope sel), withRegExps classScope options)
  | None => (inRoot (handleSelector scope sel), classScope)
  end.

(** The processor's transform on the selectors of a root: [each] follows
    the selector it is at through insertions and removals, so every
    selector of the input is handled once, in order. *)
Fixpoint processRoot_st (classScope : ClassScope) (scope : string) (root : list Node)
    : list Node * ClassScope :=
  match root with
  | [] => ([], classScope)
  | sel :: root' =>
      let '(sels, classScope) := eachSelector_st classScope scope sel in
      let '(rest, classScope) := processRoot_st classScope scope root' in
      (sels ++ rest, classScope)
  end.

(** The selectors alone. *)
Definition eachSelector (classScope : ClassScope) (scope : string) (sel : Node) : list Node :=
  fst (eachSelector_st classScope scope sel).

Definition processRoot (classScope : ClassScope) (scope : string) (root : list Node)
    : list Node :=
  fst (processRoot_st classScope scope root).

(** *** Class-name scoping with regular expressions that keep no state

    What the class-name scoping comes to when no call of [test] changes a
    regular expression: the answers of [test] are those of matching from
    the start of the name. *)

(** Does the pattern match, matching from the start? *)
Definition matches (re : RegExp) (s : string) : bool :=
  match matchFrom re s 0 with
  | Some _ => true
  | None => false
  end.

(** The regular expression, if there is one, has neither the g nor the y
    flag; and both of the options have neither. *)
Definition unflagged (re : option RegExp) : bool :=
  match re with
  | Some re => negb (flagged re)
  | None => true
  end.

Definition stateless (options : ClassScopeOptions) : Prop :=
  unflagged (include options) = true /\ unflagged (exclude options) = true.

(** The same for the option [classScope]. *)
Definition statelessScope (classScope : ClassScope) : Prop :=
  match classScope with
  | ClassScopeObject o => stateless o
  | _ => True
  end.

(** A class whose name [exclude] does not match and [include], if given,
    matches; and the node with the name of such a class decorated. *)
Definition qualifies (node : Node) (options : ClassScopeOptions) : bool :=
  if negb (is_type Class node) then false
  else
    negb (match exclude options with Some re => matches re (value node) | None => false end)
    && (match include options with Some re => matches re (value node) | None => true end).

Definition decorated (node : Node) (options : ClassScopeOptions) : Node :=
  if qualifies node options then
    set_value node (orEmpty (prefix options) +:+ value node +:+ orEmpty (suffix options))
  else node.

(** The selector with its class names renamed in place, the children of a
    child being renamed without [force]. *)
Fixpoint renamed_rec (options : ClassScopeOptions) (force : bool) (sel : Node)
    {struct sel} : Node :=
  match sel with
  | mkNode t v a b af ns p =>
      mkNode t v a b af
        ((fix each (l : list Node) : list Node :=
            match l with
            | [] => []
            | node :: l' =>
                (if qualifies node options then decorated node options
                 else if force || negb (isIgnoredPseudo node) then
                   match node with
                   | mkNode t' v' a' b' af' ns' p' =>
                       mkNode t' v' a' b' af'
                         ((fix children (cs : list Node) : list Node :=
                             match cs with
                             | [] => []
                             | child :: cs' =>
                                 renamed_rec options false child :: children cs'
                             end) ns') p'
                   end
                 else node) :: each l'
            end) ns) p
  end.

Definition renamed (sel : Node) (options : ClassScopeOptions) (force : bool) : Node :=
  if truthy (prefix options) || truthy (suffix options)
  then renamed_rec options force sel
  else sel.

(** Is there a class that qualifies, at any depth? *)
Fixpoint anyQualifies (options : ClassScopeOptions) (container : Node) : bool :=
  match container with
  | mkNode _ _ _ _ _ ns _ =>
      (fix any (l : list Node) : bool :=
         match l with
         | [] => false
         | node :: l' =>
             qualifies node options || anyQualifies options node || any l'
         end) ns
  end.

(** The clone with the class at [i] decorated. *)
Definition decoratedClone (options : ClassScopeOptions) (i : nat) (sel : Node) : Node :=
  let sel := clone sel in
  match at_ sel i with
  | Some node => set_nodes sel (<[i := decorated node options]> (nodes sel))
  | None => sel
  end.

(** The copies of a container: one when [full] is not set and a class
    qualifies, and with [full] one for every way to decorate some of the
    classes that qualify. *)
Fixpoint copies (options : ClassScopeOptions) (container : Node)
    {struct container} : list Node :=
  if negb (full options) then
    if anyQualifies options container
    then [renamed (clone container) options true]
    else []
  else
    match container with
    | mkNode _ _ _ _ _ ns _ =>
        tail
          ((fix forEach (l : list Node) (i : nat) (toUpdate : list Node) : list Node :=
              match l with
              | [] => toUpdate
              | node :: l' =>
                  forEach l' (S i)
                    (if qualifies node options then
                       toUpdate ++ map (decoratedClone options i) toUpdate
                     else if is_type Pseudo node then
                       match node with
                       | mkNode _ _ _ _ _ pseudoSels _ =>
                           (fix forEachArg (ps : list Node) (j : nat) (toUpdate : list Node)
                              : list Node :=
                              match ps with
                              | [] => toUpdate
                              | pseudoSel :: ps' =>
                                  forEachArg ps' (S j)
                                    (toUpdate ++
                                     flat_map
                                       (substituteArgument i j
                                          (copies options pseudoSel))
                                       toUpdate)
                              end) pseudoSels 0 toUpdate
                       end
                     else toUpdate)
              end) ns 0 [container])
    end.

(** What stands in the root for one selector when no call of [test]
    changes a regular expression. *)
Definition eachSelectorStateless (classScope : ClassScope) (scope : string) (sel : Node)
    : list Node :=
  match getClassScopeOptions scope classScope with
  | Some options =>
      if isGlobalClassScope classScope then
        map (fun selCopy => detached (handleSelector scope selCopy)) (copies options sel)
        ++ inRoot (handleSelector scope sel)
      else inRoot (handleSelector scope (renamed sel options false))
  | None => inRoot (handleSelector scope sel)
  end.

(** *** Notions used in the statements about selectors *)

(** The walk of [rewriteRefs] over a list of children. *)
Definition refsWalk (scope : string) (l : list Node) : list Node :=
  nodes (rewriteRefs (selector l) scope).

Definition notPseudoHead (l : list Node) : Prop :=
  match l with
  | n :: _ => is_type Pseudo n = false
  | [] => True
  end.

(** Is the first child a [::slotted] pseudo? *)
Definition startsWithSlotted (sel : Node) : bool :=
  match nodes sel with
  | node :: _ => is_type Pseudo node && String.eqb (value node) "::slotted"
  | [] => false
  end.

(** What takes the place of a first or last representative [item]. *)
Definition partRewritten (scope : string) (item : Node) : list Node :=
  if processed item then [item]
  else match type item with
       | Pseudo =>
           if String.eqb (value item) ":host" then scopeHost scope :: nodes item
           else if String.eqb (value item) ":host-context"
                then nodes item ++ [str " "; scopeHost scope]
                else [item]
       | Tag | Universal =>
           [set_after item ""; set_after (scopeElement scope) (after item)]
       | Id | Class | Attribute =>
           [set_before (scopeElement scope) (before item); set_before item ""]
       | _ => [item]
       end.

(** What stands for a [::global] or [::local] pseudo [part] when the
    alternative [childSel] is chosen. *)
Definition fragment (scope : string) (part childSel : Node) : list Node :=
  if String.eqb (value part) "::global" then nodes childSel
  else scopeHost scope :: str " " :: nodes childSel.

(** The fragment chosen for position [i], if any. *)
Fixpoint choiceAt (i : nat) (choices : list (nat * list Node)) : option (list Node) :=
  match choices with
  | [] => None
  | (ix, frag) :: more => if ix =? i then Some frag else choiceAt i more
  end.

(** The children [ns], standing at positions [i], [i + 1], ..., with every
    child at a chosen position replaced by the fragment chosen for it. *)
Fixpoint substituteFrom (i : nat) (choices : list (nat * list Node)) (ns : list Node)
    : list Node :=
  match ns with
  | [] => []
  | n :: ns' =>
      match choiceAt i choices with
      | Some frag => frag
      | None => [n]
      end ++ substituteFrom (S i) choices ns'
  end.

(** The selector with the children at the chosen positions replaced, all
    at once, by the fragments chosen for them. *)
Definition substitute (sel : Node) (choices : list (nat * list Node)) : Node :=
  set_nodes sel (substituteFrom 0 choices (nodes sel)).

(** The same replacements made one after the other, each on a clone, as
    the expansion loop makes them. *)
Fixpoint substituteSeq (r : Node) (choices : list (nat * list Node)) : Node :=
  match choices with
  | [] => r
  | (ix, frag) :: more => substituteSeq (replaceWith (clone r) ix frag) more
  end.

Definition cloneChoices (choices : list (nat * list Node)) : list (nat * list Node) :=
  map (fun c => (fst c, map clone (snd c))) choices.

(** Choices listed by strictly decreasing position. *)
Definition descending (choices : list (nat * list Node)) : Prop :=
  StronglySorted (fun c d => fst d < fst c) choices.

(** Every way to choose one alternative for each of the pseudos at
    [positions] of [sel]; the choice for the first position varies slowest. *)
Fixpoint allChoices (scope : string) (sel : Node) (positions : list nat)
    : list (list (nat * list Node)) :=
  match positions with
  | [] => [[]]
  | ix :: more =>
      match at_ sel ix with
      | Some part =>
          flat_map (fun childSel =>
                      map (cons (ix, fragment scope part childSel))
                          (allChoices scope sel more))
                   (nodes part)
      | None => allChoices scope sel more
      end
  end.

(** Number of alternatives of the pseudo at [ix]. *)
Definition alternatives (sel : Node) (ix : nat) : nat :=
  match at_ sel ix with
  | Some part => length (nodes part)
  | None => 1
  end.

Definition product (l : list nat) : nat := fold_right Nat.mul 1 l.

(** There is a [::global] or [::local] pseudo at each of the positions. *)
Definition specialAt (sel : Node) (positions : list nat) : Prop :=
  List.Forall (fun ix => isSpecialAt sel ix = true) positions.

(** The positions of the children whose class name is to be scoped. *)
Fixpoint qualifying_from (options : ClassScopeOptions) (i : nat) (ns : list Node)
    : list nat :=
  match ns with
  | [] => []
  | node :: ns' =>
      if qualifies node options
      then i :: qualifying_from options (S i) ns'
      else qualifying_from options (S i) ns'
  end.

Definition qualifying (options : ClassScopeOptions) (container : Node) : list nat :=
  qualifying_from options 0 (nodes container).

(** The subsets of a list of positions, in the order the exhaustive
    expansion meets them: those without the last position first, then the
    same with it. *)
Definition subsets (positions : list nat) : list (list nat) :=
  fold_left (fun acc p => acc ++ map (fun s => s ++ [p]) acc) positions [[]].

(** The child at [i] with its class name decorated, and the children at
    the positions of [s] decorated. *)
Definition decorateAt (options : ClassScopeOptions) (i : nat) (sel : Node) : Node :=
  match at_ sel i with
  | Some node => set_nodes sel (<[i := decorated node options]> (nodes sel))
  | None => sel
  end.

Definition decorate (options : ClassScopeOptions) (sel : Node) (s : list nat) : Node :=
  fold_left (fun c i => decorateAt options i c) s sel.

(** The exhaustive loop over children of which no pseudo has arguments. *)
Fixpoint classLoop (options : ClassScopeOptions) (l : list Node) (i : nat)
    (toUpdate : list Node) : list Node :=
  match l with
  | [] => toUpdate
  | node :: l' =>
      classLoop options l' (S i)
        (if qualifies node options
         then toUpdate ++ map (decoratedClone options i) toUpdate
         else toUpdate)
  end.

(** No pseudo among the children has arguments. *)
Definition noPseudoArguments (container : Node) : Prop :=
  List.Forall (fun n => is_type Pseudo n = true -> nodes n = []) (nodes container).

(** The selectors of the examples, as the parser builds them: the space
    after a comma is the [spaces.before] of the node that follows. *)
Definition divGlobalSpan : Node :=
  selector [tag "div"; combinator " ";
            pseudo "::global" [selector [tag "a"]; selector [set_before (tag "b") " "]];
            combinator " "; tag "span"].

Definition xLocalY : Node :=
  selector [tag "x"; combinator " ";
            pseudo "::local" [selector [tag "p"]; selector [set_before (tag "q") " "]];
            combinator " "; tag "y"].

(** [ref:foo], the combinator of [a > b], [.a .b > .c] and [.foo.bar]. *)
Definition refFoo : Node := selector [tag "ref"; pseudo ":foo" []].

Definition child : Node := set_after (set_before (combinator ">") " ") " ".

Definition abc : Node :=
  selector [className "a"; combinator " "; className "b"; child; className "c"].

Definition fooBar : Node := selector [className "foo"; className "bar"].

(** The pattern of the one sign [c]: the index behind its first occurrence
    in [s] from the index [i] on. *)
Fixpoint signFrom (c : ascii) (s : string) (i : nat) : option nat :=
  match s with
  | EmptyString => None
  | String d s' =>
      match i with
      | S i' => option_map S (signFrom c s' i')
      | 0 => if Ascii.eqb c d then Some 1 else option_map S (signFrom c s' 0)
      end
  end.

(** The regular expression [/a/g], the options [{ suffix: '_s', include:
    /a/g, full: true }] and the selector [.a.a.a]. *)
Definition aGlobal : RegExp := mkRegExp (signFrom "a") true 0.

Definition suffixIncludeAGlobal : ClassScopeOptions :=
  mkClassScopeOptions None (Some "_s") (Some aGlobal) None true.

Definition aaa : Node := selector [className "a"; className "a"; className "a"].

(** *** Notions used in the further properties of selectors *)

(** Is there, at any depth, a [ref] tag with a pseudo right behind it?  The
    walk descends into the children that are not tags. *)
Fixpoint hasRefPair (n : Node) : bool :=
  match n with
  | mkNode _ _ _ _ _ ns _ =>
      (fix pairs (l : list Node) : bool :=
         match l with
         | [] => false
         | node :: rest =>
             (if is_type Tag node then
                String.eqb (value node) "ref"
                && match rest with
                   | next :: _ => is_type Pseudo next
                   | [] => false
                   end
              else hasRefPair node)
             || pairs rest
         end) ns
  end.

Definition refPairs (l : list Node) : bool := hasRefPair (selector l).

(** Number of nodes of a tree, and of a list of trees. *)
Fixpoint nodeCount (n : Node) : nat :=
  match n with
  | mkNode _ _ _ _ _ ns _ =>
      S ((fix sum (l : list Node) : nat :=
            match l with
            | [] => 0
            | c :: l' => nodeCount c + sum l'
            end) ns)
  end.

Definition nodeCounts (l : list Node) : nat := nodeCount (selector l) - 1.

(** The text of a list of nodes, one after the other. *)
Definition texts (l : list Node) : string := String.concat "" (map toString l).

(** Number of selectors that stand in the root for one selector when no
    class names are scoped. *)
Definition outputs (scope : string) (sel : Node) : nat :=
  if startsWithSlotted sel then 1
  else let sel := rewriteRefs sel scope in
       product (map (alternatives sel) (localGlobal sel)).

(** No child of the container has children of its own. *)
Definition leafChildren (container : Node) : Prop :=
  List.Forall (fun n => nodes n = []) (nodes container).

(** The options with [full] set to [b]. *)
Definition setFull (options : ClassScopeOptions) (b : bool) : ClassScopeOptions :=
  mkClassScopeOptions (prefix options) (suffix options) (include options)
    (exclude options) b.

(** The two loops of the exhaustive class scoping, over the arguments of
    the pseudo at [i] and over the children of the container. *)
Fixpoint argLoop (options : ClassScopeOptions) (i : nat) (ps : list Node) (j : nat)
    (toUpdate : list Node) : list Node :=
  match ps with
  | [] => toUpdate
  | pseudoSel :: ps' =>
      argLoop options i ps' (S j)
        (toUpdate ++
         flat_map (substituteArgument i j (copies options pseudoSel))
                  toUpdate)
  end.

Fixpoint fullLoop (options : ClassScopeOptions) (l : list Node) (i : nat)
    (toUpdate : list Node) : list Node :=
  match l with
  | [] => toUpdate
  | node :: l' =>
      fullLoop options l' (S i)
        (if qualifies node options then
           toUpdate ++ map (decoratedClone options i) toUpdate
         else if is_type Pseudo node then argLoop options i (nodes node) 0 toUpdate
         else toUpdate)
  end.

(** A class node with [_scope] appended to its name; any other node as it is. *)
Definition suffixed (scope : string) (n : Node) : Node :=
  if is_type Class n then set_value n (value n +:+ "_" +:+ scope) else n.

(** Number of qualifying class names the exhaustive scoping reaches: those
    among the children, and those it reaches in the arguments of the
    children that are pseudos. *)
Fixpoint reachable (options : ClassScopeOptions) (container : Node) : nat :=
  match container with
  | mkNode _ _ _ _ _ ns _ =>
      (fix children (l : list Node) : nat :=
         match l with
         | [] => 0
         | node :: l' =>
             (if qualifies node options then 1
              else if is_type Pseudo node then
                match node with
                | mkNode _ _ _ _ _ args _ =>
                    (fix arguments (ps : list Node) : nat :=
                       match ps with
                       | [] => 0
                       | pseudoSel :: ps' => reachable options pseudoSel + arguments ps'
                       end) args
                end
              else 0)
             + children l'
         end) ns
  end.

(** The part of one child in that number. *)
Definition reachableIn (options : ClassScopeOptions) (node : Node) : nat :=
  if qualifies node options then 1
  else if is_type Pseudo node
       then list_sum (map (reachable options) (nodes node))
       else 0.


End Sel.

(** ** Strings and the plugin's regular expressions *)

Module Text.

Fixpoint startsWith (p s : string) : bool :=
  match p, s with
  | EmptyString, _ => true
  | String a p', String b s' => Ascii.eqb a b && startsWith p' s'
  | String _ _, EmptyString => false
  end.

Fixpoint dropS (n : nat) (s : string) : string :=
  match n, s with
  | S n', String _ s' => dropS n' s'
  | _, _ => s
  end.

(** The class [\w]: letters, digits and the underscore. *)
Definition isWordChar (c : ascii) : bool :=
  let n := nat_of_ascii c in
  (48 <=? n) && (n <=? 57) || (65 <=? n) && (n <=? 90)
  || (97 <=? n) && (n <=? 122) || (n =? 95).

(** The class [\s] on the code units below 256: tab, line feed, vertical
    tab, form feed, carriage return, space and the no-break space U+00A0. *)
Definition isSpace (c : ascii) : bool :=
  let n := nat_of_ascii c in
  (9 <=? n) && (n <=? 13) || (n =? 32) || (n =? 160).

Definition wordAt (s : string) : bool :=
  match s with
  | String c _ => isWordChar c
  | EmptyString => false
  end.

(** [\b] between a character whose word-ness is [prev] (false at the start
    of the text) and the text [s] that follows. *)
Definition wordBoundary (prev : bool) (s : string) : bool := xorb prev (wordAt s).

(** [(local|global)] at the start of [s]. *)
Definition tokenAt (s : string) : option string :=
  if startsWith "local" s then Some "local"
  else if startsWith "global" s then Some "global"
  else None.

(** [/\b(local|global)\b/] tried at one position. *)
Definition boundedTokenAt (prev : bool) (s : string) : option string :=
  if wordBoundary prev s then
    match tokenAt s with
    | Some tok =>
        if wordBoundary true (dropS (String.length tok) s) then Some tok else None
    | None => None
    end
  else None.

(** [params.match(/\b(local|global)\b/)?.[1]]: the leftmost match. *)
Fixpoint matchMediaScope (prev : bool) (s : string) : option string :=
  match boundedTokenAt prev s with
  | Some tok => Some tok
  | None =>
      match s with
      | EmptyString => None
      | String c s' => matchMediaScope (isWordChar c) s'
      end
  end.

(** Length of the run of [\s] at the start of [s]. *)
Fixpoint spaceRun (s : string) : nat :=
  match s with
  | String c s' => if isSpace c then S (spaceRun s') else 0
  | EmptyString => 0
  end.

(** [\s+and\s+] at the start of [s]: the length matched.  Both runs are
    greedy, and giving a space back never helps: the next sign would be a
    space where a letter is wanted. *)
Definition andGroup (s : string) : option nat :=
  let n1 := spaceRun s in
  if n1 =? 0 then None
  else
    let s1 := dropS n1 s in
    if startsWith "and" s1 then
      let n2 := spaceRun (dropS 3 s1) in
      if n2 =? 0 then None else Some (n1 + 3 + n2)
    else None.

(** [(local|global)(\s+and\s+)?] at the start of [s]. *)
Definition tokenGroup (s : string) : option nat :=
  match tokenAt s with
  | Some tok =>
      let n := String.length tok in
      Some (n + default 0 (andGroup (dropS n s)))
  | None => None
  end.

(** [/(\s+and\s+)?(local|global)(\s+and\s+)?/] at the start of [s]: the
    first group is tried first, and left out when the rest fails with it. *)
Definition stripAt (s : string) : option nat :=
  match andGroup s with
  | Some n =>
      match tokenGroup (dropS n s) with
      | Some m => Some (n + m)
      | None => tokenGroup s
      end
  | None => tokenGroup s
  end.

(** [s.replace(/(\s+and\s+)?(local|global)(\s+and\s+)?/g, '')]: [skip]
    counts the signs of the current match still to be dropped. *)
Fixpoint replaceAll (skip : nat) (s : string) : string :=
  match s with
  | EmptyString => EmptyString
  | String c s' =>
      match skip with
      | S k => replaceAll k s'
      | 0 =>
          match stripAt s with
          | Some (S k) => replaceAll k s'
          | _ => String c (replaceAll 0 s')
          end
      end
  end.

Definition stripMediaScope (params : string) : string := replaceAll 0 params.

(** Length of the run of [\w] at the start of [s]. *)
Fixpoint wordRun (s : string) : nat :=
  match s with
  | String c s' => if isWordChar c then S (wordRun s') else 0
  | EmptyString => 0
  end.

(** [cssName(propName)]: [(propName || '').replace(/^-\w+-/, '')]. *)
Definition cssName (propName : string) : string :=
  match propName with
  | String "-" rest =>
      let n := wordRun rest in
      if n =? 0 then propName
      else match dropS n rest with
           | String "-" rest' => rest'
           | _ => propName
           end
  | _ => propName
  end.

(** [concat(name, suffix)]. *)
Definition concat (name suffix : string) : string :=
  let sep := match suffix with
             | String "_" _ | String "-" _ => ""
             | _ => "-"
             end in
  name +:+ sep +:+ suffix.

(** [s.split(' ')]. *)
Fixpoint split (s : string) : list string :=
  match s with
  | EmptyString => [EmptyString]
  | String c s' =>
      if Ascii.eqb c " " then EmptyString :: split s'
      else match split s' with
           | chunk :: chunks => String c chunk :: chunks
           | [] => [String c EmptyString]
           end
  end.

(** [chunks.join(' ')]. *)
Definition join (chunks : list string) : string := String.concat " " chunks.

(** *** Notions used in the statements about texts *)

(** Does [local] or [global] occur anywhere in [s]? *)
Fixpoint containsToken (s : string) : bool :=
  match tokenAt s with
  | Some _ => true
  | None =>
      match s with
      | EmptyString => false
      | String _ s' => containsToken s'
      end
  end.


(** Is [s] made of [\w] signs only? *)
Fixpoint wordOnly (s : string) : bool :=
  match s with
  | EmptyString => true
  | String c s' => isWordChar c && wordOnly s'
  end.

(** Does the sign [c] occur in [s]? *)
Fixpoint occurs (c : ascii) (s : string) : bool :=
  match s with
  | EmptyString => false
  | String d s' => Ascii.eqb c d || occurs c s'
  end.

(** The tokens of [s] between runs of white space; [cur] is the token
    being read. *)
Fixpoint whitespaceTokens_from (cur : option string) (s : string) : list string :=
  match s with
  | EmptyString =>
      match cur with
      | Some w => [w]
      | None => []
      end
  | String c s' =>
      if isSpace c then
        match cur with
        | Some w => w :: whitespaceTokens_from None s'
        | None => whitespaceTokens_from None s'
        end
      else
        whitespaceTokens_from (Some (default EmptyString cur +:+ String c EmptyString)) s'
  end.

Definition whitespaceTokens (s : string) : list string := whitespaceTokens_from None s.

(** [local] or [global]. *)
Definition isToken (tok : string) : Prop := tok = "local" \/ tok = "global".


(** *** Notions used in the further properties of texts *)

(** Is the last sign of [s] a [\w] sign?  [prev] answers for the empty text. *)
Fixpoint lastIsWord_from (prev : bool) (s : string) : bool :=
  match s with
  | EmptyString => prev
  | String c s' => lastIsWord_from (isWordChar c) s'
  end.

Definition lastIsWord (s : string) : bool := lastIsWord_from false s.

(** Number of spaces in [s]. *)
Fixpoint countSpaces (s : string) : nat :=
  match s with
  | EmptyString => 0
  | String c s' => (if Ascii.eqb c " " then 1 else 0) + countSpaces s'
  end.

End Text.

(** ** Stylesheet trees and the plugin's visitors *)

Module Css.
Import Text.

(** A node of a stylesheet.  A rule holds its selector as the list of its
    comma-separated selectors ([rule.selectors]). *)
Inductive ChildNode :=
| AtRule (name params : string) (nodes : list ChildNode) (processed : bool)
| Rule (selectors : list string) (nodes : list ChildNode) (processed : bool)
| Declaration (prop value : string) (processed : bool)
| Comment (text : string).

(** What the visitors read of a parent: its type and, for an at-rule, its
    name and parameters. *)
Inductive Container :=
| RootC
| AtRuleC (name params : string)
| RuleC.

(** The plugin's options, [scope] being the scope the option resolves to
    for the stylesheet at hand ([None] is [undefined]). *)
Record Options := mkOptions {
  scope : option string;
  classScope : Sel.ClassScope
}.

(** The state of a plugin instance: [scope] and [animations]. *)
Record State := mkState {
  st_scope : option string;
  animations : gset string
}.

Definition has (animations : gset string) (name : string) : bool :=
  bool_decide (name ∈ animations).

(** A truthy [scope]: defined and not empty. *)
Definition truthyScope (st : State) : option string :=
  match st_scope st with
  | Some EmptyString | None => None
  | Some s => Some s
  end.

Definition isKeyframe (node : Container) : bool :=
  match node with
  | AtRuleC name _ => String.eqb (cssName name) "keyframes"
  | _ => false
  end.

Definition getMediaScope (node : Container) : option string :=
  match node with
  | AtRuleC _ params => matchMediaScope false params
  | _ => None
  end.

Definition isGlobal (mediaScope : option string) : bool :=
  match mediaScope with
  | Some m => String.eqb m "global"
  | None => false
  end.

(** [isRewriteableKeyframe(atrule)] for the at-rule [name params] with the
    given parent ([None]: no parent). *)
Definition isRewriteableKeyframe (parent : option Container) (name params : string) : bool :=
  isKeyframe (AtRuleC name params)
  && match parent with
     | None => true
     | Some p => negb (isGlobal (getMediaScope p))
     end.

(** [root.walkAtRules(atrule => ...)] of [Once]: the names added to
    [animations] by the at-rules of a subtree. *)
Fixpoint collect (parent : Container) (node : ChildNode) : gset string :=
  match node with
  | AtRule name params nodes _ =>
      (if isRewriteableKeyframe (Some parent) name params then {[ params ]} else ∅)
      ∪ ⋃ (map (collect (AtRuleC name params)) nodes)
  | Rule _ nodes _ => ⋃ (map (collect RuleC) nodes)
  | _ => ∅
  end.

(** [Once(root)]. *)
Definition Once (options : Options) (root : list ChildNode) : State :=
  match scope options with
  | Some EmptyString | None => mkState (scope options) ∅
  | Some _ => mkState (scope options) (⋃ (map (collect RootC) root))
  end.

(** [AtRuleExit(atrule)]: the nodes standing at the place of the at-rule in
    its parent afterwards. *)
Definition AtRuleExit (st : State) (parent : option Container)
    (name params : string) (nodes : list ChildNode) (processed : bool) : list ChildNode :=
  match truthyScope st, processed with
  | Some scope, false =>
      match getMediaScope (AtRuleC name params) with
      | Some mediaScope =>
          if String.eqb mediaScope params then
            match parent with
            | Some _ => nodes
            | None => [AtRule name params nodes true]
            end
          else [AtRule name (stripMediaScope params) nodes true]
      | None =>
          if isRewriteableKeyframe parent name params
          then [AtRule name (concat params scope) nodes true]
          else [AtRule name params nodes true]
      end
  | _, _ => [AtRule name params nodes processed]
  end.

(** [Declaration(decl)]: the value and the marker afterwards. *)
Definition DeclarationVisit (st : State) (prop value : string) (processed : bool)
    : string * bool :=
  match truthyScope st, processed with
  | Some scope, false =>
      let name := cssName prop in
      if String.eqb name "animation-name" && has (animations st) value then
        (concat value scope, true)
      else if String.eqb name "animation" then
        (join (map (fun chunk => if has (animations st) chunk
                                 then concat chunk scope else chunk)
                   (split value)), true)
      else (value, true)
  | _, _ => (value, processed)
  end.

Section Visitors.

(** The selector parser, from the text of one selector to its tree. *)
Variable parse : string -> Sel.Node.

(** The options with the class-scope option as it is after a use. *)
Definition withClassScope (options : Options) (classScope : Sel.ClassScope) : Options :=
  mkOptions (scope options) classScope.

(** [selProcessor.processSync(rule.selector)]: the selectors and the
    options afterwards. *)
Definition processSync_st (options : Options) (scope : string) (selectors : list string)
    : list string * Options :=
  let '(sels, classScope) :=
    Sel.processRoot_st (classScope options) scope (map parse selectors) in
  (map Sel.toString sels, withClassScope options classScope).

(** The loop of [scopeClassNamesInRule] over the selectors of the root:
    the copies of every selector are put before it. *)
Fixpoint scopeClassNamesInRoot (root : list Sel.Node) (o : Sel.ClassScopeOptions)
    : list Sel.Node * Sel.ClassScopeOptions :=
  match root with
  | [] => ([], o)
  | sel :: root' =>
      let '(updated, o) := Sel.scopeClassNamesInContainer sel o in
      let '(rest, o) := scopeClassNamesInRoot root' o in
      (updated ++ sel :: rest, o)
  end.

(** [scopeClassNamesInRule(rule, options)]: the selectors and the options
    afterwards. *)
Definition scopeClassNamesInRule_st (selectors : list string) (o : Sel.ClassScopeOptions)
    : list string * Sel.ClassScopeOptions :=
  let '(sels, o) := scopeClassNamesInRoot (map parse selectors) o in
  (map Sel.toString sels, o).

(** [Rule(rule)]: the selectors and the marker afterwards, and the options
    afterwards. *)
Definition RuleVisit_st (options : Options) (st : State) (parent : option Container)
    (selectors : list string) (processed : bool) : list string * bool * Options :=
  match truthyScope st, processed with
  | Some scope, false =>
      let ordinary :=
        let '(selectors, options) := processSync_st options scope selectors in
        (selectors, true, options) in
      match parent with
      | Some p =>
          if isKeyframe p then (selectors, true, options)
          else
            match getMediaScope p with
            | Some mediaScope =>
                let selectors :=
                  if String.eqb mediaScope "local"
                  then map (fun sel => "[" +:+ scope +:+ "-host] " +:+ sel) selectors
                  else selectors in
                match classScope options with
                | Sel.ClassScopeObject o =>
                    if Sel.isGlobalClassScope (classScope options)
                       && (String.eqb mediaScope "local" || String.eqb mediaScope "global")
                    then
                      let '(selectors, o) := scopeClassNamesInRule_st selectors o in
                      (selectors, true, withClassScope options (Sel.ClassScopeObject o))
                    else (selectors, true, options)
                | _ => (selectors, true, options)
                end
            | None => ordinary
            end
      | None => ordinary
      end
  | _, _ => (selectors, processed, options)
  end.

(** One pass of the stylesheet processor over a node: [Rule] and
    [Declaration] when the node is entered, the children one after the
    other, [AtRuleExit] when an at-rule is left.  The result is what stands
    at the node's place, and the options afterwards.  Nodes met again after
    a boundary was unwrapped carry the marker and are skipped, so the pass
    meets every node once. *)
Fixpoint walk_st (options : Options) (st : State) (parent : Container) (node : ChildNode)
    {struct node} : list ChildNode * Options :=
  match node with
  | AtRule name params nodes processed =>
      let '(nodes, options) :=
        (fix children (l : list ChildNode) (options : Options)
           : list ChildNode * Options :=
           match l with
           | [] => ([], options)
           | child :: l' =>
               let '(r, options) := walk_st options st (AtRuleC name params) child in
               let '(rs, options) := children l' options in
               (r ++ rs, options)
           end) nodes options in
      (AtRuleExit st (Some parent) name params nodes processed, options)
  | Rule selectors nodes processed =>
      let '(selectors, processed, options) :=
        RuleVisit_st options st (Some parent) selectors processed in
      let '(nodes, options) :=
        (fix children (l : list ChildNode) (options : Options)
           : list ChildNode * Options :=
           match l with
           | [] => ([], options)
           | child :: l' =>
               let '(r, options) := walk_st options st RuleC child in
               let '(rs, options) := children l' options in
               (r ++ rs, options)
           end) nodes options in
      ([Rule selectors nodes processed], options)
  | Declaration prop value processed =>
      let '(value, processed) := DeclarationVisit st prop value processed in
      ([Declaration prop value processed], options)
  | Comment text => ([Comment text], options)
  end.

(** The pass over the children of a node, one after the other. *)
Fixpoint walkNodes_st (options : Options) (st : State) (parent : Container)
    (nodes : list ChildNode) : list ChildNode * Options :=
  match nodes with
  | [] => ([], options)
  | child :: nodes' =>
      let '(r, options) := walk_st options st parent child in
      let '(rs, options) := walkNodes_st options st parent nodes' in
      (r ++ rs, options)
  end.

(** The results alone. *)
Definition processSync (options : Options) (scope : string) (selectors : list string)
    : list string :=
  fst (processSync_st options scope selectors).

Definition scopeClassNamesInRule (selectors : list string) (o : Sel.ClassScopeOptions)
    : list string :=
  fst (scopeClassNamesInRule_st selectors o).


Definition walk (options : Options) (st : State) (parent : Container) (node : ChildNode)
    : list ChildNode :=
  fst (walk_st options st parent node).

Definition walkNodes (options : Options) (st : State) (parent : Container)
    (nodes : list ChildNode) : list ChildNode :=
  fst (walkNodes_st options st parent nodes).

(** The plugin on a stylesheet: [Once], then the pass. *)
Definition run (options : Options) (root : list ChildNode) : list ChildNode :=
  walkNodes options (Once options root) RootC root.

End Visitors.

(** *** Notions used in the statements about stylesheets *)

(** The at-rules of a subtree, each with its parent, its name and its
    parameters. *)
Fixpoint atRules (parent : Container) (node : ChildNode)
    : list (Container * string * string) :=
  match node with
  | AtRule name params nodes _ =>
      (parent, name, params) :: flat_map (atRules (AtRuleC name params)) nodes
  | Rule _ nodes _ => flat_map (atRules RuleC) nodes
  | _ => []
  end.

(** The at-rules of a stylesheet. *)
Definition atRulesOf (root : list ChildNode) : list (Container * string * string) :=
  flat_map (atRules RootC) root.

(** The shorthand value as the claim has it: the value split on white
    space, the scope appended to every token that is a collected name, the
    tokens joined with single spaces. *)
Definition shorthandSplitOnWhitespace (st : State) (scope value : string) : string :=
  join (map (fun chunk => if has (animations st) chunk then concat chunk scope else chunk)
            (whitespaceTokens value)).


(** The selector parser on the selectors of the examples: one class name
    ([.a]) or one tag name ([a]). *)
Definition simpleParser (s : string) : Sel.Node :=
  match s with
  | String "." name => Sel.selector [Sel.className name]
  | _ => Sel.selector [Sel.tag s]
  end.


(** *** Notions used in the further properties of stylesheets *)

(** Does every at-rule, rule and declaration of the subtree carry the
    marker? *)
Fixpoint allProcessed (node : ChildNode) : bool :=
  match node with
  | AtRule _ _ nodes processed => processed && forallb allProcessed nodes
  | Rule _ nodes processed => processed && forallb allProcessed nodes
  | Declaration _ _ processed => processed
  | Comment _ => true
  end.

(** The rules, declarations and comments of a subtree in document order,
    at-rules left out. *)
Inductive Item :=
| RuleItem
| DeclarationItem (prop : string)
| CommentItem (text : string).

Fixpoint items (node : ChildNode) : list Item :=
  match node with
  | AtRule _ _ nodes _ => flat_map items nodes
  | Rule _ nodes _ => RuleItem :: flat_map items nodes
  | Declaration prop _ _ => [DeclarationItem prop]
  | Comment text => [CommentItem text]
  end.

(** The declarations of a subtree in document order, each with its value. *)
Fixpoint declarations (node : ChildNode) : list (string * string) :=
  match node with
  | AtRule _ _ nodes _ => flat_map declarations nodes
  | Rule _ nodes _ => flat_map declarations nodes
  | Declaration prop value _ => [(prop, value)]
  | Comment _ => []
  end.

End Css.
(** * Facts about the texts *)

Module TextFacts.
Import Text.

Lemma append_cons c (a b : string) : String c a +:+ b = String c (a +:+ b).
Proof. reflexivity. Qed.

Lemma append_empty_l (a : string) : "" +:+ a = a.
Proof. reflexivity. Qed.

Lemma length_append (a b : string) :
  String.length (a +:+ b) = String.length a + String.length b.
Proof.
  induction a as [|c a IH]; [reflexivity|].
  rewrite append_cons. simpl. by rewrite IH.
Qed.

Lemma append_assoc (a b c : string) : (a +:+ b) +:+ c = a +:+ (b +:+ c).
Proof.
  induction a as [|x a IH]; [reflexivity|]. rewrite !append_cons. by rewrite IH.
Qed.

Lemma append_empty_r (a : string) : a +:+ "" = a.
Proof.
  induction a as [|x a IH]; [reflexivity|]. rewrite append_cons. by rewrite IH.
Qed.

Lemma dropS_append (a b : string) : dropS (String.length a) (a +:+ b) = b.
Proof.
  induction a as [|c a IH]; [by destruct b|]. rewrite append_cons. exact IH.
Qed.

Lemma dropS_empty n : dropS n "" = "".
Proof. by destruct n. Qed.

(** ** [split] and [join] *)

Lemma split_nonempty s : split s <> [].
Proof.
  destruct s as [|c s]; simpl; [discriminate|].
  destruct (Ascii.eqb c " "); [discriminate|]. by destruct (split s).
Qed.

Lemma join_one chunk : join [chunk] = chunk.
Proof. reflexivity. Qed.

Lemma join_more chunk chunk' chunks :
  join (chunk :: chunk' :: chunks) = chunk +:+ " " +:+ join (chunk' :: chunks).
Proof. reflexivity. Qed.

Lemma join_split s : join (split s) = s.
Proof.
  induction s as [|c s IH]; [reflexivity|]. cbn [split].
  pose proof (split_nonempty s) as Hne.
  destruct (split s) as [|chunk chunks]; [done|]. clear Hne.
  destruct (Ascii.eqb_spec c " ") as [->|_].
  - rewrite join_more, IH. reflexivity.
  - destruct chunks as [|chunk' chunks].
    + rewrite join_one in *. by rewrite IH.
    + rewrite join_more in *. rewrite append_cons. by rewrite IH.
Qed.

Lemma occurs_cons_ne c d s : c <> d -> occurs c (String d s) = occurs c s.
Proof. intros H. cbn [occurs]. by destruct (Ascii.eqb_spec c d). Qed.

Lemma split_no_space s : List.Forall (fun chunk => occurs " " chunk = false) (split s).
Proof.
  induction s as [|c s IH]; cbn [split]; [by repeat constructor|].
  destruct (Ascii.eqb_spec c " ") as [->|Hc]; [by constructor|].
  destruct (split s) as [|chunk chunks].
  - repeat constructor. by rewrite occurs_cons_ne.
  - apply List.Forall_cons_iff in IH as [Hchunk Hchunks].
    constructor; [|exact Hchunks]. by rewrite occurs_cons_ne.
Qed.

Lemma map_id_on {A} (f : A -> A) l :
  List.Forall (fun x => f x = x) l -> map f l = l.
Proof. induction 1 as [|x l Hx _ IH]; simpl; [reflexivity|]. by rewrite Hx, IH. Qed.

(** ** [cssName] *)

Lemma wordRun_word w rest :
  wordOnly w = true -> wordRun (w +:+ String "-" rest) = String.length w.
Proof.
  induction w as [|c w IH]; [reflexivity|]. rewrite append_cons. cbn [wordOnly wordRun].
  intros [Hc Hw]%andb_true_iff. by rewrite Hc, IH.
Qed.

Lemma cssName_prefixed w rest :
  w <> "" -> wordOnly w = true -> cssName ("-" +:+ w +:+ "-" +:+ rest) = rest.
Proof.
  intros Hne Hw.
  change ("-" +:+ w +:+ "-" +:+ rest) with (String "-" (w +:+ String "-" rest)).
  unfold cssName. rewrite wordRun_word by exact Hw. rewrite dropS_append.
  destruct w as [|c w]; [done|reflexivity].
Qed.

Lemma cssName_plain c s : c <> "-"%char -> cssName (String c s) = String c s.
Proof.
  intros Hc. unfold cssName.
  destruct c as [[] [] [] [] [] [] [] []]; try reflexivity. done.
Qed.

(** ** [concat] *)

Lemma concat_length name suffix :
  suffix <> "" -> String.length name < String.length (concat name suffix).
Proof.
  intros Hs. unfold concat. rewrite !length_append.
  destruct suffix; [done|]. simpl. lia.
Qed.


(** ** The media scope *)

Lemma replaceAll_length s : forall k, String.length (replaceAll k s) <= String.length s.
Proof.
  induction s as [|c s IH]; intros k; [simpl; lia|].
  cbn [replaceAll]. destruct k as [|k].
  - destruct (stripAt (String c s)) as [[|m]|]; simpl;
      try (specialize (IH 0); lia). specialize (IH m). lia.
  - specialize (IH k). simpl. lia.
Qed.

Lemma containsToken_tokenAt s : containsToken s = false -> tokenAt s = None.
Proof.
  destruct s as [|c s]; cbn [containsToken]; [reflexivity|].
  by destruct (tokenAt (String c s)).
Qed.

Lemma containsToken_tail c s : containsToken (String c s) = false -> containsToken s = false.
Proof. cbn [containsToken]. by destruct (tokenAt (String c s)). Qed.

Lemma containsToken_dropS s : forall n,
  containsToken s = false -> containsToken (dropS n s) = false.
Proof.
  induction s as [|c s IH]; intros n H; [by rewrite dropS_empty|].
  destruct n as [|n]; [exact H|]. simpl. apply IH. by eapply containsToken_tail.
Qed.

Lemma tokenGroup_clean s : containsToken s = false -> tokenGroup s = None.
Proof. intros H. unfold tokenGroup. by rewrite containsToken_tokenAt. Qed.

Lemma stripAt_clean s : containsToken s = false -> stripAt s = None.
Proof.
  intros H. unfold stripAt.
  destruct (andGroup s) as [n|]; [|by apply tokenGroup_clean].
  rewrite (tokenGroup_clean (dropS n s)) by by apply containsToken_dropS.
  by apply tokenGroup_clean.
Qed.

Lemma replaceAll_clean s : containsToken s = false -> replaceAll 0 s = s.
Proof.
  induction s as [|c s IH]; intros H; [reflexivity|].
  cbn [replaceAll]. rewrite stripAt_clean by exact H.
  rewrite IH; [reflexivity|]. by eapply containsToken_tail.
Qed.

Lemma replaceAll_skip a b : replaceAll (String.length a) (a +:+ b) = replaceAll 0 b.
Proof.
  induction a as [|c a IH]; [by destruct b|]. rewrite append_cons. exact IH.
Qed.



Lemma andGroup_letter c s : isSpace c = false -> andGroup (String c s) = None.
Proof. intros Hc. unfold andGroup. cbn [spaceRun]. by rewrite Hc. Qed.




















Lemma matchMediaScope_token tok : isToken tok -> matchMediaScope false tok = Some tok.
Proof. by intros [-> | ->]. Qed.



End TextFacts.
(** * Further facts about the texts *)

Module TextProps.
Import Text TextFacts.

(** ** The boundary word *)

Lemma startsWith_split p : forall s,
  startsWith p s = true -> s = p +:+ dropS (String.length p) s.
Proof.
  induction p as [|a p IH]; intros s H; [by destruct s|].
  destruct s as [|b s]; [discriminate|]. cbn [startsWith] in H.
  apply andb_prop in H as [Hab Hp]. apply Ascii.eqb_eq in Hab as ->.
  rewrite append_cons. cbn [String.length dropS]. f_equal. by apply IH.
Qed.

Lemma tokenAt_split s tok :
  tokenAt s = Some tok ->
  isToken tok /\ s = tok +:+ dropS (String.length tok) s /\ wordAt s = true.
Proof.
  unfold tokenAt. destruct (startsWith "local" s) eqn:Hl.
  - intros [= <-]. split; [by left|]. split; [by apply startsWith_split|].
    destruct s as [|c s]; [discriminate|]. cbn [startsWith] in Hl.
    apply andb_prop in Hl as [Hc _]. apply Ascii.eqb_eq in Hc as <-. reflexivity.
  - destruct (startsWith "global" s) eqn:Hg; [|discriminate].
    intros [= <-]. split; [by right|]. split; [by apply startsWith_split|].
    destruct s as [|c s]; [discriminate|]. cbn [startsWith] in Hg.
    apply andb_prop in Hg as [Hc _]. apply Ascii.eqb_eq in Hc as <-. reflexivity.
Qed.

Lemma startsWith_append p s : startsWith p (p +:+ s) = true.
Proof.
  induction p as [|a p IH]; [done|]. rewrite append_cons. cbn [startsWith].
  by rewrite Ascii.eqb_refl.
Qed.

Lemma tokenAt_token tok post : isToken tok -> tokenAt (tok +:+ post) = Some tok.
Proof. intros [-> | ->]; reflexivity. Qed.

Lemma boundedTokenAt_sound prev s tok :
  boundedTokenAt prev s = Some tok ->
  isToken tok /\ prev = false /\ s = tok +:+ dropS (String.length tok) s
  /\ wordAt (dropS (String.length tok) s) = false.
Proof.
  unfold boundedTokenAt, wordBoundary.
  destruct (xorb prev (wordAt s)) eqn:Hb; [|discriminate].
  destruct (tokenAt s) as [t|] eqn:Ht; [|discriminate].
  destruct (xorb true (wordAt (dropS (String.length t) s))) eqn:Ha; [|discriminate].
  intros [= <-]. apply tokenAt_split in Ht as (Htok & Hs & Hw).
  rewrite Hw in Hb. repeat split; try done.
  - by destruct prev.
  - by destruct (wordAt (dropS (String.length t) s)).
Qed.

Lemma matchMediaScope_sound s : forall prev tok,
  matchMediaScope prev s = Some tok ->
  isToken tok /\ exists pre post,
    s = pre +:+ tok +:+ post /\ lastIsWord_from prev pre = false /\ wordAt post = false.
Proof.
  induction s as [|c s IH]; intros prev tok.
  - cbn [matchMediaScope].
    destruct (boundedTokenAt prev "") eqn:Hb; [|discriminate].
    intros [= ->]. apply boundedTokenAt_sound in Hb as (Htok & -> & Hs & Hw).
    split; [done|]. by exists "", (dropS (String.length tok) "").
  - cbn [matchMediaScope].
    destruct (boundedTokenAt prev (String c s)) eqn:Hb.
    + intros [= ->]. apply boundedTokenAt_sound in Hb as (Htok & -> & Hs & Hw).
      split; [done|]. by exists "", (dropS (String.length tok) (String c s)).
    + intros H. apply IH in H as (Htok & pre & post & -> & Hp & Hw).
      split; [done|]. exists (String c pre), post. by rewrite append_cons.
Qed.

Lemma matchMediaScope_complete pre : forall prev tok post,
  isToken tok -> lastIsWord_from prev pre = false -> wordAt post = false ->
  matchMediaScope prev (pre +:+ tok +:+ post) <> None.
Proof.
  induction pre as [|c pre IH]; intros prev tok post Htok Hp Hw.
  - cbn in Hp. subst prev. rewrite append_empty_l.
    assert (Hb : boundedTokenAt false (tok +:+ post) = Some tok).
    { unfold boundedTokenAt. rewrite (tokenAt_token _ _ Htok), dropS_append.
      unfold wordBoundary. rewrite Hw.
      by destruct Htok as [-> | ->]. }
    destruct (tok +:+ post); cbn [matchMediaScope]; by rewrite Hb.
  - rewrite append_cons. cbn [matchMediaScope].
    destruct (boundedTokenAt prev _); [done|]. by apply IH.
Qed.

Lemma replaceAll_skip_length s : forall k,
  String.length (replaceAll k s) <= String.length s - k.
Proof.
  induction s as [|c s IH]; intros k; [cbn; lia|].
  destruct k as [|k].
  - pose proof (replaceAll_length (String c s) 0). lia.
  - cbn [replaceAll String.length]. specialize (IH k). lia.
Qed.

Lemma tokenGroup_none s : tokenGroup s = None -> tokenAt s = None.
Proof. unfold tokenGroup. by destruct (tokenAt s). Qed.

Lemma stripAt_none s : stripAt s = None -> tokenAt s = None.
Proof.
  unfold stripAt. destruct (andGroup s) as [n|].
  - destruct (tokenGroup (dropS n s)); [discriminate|]. apply tokenGroup_none.
  - apply tokenGroup_none.
Qed.

Lemma tokenGroup_positive s n : tokenGroup s = Some n -> 5 <= n.
Proof.
  unfold tokenGroup, tokenAt.
  destruct (startsWith "local" s); [intros [= <-]; cbn; lia|].
  destruct (startsWith "global" s); [intros [= <-]; cbn; lia|discriminate].
Qed.

Lemma stripAt_positive s n : stripAt s = Some n -> 5 <= n.
Proof.
  unfold stripAt. destruct (andGroup s) as [k|].
  - destruct (tokenGroup (dropS k s)) as [m|] eqn:Hm.
    + intros [= <-]. apply tokenGroup_positive in Hm. lia.
    + apply tokenGroup_positive.
  - apply tokenGroup_positive.
Qed.

Lemma replaceAll_shrinks s :
  containsToken s = true -> String.length (replaceAll 0 s) < String.length s.
Proof.
  induction s as [|c s IH]; [discriminate|].
  intros H. cbn [replaceAll String.length].
  destruct (stripAt (String c s)) as [[|k]|] eqn:Hs.
  - apply stripAt_positive in Hs. lia.
  - pose proof (replaceAll_skip_length s k). lia.
  - apply stripAt_none in Hs. cbn [containsToken] in H. rewrite Hs in H.
    cbn [String.length]. specialize (IH H). lia.
Qed.

Lemma matchMediaScope_containsToken s : forall prev tok,
  matchMediaScope prev s = Some tok -> containsToken s = true.
Proof.
  induction s as [|c s IH]; intros prev tok; cbn [matchMediaScope containsToken].
  - unfold boundedTokenAt. destruct (wordBoundary prev ""); [|discriminate].
    destruct (tokenAt ""); [done|discriminate].
  - unfold boundedTokenAt. destruct (tokenAt (String c s)); [done|].
    destruct (wordBoundary prev (String c s)); apply IH.
Qed.

(** ** Names and chunks *)

Lemma wordRun_split s :
  exists w, s = w +:+ dropS (wordRun s) s /\ wordOnly w = true
            /\ String.length w = wordRun s.
Proof.
  induction s as [|c s (w & Hs & Hw & Hl)]; [by exists ""|].
  cbn [wordRun]. destruct (isWordChar c) eqn:Hc.
  - exists (String c w). cbn [dropS wordOnly String.length].
    rewrite append_cons, <- Hs, Hc, Hw, Hl. done.
  - by exists "".
Qed.

Lemma append_cancel_r (t : string) : forall a b, a +:+ t = b +:+ t -> a = b.
Proof.
  induction a as [|c a IH]; intros b H.
  - destruct b as [|d b]; [done|].
    apply (f_equal String.length) in H. rewrite !length_append in H. cbn in H. lia.
  - destruct b as [|d b].
    + apply (f_equal String.length) in H. rewrite !length_append in H. cbn in H. lia.
    + rewrite !append_cons in H. injection H as -> H. f_equal. by apply IH.
Qed.

Lemma split_word c : occurs " " c = false -> split c = [c].
Proof.
  induction c as [|a c IH]; [done|]. cbn [occurs split].
  intros [Ha Hc]%orb_false_elim. rewrite Ascii.eqb_sym in Ha. rewrite Ha.
  by rewrite (IH Hc).
Qed.

Lemma split_app_space c r :
  occurs " " c = false -> split (c +:+ " " +:+ r) = c :: split r.
Proof.
  induction c as [|a c IH]; [done|]. cbn [occurs].
  intros [Ha Hc]%orb_false_elim. rewrite append_cons. cbn [split].
  rewrite Ascii.eqb_sym in Ha. rewrite Ha. by rewrite (IH Hc).
Qed.

Lemma split_join_chunks chunks :
  chunks <> [] -> List.Forall (fun chunk => occurs " " chunk = false) chunks ->
  split (join chunks) = chunks.
Proof.
  induction chunks as [|c cs IH]; [done|]. intros _ H.
  apply List.Forall_cons_iff in H as [Hc Hcs].
  destruct cs as [|c' cs].
  - rewrite join_one. by apply split_word.
  - rewrite join_more, split_app_space by done. f_equal. by apply IH.
Qed.

Lemma split_length s : length (split s) = S (countSpaces s).
Proof.
  induction s as [|c s IH]; [done|]. cbn [split countSpaces].
  destruct (Ascii.eqb c " "); cbn [length]; [by rewrite IH|].
  destruct (split s) as [|ch chs] eqn:Hs; [by destruct (split_nonempty s)|].
  cbn [length] in *. lia.
Qed.

Lemma occurs_append c a b : occurs c (a +:+ b) = occurs c a || occurs c b.
Proof.
  induction a as [|d a IH]; [done|]. rewrite append_cons. cbn [occurs].
  by rewrite IH, orb_assoc.
Qed.

Lemma cssName_shape propName :
  (cssName propName = propName
   /\ forall w rest, w <> "" -> wordOnly w = true ->
                     propName <> "-" +:+ w +:+ "-" +:+ rest)
  \/ (exists w, w <> "" /\ wordOnly w = true
                /\ propName = "-" +:+ w +:+ "-" +:+ cssName propName).
Proof.
  assert (Hsame : cssName propName = propName ->
            forall w rest, w <> "" -> wordOnly w = true ->
                           propName <> "-" +:+ w +:+ "-" +:+ rest).
  { intros Hc w rest Hw Hword ->. rewrite cssName_prefixed in Hc by done.
    apply (f_equal String.length) in Hc. rewrite !length_append in Hc.
    cbn in Hc. lia. }
  destruct propName as [|c rest]; [left; split; [done|by apply Hsame]|].
  destruct (Ascii.eqb_spec c "-") as [->|Hc];
    [|left; split; [by apply cssName_plain|apply Hsame; by apply cssName_plain]].
  destruct (wordRun_split rest) as (w & Hrest & Hword & Hlen).
  unfold cssName in *. cbv zeta in *.
  destruct (wordRun rest =? 0) eqn:E; [left; split; [done|by apply Hsame]|].
  apply Nat.eqb_neq in E.
  destruct (dropS (wordRun rest) rest) as [|d rest'] eqn:Hd;
    [left; split; [done|by apply Hsame]|].
  destruct (Ascii.eqb_spec d "-") as [->|Hd'].
  - right. exists w. split; [by destruct w|]. split; [done|].
    rewrite Hrest at 1. reflexivity.
  - left.
    assert (Hid : match d with
                  | "-"%char => rest'
                  | _ => String "-" rest
                  end = String "-" rest).
    { destruct d as [[] [] [] [] [] [] [] []]; try reflexivity. by destruct Hd'. }
    split; [exact Hid|]. apply Hsame. exact Hid.
Qed.

Lemma concat_sep (suffix : string) :
  exists sep, (sep = "" \/ sep = "-") /\ forall n, concat n suffix = n +:+ sep +:+ suffix.
Proof.
  unfold concat. destruct suffix as [|c s]; [exists "-"; auto|].
  destruct (Ascii.eqb_spec c "_") as [->|H1]; [exists ""; auto|].
  destruct (Ascii.eqb_spec c "-") as [->|H2]; [exists ""; auto|].
  exists "-". split; [auto|]. intros n.
  destruct c as [[] [] [] [] [] [] [] []]; try reflexivity; by destruct H1 || by destruct H2.
Qed.

Lemma concat_injective a b suffix : concat a suffix = concat b suffix -> a = b.
Proof.
  destruct (concat_sep suffix) as (sep & _ & H). rewrite !H.
  rewrite <- !append_assoc. intros E. apply append_cancel_r in E.
  by apply append_cancel_r in E.
Qed.

Lemma concat_no_space chunk s :
  occurs " " chunk = false -> occurs " " s = false -> occurs " " (concat chunk s) = false.
Proof.
  intros Hc Hs. destruct (concat_sep s) as (sep & Hsep & H). rewrite H.
  rewrite !occurs_append, Hc, Hs. by destruct Hsep as [-> | ->].
Qed.

Lemma countSpaces_split s : countSpaces s = length (split s) - 1.
Proof. rewrite split_length. lia. Qed.

End TextProps.

(** * Facts about the selector rewriting *)

Module SelFacts.
Import Sel.

(** ** The ref-binding rewrite *)

Lemma rewriteRefs_nodes sel scope :
  rewriteRefs sel scope = set_nodes sel (refsWalk scope (nodes sel)).
Proof. destruct sel; reflexivity. Qed.

Lemma refsWalk_nil scope : refsWalk scope [] = [].
Proof. reflexivity. Qed.

Lemma refsWalk_cons scope node rest :
  refsWalk scope (node :: rest) =
  if is_type Tag node then
    if String.eqb (value node) "ref" then
      match rest with
      | next :: rest' =>
          if is_type Pseudo next
          then refAttribute next scope :: refsWalk scope rest'
          else node :: refsWalk scope rest
      | [] => node :: refsWalk scope rest
      end
    else node :: refsWalk scope rest
  else rewriteRefs node scope :: refsWalk scope rest.
Proof. destruct rest; reflexivity. Qed.

Lemma refsWalk_app scope pre l :
  notPseudoHead l -> refsWalk scope (pre ++ l) = refsWalk scope pre ++ refsWalk scope l.
Proof.
  intros Hl.
  remember (length pre) as n eqn:Hn.
  revert pre Hn. induction n as [n IH] using lt_wf_ind. intros pre Hn.
  destruct pre as [|a pre]; [reflexivity|].
  cbn [app]. rewrite !refsWalk_cons.
  destruct (is_type Tag a) eqn:Ha.
  - destruct (String.eqb (value a) "ref") eqn:Hv.
    + destruct pre as [|b pre].
      * cbn [app]. destruct l as [|c l]; [reflexivity|].
        cbn in Hl. rewrite Hl. reflexivity.
      * cbn [app]. destruct (is_type Pseudo b).
        -- cbn [app]. f_equal. apply (IH (length pre)); [cbn in Hn; lia|reflexivity].
        -- cbn [app]. f_equal. apply (IH (length (b :: pre)) ltac:(cbn in *; lia) (b :: pre) eq_refl).
    + cbn [app]. f_equal. apply (IH (length pre)); [cbn in Hn; lia|reflexivity].
  - cbn [app]. f_equal. apply (IH (length pre)); [cbn in Hn; lia|reflexivity].
Qed.

(** ** Lists *)

(** *** Splicing *)

Section Splice.
Context {A : Type}.
Implicit Types (l pre post items : list A) (x y : A).

Lemma lookup_split l i x :
  l !! i = Some x ->
  exists pre post, l = pre ++ x :: post /\ length pre = i
                   /\ take i l = pre /\ drop (S i) l = post.
Proof.
  intros H. exists (take i l), (drop (S i) l).
  pose proof (lookup_lt_Some _ _ _ H).
  repeat split; [symmetry; by apply take_drop_middle | rewrite length_take; lia].
Qed.

Lemma splice_middle pre x post items :
  splice (pre ++ x :: post) (length pre) 1 items = pre ++ items ++ post.
Proof.
  unfold splice. rewrite take_app_length. f_equal. f_equal.
  rewrite drop_app_add'; [|reflexivity]. reflexivity.
Qed.

Lemma splice_before pre post items :
  splice (pre ++ post) (length pre) 0 items = pre ++ items ++ post.
Proof.
  unfold splice. rewrite take_app_length, Nat.add_0_r, drop_app_length. reflexivity.
Qed.

Lemma insert_middle pre x y post :
  <[length pre := y]> (pre ++ x :: post) = pre ++ y :: post.
Proof. rewrite insert_app_r_alt; [|lia]. by rewrite Nat.sub_diag. Qed.

Lemma lookup_middle pre x post : (pre ++ x :: post) !! length pre = Some x.
Proof. by rewrite list_lookup_middle. Qed.

End Splice.

(** *** The rewriting of one representative *)

Lemma set_nodes_same sel : set_nodes sel (nodes sel) = sel.
Proof. by destruct sel. Qed.

Lemma nodes_set_nodes sel ns : nodes (set_nodes sel ns) = ns.
Proof. reflexivity. Qed.

Lemma rewriteSelectorPart_middle sel pre item post scope :
  nodes sel = pre ++ item :: post ->
  rewriteSelectorPart sel (length pre) scope
  = set_nodes sel (pre ++ partRewritten scope item ++ post).
Proof.
  intros Hns.
  assert (Hsame : sel = set_nodes sel (pre ++ [item] ++ post)).
  { cbn [app]. rewrite <- Hns. symmetry. apply set_nodes_same. }
  assert (Hafter : forall x y,
    splice (pre ++ x :: post) (S (length pre)) 0 [y] = pre ++ [x; y] ++ post).
  { intros x y. replace (pre ++ x :: post) with ((pre ++ [x]) ++ post)
      by by rewrite <- app_assoc.
    replace (S (length pre)) with (length (pre ++ [x]))
      by (rewrite length_app; simpl; lia).
    by rewrite splice_before, <- app_assoc. }
  unfold rewriteSelectorPart, partRewritten, insertAfter, insertBefore,
    replaceWith, at_.
  rewrite Hns, lookup_middle.
  destruct (processed item); [exact Hsame|].
  destruct (type item);
    rewrite ?lookup_middle, ?insert_middle, ?Hafter, ?splice_before;
    try exact Hsame; try reflexivity.
  destruct (String.eqb (value item) ":host"); [by rewrite splice_middle|].
  destruct (String.eqb (value item) ":host-context"); [by rewrite splice_middle|].
  exact Hsame.
Qed.

Lemma partRewritten_length scope item : 1 <= length (partRewritten scope item).
Proof.
  unfold partRewritten. destruct (processed item); [simpl; lia|].
  destruct (type item); simpl; try lia.
  destruct (String.eqb (value item) ":host"); [simpl; lia|].
  destruct (String.eqb (value item) ":host-context"); [|simpl; lia].
  rewrite length_app. simpl. lia.
Qed.

(** *** Compound representatives *)

Lemma getCompound_from_bounds ns : forall i part q,
  In q (getCompound_from i part ns) -> i <= q < i + length ns.
Proof.
  induction ns as [|node ns IH]; intros i part q; simpl; [tauto|].
  destruct (isCompoundBoundary node); [intros H%IH; lia|].
  destruct part; [intros H%IH; lia|].
  intros [<-|H%IH]; lia.
Qed.

Lemma getCompound_from_sorted ns : forall i part,
  StronglySorted lt (getCompound_from i part ns).
Proof.
  induction ns as [|node ns IH]; intros i part; simpl; [constructor|].
  destruct (isCompoundBoundary node); [apply IH|].
  destruct part; [apply IH|].
  constructor; [apply IH|].
  apply List.Forall_forall. intros q Hq%getCompound_from_bounds. lia.
Qed.

Lemma filter_sorted (f : nat -> bool) l :
  StronglySorted lt l -> StronglySorted lt (List.filter f l).
Proof.
  induction 1 as [|a l Hl IH Ha]; simpl; [constructor|].
  destruct (f a); [|exact IH].
  constructor; [exact IH|].
  apply List.Forall_forall. intros q [Hq _]%List.filter_In.
  rewrite List.Forall_forall in Ha. by apply Ha.
Qed.

Lemma scopable_sorted sel : StronglySorted lt (scopable sel).
Proof. apply filter_sorted, getCompound_from_sorted. Qed.

Lemma scopable_bounds sel q : In q (scopable sel) -> q < length (nodes sel).
Proof.
  intros [H%getCompound_from_bounds _]%List.filter_In. lia.
Qed.

Lemma sorted_head_last (f l : nat) rest :
  StronglySorted lt (f :: rest) -> last rest = Some l -> f < l /\ In l rest.
Proof.
  intros Hs Hl. apply StronglySorted_inv in Hs as [_ Hf].
  apply last_Some in Hl as [pre ->].
  rewrite List.Forall_forall in Hf.
  split; [apply Hf|]; apply List.in_or_app; right; by left.
Qed.

Lemma rewriteSelector_fst sel scope :
  fst (rewriteSelector sel scope) = scopeLast sel scope.
Proof. unfold rewriteSelector. by destruct (localGlobal sel). Qed.

Lemma firstPart_lastPart sel f l :
  firstPart sel = Some f -> lastPart sel = Some l ->
  f < l < length (nodes sel).
Proof.
  unfold firstPart, lastPart. intros Hf Hl.
  pose proof (scopable_sorted sel) as Hs.
  pose proof (scopable_bounds sel) as Hb.
  destruct (scopable sel) as [|f' rest]; [discriminate|].
  simpl in *. injection Hf as ->.
  destruct (sorted_head_last _ _ _ Hs Hl) as [Hlt Hin].
  split; [exact Hlt|]. apply Hb. by right.
Qed.

Lemma firstPart_bound sel f : firstPart sel = Some f -> f < length (nodes sel).
Proof.
  unfold firstPart. intros Hf. apply scopable_bounds.
  destruct (scopable sel); [discriminate|]. injection Hf as ->. by left.
Qed.

Lemma lastPart_None_firstPart sel : firstPart sel = None -> lastPart sel = None.
Proof. unfold firstPart, lastPart. by destruct (scopable sel). Qed.

(** A list cut at two positions. *)
Lemma split_two {A} (l : list A) i j :
  i < j < length l ->
  exists pre x mid y post,
    l = pre ++ x :: mid ++ y :: post /\ length pre = i /\ i + 1 + length mid = j.
Proof.
  intros [Hij Hj].
  destruct (lookup_lt_is_Some_2 l j Hj) as [y Hy].
  destruct (lookup_split _ _ _ Hy) as (l1 & post & Hl & Hlen & _).
  assert (Hi : i < length l1) by lia.
  destruct (lookup_lt_is_Some_2 l1 i Hi) as [x Hx].
  destruct (lookup_split _ _ _ Hx) as (pre & mid & Hl1 & Hlen1 & _).
  exists pre, x, mid, y, post. subst l l1.
  rewrite <- app_assoc. simpl. repeat split; [done|].
  rewrite length_app in Hlen. simpl in Hlen. lia.
Qed.

(** The selector after the first and last representatives were rewritten:
    nothing else changes. *)
Lemma rewriteSelector_one sel scope pre item post :
  nodes sel = pre ++ item :: post ->
  firstPart sel = Some (length pre) -> lastPart sel = None ->
  fst (rewriteSelector sel scope)
  = set_nodes sel (pre ++ partRewritten scope item ++ post).
Proof.
  intros Hns Hf Hl. rewrite rewriteSelector_fst.
  unfold scopeLast, scopeFirst. rewrite Hf, Hl.
  by apply rewriteSelectorPart_middle.
Qed.

Lemma index_after_middle sel pre item post scope q :
  nodes sel = pre ++ item :: post -> length pre < q ->
  index_after (length pre) sel (rewriteSelectorPart sel (length pre) scope) q
  = q + length (partRewritten scope item) - 1.
Proof.
  intros Hns Hq. unfold index_after.
  rewrite (rewriteSelectorPart_middle _ _ _ _ _ Hns), nodes_set_nodes, Hns.
  destruct (Nat.ltb_spec q (length pre)); [lia|].
  rewrite !length_app. simpl. lia.
Qed.

Lemma rewriteSelector_two sel scope pre itf mid itl post :
  nodes sel = pre ++ itf :: mid ++ itl :: post ->
  firstPart sel = Some (length pre) ->
  lastPart sel = Some (length pre + 1 + length mid) ->
  fst (rewriteSelector sel scope)
  = set_nodes sel (pre ++ partRewritten scope itf ++ mid
                       ++ partRewritten scope itl ++ post).
Proof.
  intros Hns Hf Hl. rewrite rewriteSelector_fst.
  unfold scopeLast, trackFirst, scopeFirst. rewrite Hf, Hl.
  rewrite (index_after_middle _ _ _ _ _ _ Hns) by lia.
  rewrite (rewriteSelectorPart_middle _ _ _ _ _ Hns).
  pose proof (partRewritten_length scope itf) as Hlen.
  set (sel1 := set_nodes sel _).
  assert (Hns1 : nodes sel1 = (pre ++ partRewritten scope itf ++ mid) ++ itl :: post).
  { unfold sel1. rewrite nodes_set_nodes, <- !app_assoc. reflexivity. }
  replace (length pre + 1 + length mid + length (partRewritten scope itf) - 1)
    with (length (pre ++ partRewritten scope itf ++ mid))
    by (rewrite !length_app; lia).
  rewrite (rewriteSelectorPart_middle _ _ _ _ _ Hns1).
  unfold sel1, set_nodes. simpl. f_equal. by rewrite <- !app_assoc.
Qed.

Lemma expandDown_take scope part ix rs : forall n, n <= length rs ->
  expandDown scope part ix n rs
  = flat_map (fun r => map (replacePseudo scope part ix r) (nodes part)) (take n rs)
    ++ drop n rs.
Proof.
  intros n. revert rs. induction n as [|i IH]; intros rs Hn; [reflexivity|].
  cbn [expandDown].
  destruct (lookup_lt_is_Some_2 rs i ltac:(lia)) as [r Hr]. rewrite Hr.
  destruct (lookup_split _ _ _ Hr) as (pre & post & -> & <- & _ & _).
  rewrite splice_middle.
  rewrite IH by (rewrite length_app; lia).
  rewrite !take_app_length, drop_app_length.
  replace (S (length pre)) with (length (pre ++ [r])) by (rewrite length_app; simpl; lia).
  replace (pre ++ r :: post) with ((pre ++ [r]) ++ post) by by rewrite <- app_assoc.
  rewrite take_app_length, drop_app_length.
  rewrite List.flat_map_app. simpl. by rewrite app_nil_r, <- !app_assoc.
Qed.

Lemma expandDown_flat_map scope part ix rs :
  expandDown scope part ix (length rs) rs
  = flat_map (fun r => map (replacePseudo scope part ix r) (nodes part)) rs.
Proof.
  rewrite expandDown_take by lia. by rewrite firstn_all, drop_all, app_nil_r.
Qed.

(** Induction on selector trees. *)
Lemma Node_ind' (P : Node -> Prop) :
  (forall t v a b af ns p, Forall P ns -> P (mkNode t v a b af ns p)) ->
  forall n, P n.
Proof.
  intros H. fix IH 1. intros [t v a b af ns p]. apply H.
  induction ns as [|c ns IHns]; constructor; [apply IH|exact IHns].
Qed.

Lemma clone_nodes n : nodes (clone n) = map clone (nodes n).
Proof. by destruct n. Qed.

Lemma clone_clone n : clone (clone n) = clone n.
Proof.
  induction n as [t v a b af ns p IH] using Node_ind'. simpl. f_equal.
  rewrite List.map_map. apply List.map_ext_Forall. exact IH.
Qed.

Lemma clone_set_nodes n ns : clone (set_nodes n ns) = set_nodes (clone n) (map clone ns).
Proof. by destruct n. Qed.

Lemma set_nodes_set_nodes n ns ns' : set_nodes (set_nodes n ns) ns' = set_nodes n ns'.
Proof. reflexivity. Qed.

Lemma map_splice {A B} (f : A -> B) l i k items :
  map f (splice l i k items) = splice (map f l) i k (map f items).
Proof.
  unfold splice. by rewrite !List.map_app, <- !fmap_take, <- !fmap_drop.
Qed.

(** *** Substitution at several positions *)

Lemma substituteFrom_app choices ns1 : forall i ns2,
  substituteFrom i choices (ns1 ++ ns2)
  = substituteFrom i choices ns1 ++ substituteFrom (i + length ns1) choices ns2.
Proof.
  induction ns1 as [|n ns1 IH]; intros i ns2; simpl.
  - by rewrite Nat.add_0_r.
  - rewrite IH, <- app_assoc. do 3 f_equal. lia.
Qed.

Lemma choiceAt_fresh i choices :
  List.Forall (fun c => fst c <> i) choices -> choiceAt i choices = None.
Proof.
  induction 1 as [|[ix frag] more Hc _ IH]; simpl; [reflexivity|].
  simpl in Hc. destruct (Nat.eqb_spec ix i); [contradiction|exact IH].
Qed.

Lemma substituteFrom_untouched choices ns : forall i,
  List.Forall (fun c => fst c < i) choices -> substituteFrom i choices ns = ns.
Proof.
  induction ns as [|n ns IH]; intros i Hc; simpl; [reflexivity|].
  rewrite choiceAt_fresh.
  - simpl. f_equal. apply IH. eapply List.Forall_impl; [|exact Hc]. simpl. lia.
  - eapply List.Forall_impl; [|exact Hc]. simpl. lia.
Qed.

Lemma substituteFrom_below ix frag choices ns : forall i,
  i + length ns <= ix ->
  substituteFrom i ((ix, frag) :: choices) ns = substituteFrom i choices ns.
Proof.
  induction ns as [|n ns IH]; intros i Hi; simpl in *; [reflexivity|].
  destruct (Nat.eqb_spec ix i); [lia|]. f_equal. apply IH. lia.
Qed.

(** Replacing the child at the greatest chosen position first, then the
    others, is the substitution at all of them. *)
Lemma substituteFrom_splice ix frag choices ns :
  ix < length ns ->
  List.Forall (fun c => fst c < ix) choices ->
  substituteFrom 0 choices (splice ns ix 1 frag)
  = substituteFrom 0 ((ix, frag) :: choices) ns.
Proof.
  intros Hix Hc.
  destruct (lookup_lt_is_Some_2 ns ix Hix) as [x Hx].
  destruct (lookup_split _ _ _ Hx) as (pre & post & -> & <- & _ & _).
  rewrite splice_middle.
  rewrite (substituteFrom_app _ pre 0 (frag ++ post)).
  rewrite (substituteFrom_app _ pre 0 (x :: post)).
  rewrite (substituteFrom_below _ _ _ pre) by lia.
  f_equal.
  rewrite (substituteFrom_untouched choices (frag ++ post)) by exact Hc.
  cbn [substituteFrom choiceAt]. rewrite Nat.eqb_refl. f_equal.
  rewrite substituteFrom_untouched; [reflexivity|].
  constructor; [simpl; lia|].
  eapply List.Forall_impl; [|exact Hc]. simpl. lia.
Qed.

Lemma choiceAt_clone i choices :
  choiceAt i (cloneChoices choices) = option_map (map clone) (choiceAt i choices).
Proof.
  induction choices as [|[ix frag] more IH]; simpl; [reflexivity|].
  by destruct (ix =? i).
Qed.

Lemma substituteFrom_clone choices ns : forall i,
  map clone (substituteFrom i choices ns)
  = substituteFrom i (cloneChoices choices) (map clone ns).
Proof.
  induction ns as [|n ns IH]; intros i; simpl; [reflexivity|].
  rewrite List.map_app, IH, choiceAt_clone. by destruct (choiceAt i choices).
Qed.

Lemma clone_substitute sel choices :
  clone (substitute sel choices)
  = substitute (clone sel) (cloneChoices choices).
Proof.
  unfold substitute. by rewrite clone_set_nodes, substituteFrom_clone, clone_nodes.
Qed.

Lemma substituteSeq_clone choices : forall r,
  descending choices ->
  List.Forall (fun c => fst c < length (nodes r)) choices ->
  clone (substituteSeq r choices) = clone (substitute r choices).
Proof.
  induction choices as [|[ix frag] more IH]; intros r Hd Hb.
  - unfold substitute. cbn [substituteSeq].
    rewrite substituteFrom_untouched by constructor.
    by rewrite set_nodes_same.
  - apply StronglySorted_inv in Hd as [Hd Hlt].
    apply List.Forall_cons_iff in Hb as [Hix Hb]. simpl in Hix.
    cbn [substituteSeq]. rewrite IH; [|exact Hd|].
    + rewrite !clone_substitute. unfold substitute, replaceWith.
      rewrite clone_set_nodes, clone_clone, set_nodes_set_nodes, !clone_nodes.
      rewrite nodes_set_nodes. f_equal.
      rewrite map_splice, List.map_map.
      rewrite (List.map_ext _ _ clone_clone).
      rewrite substituteFrom_splice; [reflexivity| by rewrite length_map|].
      unfold cloneChoices. rewrite List.Forall_map. simpl. exact Hlt.
    + unfold replaceWith. rewrite nodes_set_nodes.
      eapply List.Forall_impl; [|exact (List.Forall_and Hlt Hb)].
      intros c [H1 H2]. simpl in *. unfold splice.
      rewrite !length_app, length_take, clone_nodes, length_map. lia.
Qed.

(** *** Positions tracked through the rewriting of a representative *)

Lemma rewriteSelectorPart_at sel p item scope :
  at_ sel p = Some item ->
  nodes (rewriteSelectorPart sel p scope)
  = take p (nodes sel) ++ partRewritten scope item ++ drop (S p) (nodes sel).
Proof.
  intros Hp. destruct (lookup_split _ _ _ Hp) as (pre & post & Hns & <- & -> & ->).
  by rewrite (rewriteSelectorPart_middle _ _ _ _ _ Hns).
Qed.

Lemma index_after_at sel p item scope q :
  at_ sel p = Some item -> q <> p ->
  at_ (rewriteSelectorPart sel p scope)
      (index_after p sel (rewriteSelectorPart sel p scope) q)
  = at_ sel q.
Proof.
  intros Hp Hq. destruct (lookup_split _ _ _ Hp) as (pre & post & Hns & <- & _ & _).
  unfold index_after, at_.
  rewrite (rewriteSelectorPart_middle _ _ _ _ _ Hns), nodes_set_nodes, Hns.
  pose proof (partRewritten_length scope item) as Hlen.
  destruct (Nat.ltb_spec q (length pre)) as [Hlt|Hge].
  - by rewrite !lookup_app_l by lia.
  - rewrite !length_app. simpl.
    rewrite lookup_app_r by lia. rewrite lookup_app_r by lia.
    rewrite (lookup_app_r pre) by lia.
    replace (q - length pre) with (S (q - length pre - 1)) by lia. simpl.
    f_equal. lia.
Qed.

Lemma index_after_mono sel p item scope q1 q2 :
  at_ sel p = Some item -> q1 <> p -> q2 <> p -> q1 < q2 ->
  index_after p sel (rewriteSelectorPart sel p scope) q1
  < index_after p sel (rewriteSelectorPart sel p scope) q2.
Proof.
  intros Hp H1 H2 Hlt. destruct (lookup_split _ _ _ Hp) as (pre & post & Hns & <- & _ & _).
  unfold index_after.
  rewrite (rewriteSelectorPart_middle _ _ _ _ _ Hns), nodes_set_nodes, Hns.
  pose proof (partRewritten_length scope item) as Hlen.
  rewrite !length_app. simpl.
  destruct (Nat.ltb_spec q1 (length pre)), (Nat.ltb_spec q2 (length pre)); lia.
Qed.

Lemma localGlobal_special sel q : In q (localGlobal sel) -> isSpecialAt sel q = true.
Proof. by intros [_ H]%List.filter_In. Qed.

Lemma scopable_not_special sel q : In q (scopable sel) -> isSpecialAt sel q = false.
Proof. intros [_ H]%List.filter_In. by destruct (isSpecialAt sel q). Qed.

Lemma firstPart_In sel f : firstPart sel = Some f -> In f (scopable sel).
Proof.
  unfold firstPart. destruct (scopable sel); [discriminate|].
  intros [= ->]. by left.
Qed.

Lemma lastPart_In sel l : lastPart sel = Some l -> In l (scopable sel).
Proof.
  unfold lastPart. destruct (scopable sel) as [|f rest]; [discriminate|].
  simpl. intros [pre ->]%last_Some. right. apply List.in_or_app. right. by left.
Qed.

Lemma localGlobal_sorted sel : StronglySorted lt (localGlobal sel).
Proof. apply filter_sorted, getCompound_from_sorted. Qed.

Lemma at_Some_of_bound sel q : q < length (nodes sel) -> exists item, at_ sel q = Some item.
Proof. intros H. by apply lookup_lt_is_Some_2. Qed.

Section Tracking.
Variables (sel : Node) (scope : string).

Lemma trackFirst_at q :
  (forall f, firstPart sel = Some f -> q <> f) ->
  at_ (scopeFirst sel scope) (trackFirst sel scope q) = at_ sel q.
Proof.
  unfold trackFirst, scopeFirst. intros Hq.
  destruct (firstPart sel) as [f|] eqn:Hf; [|reflexivity].
  destruct (at_Some_of_bound sel f (firstPart_bound _ _ Hf)) as [item Hitem].
  eapply index_after_at; eauto.
Qed.

Lemma trackFirst_mono q1 q2 :
  (forall f, firstPart sel = Some f -> q1 <> f /\ q2 <> f) -> q1 < q2 ->
  trackFirst sel scope q1 < trackFirst sel scope q2.
Proof.
  unfold trackFirst, scopeFirst. intros Hq Hlt.
  destruct (firstPart sel) as [f|] eqn:Hf; [|exact Hlt].
  destruct (at_Some_of_bound sel f (firstPart_bound _ _ Hf)) as [item Hitem].
  destruct (Hq f eq_refl). eapply index_after_mono; eauto.
Qed.

Lemma lastPart_tracked l :
  lastPart sel = Some l ->
  exists item, at_ (scopeFirst sel scope) (trackFirst sel scope l) = Some item
               /\ at_ sel l = Some item.
Proof.
  intros Hl.
  destruct (at_Some_of_bound sel l) as [item Hitem].
  { apply scopable_bounds, lastPart_In, Hl. }
  exists item. split; [|exact Hitem]. rewrite trackFirst_at; [exact Hitem|].
  intros f Hf. pose proof (firstPart_lastPart _ _ _ Hf Hl). lia.
Qed.

Lemma trackLast_at q :
  In q (localGlobal sel) ->
  at_ (scopeLast sel scope) (trackLast sel scope q) = at_ sel q.
Proof.
  intros Hq. pose proof (localGlobal_special _ _ Hq) as Hsp.
  assert (Hnot : forall p, In p (scopable sel) -> q <> p).
  { intros p Hp%scopable_not_special ->. congruence. }
  assert (H1 : at_ (scopeFirst sel scope) (trackFirst sel scope q) = at_ sel q).
  { apply trackFirst_at. intros f Hf%firstPart_In. by apply Hnot. }
  unfold trackLast, scopeLast.
  destruct (lastPart sel) as [l|] eqn:Hl; [|exact H1].
  destruct (lastPart_tracked l Hl) as (item & Hitem & _).
  rewrite (index_after_at _ _ _ _ _ Hitem); [exact H1|].
  assert (q <> l) by (apply Hnot, lastPart_In, Hl).
  destruct (Nat.lt_total q l) as [Hlt|[->|Hgt]]; [|done|].
  - enough (trackFirst sel scope q < trackFirst sel scope l) by lia.
    apply trackFirst_mono; [|exact Hlt].
    intros f Hf. pose proof (firstPart_lastPart _ _ _ Hf Hl).
    split; [apply Hnot, firstPart_In, Hf|lia].
  - enough (trackFirst sel scope l < trackFirst sel scope q) by lia.
    apply trackFirst_mono; [|exact Hgt].
    intros f Hf. pose proof (firstPart_lastPart _ _ _ Hf Hl).
    split; [lia|apply Hnot, firstPart_In, Hf].
Qed.

Lemma trackLast_mono q1 q2 :
  In q1 (localGlobal sel) -> In q2 (localGlobal sel) -> q1 < q2 ->
  trackLast sel scope q1 < trackLast sel scope q2.
Proof.
  intros Hq1 Hq2 Hlt.
  assert (Hnot : forall q p, In q (localGlobal sel) -> In p (scopable sel) -> q <> p).
  { intros q p Hq%localGlobal_special Hp%scopable_not_special ->. congruence. }
  assert (Hfirst : forall q q', In q (localGlobal sel) -> In q' (localGlobal sel) ->
            q < q' -> trackFirst sel scope q < trackFirst sel scope q').
  { intros q q' Hq Hq' Hl. apply trackFirst_mono; [|exact Hl].
    intros f Hf%firstPart_In. split; by apply Hnot. }
  unfold trackLast, scopeLast.
  destruct (lastPart sel) as [l|] eqn:Hl; [|by apply Hfirst].
  destruct (lastPart_tracked l Hl) as (item & Hitem & _).
  assert (Hne : forall q, In q (localGlobal sel) ->
            trackFirst sel scope q <> trackFirst sel scope l).
  { intros q Hq. assert (q <> l) by (apply Hnot; [exact Hq|apply lastPart_In, Hl]).
    destruct (Nat.lt_total q l) as [Hlt'|[->|Hgt]]; [|done|].
    - enough (trackFirst sel scope q < trackFirst sel scope l) by lia.
      apply trackFirst_mono; [|exact Hlt'].
      intros f Hf. pose proof (firstPart_lastPart _ _ _ Hf Hl).
      split; [apply Hnot; [exact Hq|apply firstPart_In, Hf]|lia].
    - enough (trackFirst sel scope l < trackFirst sel scope q) by lia.
      apply trackFirst_mono; [|exact Hgt].
      intros f Hf. pose proof (firstPart_lastPart _ _ _ Hf Hl).
      split; [lia|apply Hnot; [exact Hq|apply firstPart_In, Hf]]. }
  eapply index_after_mono; eauto.
Qed.

End Tracking.

Lemma flat_map_flat_map {A B C} (f : A -> list B) (g : B -> list C) l :
  flat_map g (flat_map f l) = flat_map (fun x => flat_map g (f x)) l.
Proof.
  induction l as [|x l IH]; simpl; [reflexivity|].
  by rewrite List.flat_map_app, IH.
Qed.

Lemma flat_map_map {A B C} (f : A -> B) (g : B -> list C) l :
  flat_map g (map f l) = flat_map (fun x => g (f x)) l.
Proof. induction l as [|x l IH]; simpl; [reflexivity|]. by rewrite IH. Qed.

Lemma map_flat_map {A B C} (f : A -> list B) (g : B -> C) l :
  map g (flat_map f l) = flat_map (fun x => map g (f x)) l.
Proof.
  induction l as [|x l IH]; simpl; [reflexivity|].
  by rewrite List.map_app, IH.
Qed.

Lemma flat_map_length_const {A B} (f : A -> list B) l k :
  (forall x, length (f x) = k) -> length (flat_map f l) = length l * k.
Proof.
  intros Hf. induction l as [|x l IH]; simpl; [reflexivity|].
  rewrite length_app, IH, Hf. lia.
Qed.

Lemma replacePseudo_fragment scope part ix r childSel :
  isSpecialPseudo part = true ->
  replacePseudo scope part ix r childSel
  = replaceWith (clone r) ix (fragment scope part childSel).
Proof.
  unfold isSpecialPseudo, replacePseudo, fragment.
  intros [_ Hv]%andb_true_iff.
  destruct (String.eqb (value part) "::global"); [reflexivity|].
  simpl in Hv. by rewrite Hv.
Qed.

Lemma expandAll_choices scope sel popped : forall rs,
  specialAt sel popped ->
  expandAll scope sel popped rs
  = flat_map (fun r => map (substituteSeq r) (allChoices scope sel popped)) rs.
Proof.
  induction popped as [|ix more IH]; intros rs Hsp.
  - simpl. induction rs as [|r rs IHrs]; simpl; [reflexivity|]. by rewrite <- IHrs.
  - apply List.Forall_cons_iff in Hsp as [Hix Hsp].
    unfold isSpecialAt in Hix. cbn [expandAll allChoices].
    destruct (at_ sel ix) as [part|]; [|discriminate].
    rewrite expandDown_flat_map, (IH _ Hsp), flat_map_flat_map.
    apply List.flat_map_ext. intros r.
    rewrite flat_map_map, map_flat_map.
    apply List.flat_map_ext. intros childSel.
    rewrite List.map_map. apply List.map_ext. intros ch.
    cbn [substituteSeq]. by rewrite replacePseudo_fragment.
Qed.

Lemma allChoices_fst scope sel popped ch :
  specialAt sel popped -> In ch (allChoices scope sel popped) -> map fst ch = popped.
Proof.
  revert ch. induction popped as [|ix more IH]; intros ch Hsp Hch.
  - simpl in Hch. destruct Hch as [<-|[]]. reflexivity.
  - apply List.Forall_cons_iff in Hsp as [Hix Hsp].
    unfold isSpecialAt in Hix. cbn [allChoices] in Hch.
    destruct (at_ sel ix) as [part|]; [|discriminate].
    apply List.in_flat_map in Hch as (childSel & _ & Hch).
    apply List.in_map_iff in Hch as (ch' & <- & Hch').
    simpl. f_equal. by apply IH.
Qed.

Lemma allChoices_length scope sel popped :
  specialAt sel popped ->
  length (allChoices scope sel popped)
  = product (map (alternatives sel) popped).
Proof.
  induction popped as [|ix more IH]; intros Hsp; [reflexivity|].
  apply List.Forall_cons_iff in Hsp as [Hix Hsp].
  unfold isSpecialAt in Hix. unfold product. cbn [allChoices map fold_right]. unfold alternatives at 1.
  destruct (at_ sel ix) as [part|]; [|discriminate].
  rewrite (flat_map_length_const _ _ (length (allChoices scope sel more))).
  - rewrite IH by exact Hsp. reflexivity.
  - intros x. by rewrite length_map.
Qed.

Lemma product_rev l : product (rev l) = product l.
Proof.
  unfold product.
  induction l as [|x l IH]; [reflexivity|].
  simpl. rewrite fold_right_app. simpl. rewrite <- IH.
  generalize (rev l). intros l'. induction l' as [|y l' IH']; simpl; [lia|].
  rewrite IH'. lia.
Qed.

Lemma sorted_map_rev (f : nat -> nat) l :
  StronglySorted lt l ->
  (forall q1 q2, In q1 l -> In q2 l -> q1 < q2 -> f q1 < f q2) ->
  StronglySorted (fun a b => b < a) (rev (map f l)).
Proof.
  intros Hs Hf. induction Hs as [|a l Hl IH Ha]; simpl; [constructor|].
  assert (Hrest : StronglySorted (fun a b => b < a) (rev (map f l))).
  { apply IH. intros q1 q2 H1 H2. apply Hf; by right. }
  clear IH. rewrite List.Forall_forall in Ha.
  assert (Hall : List.Forall (fun b => f a < b) (rev (map f l))).
  { apply List.Forall_forall. intros b Hb%List.in_rev.
    apply List.in_map_iff in Hb as (q & <- & Hq).
    apply Hf; [by left|by right|by apply Ha]. }
  revert Hrest Hall. generalize (rev (map f l)). intros l'.
  induction l' as [|b l' IH]; intros Hrest Hall; simpl.
  - repeat constructor.
  - apply StronglySorted_inv in Hrest as [Hrest Hb].
    apply List.Forall_cons_iff in Hall as [Hab Hall].
    constructor; [by apply IH|].
    apply List.Forall_app. split; [exact Hb|]. by constructor.
Qed.

Lemma descending_of_fst ch positions :
  map fst ch = positions ->
  StronglySorted (fun a b => b < a) positions -> descending ch.
Proof.
  intros <-. unfold descending.
  induction ch as [|c ch IH]; simpl; [constructor|].
  intros [Hs Hc]%StronglySorted_inv. constructor; [by apply IH|].
  by rewrite List.Forall_map in Hc.
Qed.
(** ** The [::global] / [::local] expansion *)

Lemma alternatives_tracked sel scope q :
  In q (localGlobal sel) ->
  alternatives (scopeLast sel scope) (trackLast sel scope q) = alternatives sel q.
Proof. intros Hq. unfold alternatives. by rewrite trackLast_at. Qed.

Lemma tracked_special sel scope :
  specialAt (scopeLast sel scope) (rev (map (trackLast sel scope) (localGlobal sel))).
Proof.
  apply List.Forall_rev, List.Forall_map, List.Forall_forall. intros q Hq.
  unfold isSpecialAt. rewrite trackLast_at by exact Hq.
  by apply localGlobal_special.
Qed.

Lemma tracked_descending sel scope :
  StronglySorted (fun a b => b < a) (rev (map (trackLast sel scope) (localGlobal sel))).
Proof.
  apply sorted_map_rev; [apply localGlobal_sorted|].
  intros q1 q2. apply trackLast_mono.
Qed.

Lemma special_bound sel ix : isSpecialAt sel ix = true -> ix < length (nodes sel).
Proof.
  unfold isSpecialAt, at_. destruct (nodes sel !! ix) eqn:H; [|discriminate].
  intros _. by eapply lookup_lt_Some.
Qed.

Lemma clone_substitute_clone sel choices :
  clone (substitute (clone sel) choices) = clone (substitute sel choices).
Proof.
  rewrite !clone_substitute, clone_clone. reflexivity.
Qed.

Lemma expansion_outputs scope sel2 positions :
  specialAt sel2 positions ->
  StronglySorted (fun a b => b < a) positions ->
  map clone (expandAll scope sel2 positions [clone sel2])
  = map (fun choices => clone (substitute sel2 choices)) (allChoices scope sel2 positions).
Proof.
  intros Hsp Hdesc. rewrite expandAll_choices by exact Hsp.
  simpl. rewrite app_nil_r, List.map_map.
  apply List.map_ext_in. intros ch Hch.
  pose proof (allChoices_fst _ _ _ _ Hsp Hch) as Hfst.
  rewrite substituteSeq_clone.
  - apply clone_substitute_clone.
  - by eapply descending_of_fst.
  - rewrite clone_nodes, length_map.
    apply List.Forall_forall. intros c Hc.
    apply special_bound. unfold specialAt in Hsp. rewrite List.Forall_forall in Hsp.
    apply Hsp. rewrite <- Hfst. by apply List.in_map.
Qed.

Lemma expansion_count scope sel positions :
  specialAt sel positions ->
  length (expandAll scope sel positions [clone sel])
  = product (map (alternatives sel) positions).
Proof.
  intros Hsp. rewrite expandAll_choices by exact Hsp.
  simpl. rewrite app_nil_r, length_map. by apply allChoices_length.
Qed.


(** Serialisation does not read the markers. *)
Lemma toString_unfold t v a b af ns p :
  toString (mkNode t v a b af ns p) =
  let children := map toString ns in
  match t with
  | Selector | Root => String.concat (match t with Root => "," | _ => "" end) children
  | Pseudo =>
      b +:+ v +:+ (match ns with
                   | [] => ""
                   | _ => "(" +:+ String.concat "," children +:+ ")"
                   end) +:+ af
  | Class => b +:+ "." +:+ v +:+ af
  | Id => b +:+ "#" +:+ v +:+ af
  | Attribute => b +:+ "[" +:+ a +:+ "]" +:+ af
  | _ => b +:+ v +:+ af
  end.
Proof.
  cbn [toString].
  assert (H : (fix all (l : list Node) : list string :=
                 match l with
                 | [] => []
                 | c :: l' => toString c :: all l'
                 end) ns = map toString ns).
  { induction ns as [|c ns IH]; [reflexivity|]. simpl. by rewrite IH. }
  by rewrite H.
Qed.

Lemma toString_clone n : toString (clone n) = toString n.
Proof.
  induction n as [t v a b af ns p IH] using Node_ind'.
  cbn [clone]. rewrite !toString_unfold.
  assert (H : map toString (map clone ns) = map toString ns).
  { rewrite List.map_map. by apply List.map_ext_Forall. }
  cbv zeta. rewrite H. destruct ns; reflexivity.
Qed.

Lemma toString_of_clones (l l' : list Node) :
  map clone l = map clone l' -> map toString l = map toString l'.
Proof.
  intros H.
  rewrite <- (List.map_ext _ _ toString_clone l), <- (List.map_ext _ _ toString_clone l').
  by rewrite <- !(List.map_map clone toString), H.
Qed.
(** ** The claims about the selector rewriting *)

(** C1 (as amended).  When the representatives of a selector include
    [::global] or [::local] pseudos, [rewriteSelector] hands [replaceWith]
    exactly N replacements, N the product of the numbers of alternatives of
    these pseudos.  The replacements are, as trees without markers and so as
    texts, the selector with its first and last other representatives scoped
    and with every such pseudo replaced by the nodes of one of its
    alternatives ([::global]) or by the scope-host attribute, a space and
    these nodes ([::local]), one replacement for each combination of
    alternatives.  So [div ::global(a, b) span] gives [div[s] a span[s]] and
    [div[s] b span[s]], and [x ::local(p, q) y] gives [x[s] [s-host] p y[s]]
    and [x[s] [s-host] q y[s]], [b] and [q] with the space they have after
    the comma. *)
Theorem global_local_expansion :
  (forall (sel : Node) (scope : string),
     localGlobal sel <> [] ->
     let sel2 := scopeLast sel scope in
     let positions := rev (map (trackLast sel scope) (localGlobal sel)) in
     exists replacements,
       rewriteSelector sel scope = (sel2, Some replacements)
       /\ inRoot (rewriteSelector sel scope) = replacements
       /\ length replacements = product (map (alternatives sel) (localGlobal sel))
       /\ (forall q, In q (localGlobal sel) ->
             at_ sel2 (trackLast sel scope q) = at_ sel q)
       /\ map clone replacements
          = map (fun choices => clone (substitute sel2 choices))
                (allChoices scope sel2 positions)
       /\ map toString replacements
          = map (fun choices => toString (substitute sel2 choices))
                (allChoices scope sel2 positions))
  /\ (forall scope,
        processRoot ClassScopeAbsent scope [divGlobalSpan]
        = [selector [tag "div"; scopeElement scope; combinator " "; tag "a";
                     combinator " "; tag "span"; scopeElement scope];
           selector [tag "div"; scopeElement scope; combinator " ";
                     set_before (tag "b") " ";
                     combinator " "; tag "span"; scopeElement scope]])
  /\ (forall scope,
        processRoot ClassScopeAbsent scope [xLocalY]
        = [selector [tag "x"; scopeElement scope; combinator " "; scopeHost scope;
                     str " "; tag "p"; combinator " "; tag "y"; scopeElement scope];
           selector [tag "x"; scopeElement scope; combinator " "; scopeHost scope;
                     str " "; set_before (tag "q") " "; combinator " "; tag "y";
                     scopeElement scope]])
  /\ map toString (processRoot ClassScopeAbsent "s" [divGlobalSpan; xLocalY])
     = ["div[s] a span[s]"; "div[s]  b span[s]";
        "x[s] [s-host] p y[s]"; "x[s] [s-host]  q y[s]"].
Proof.
  split; [|split; [|split]; try intros scope; reflexivity].
  intros sel scope Hlg sel2 positions.
  exists (expandAll scope sel2 positions [clone sel2]).
  assert (Hrw : rewriteSelector sel scope
                = (sel2, Some (expandAll scope sel2 positions [clone sel2]))).
  { unfold rewriteSelector. fold sel2.
    destruct (localGlobal sel) eqn:E; [contradiction|reflexivity]. }
  split; [exact Hrw|]. split; [by rewrite Hrw|].
  split.
  { unfold positions, sel2. rewrite expansion_count by apply tracked_special.
    rewrite List.map_rev, product_rev, List.map_map.
    f_equal. apply List.map_ext_in. intros q Hq. by apply alternatives_tracked. }
  split; [intros q Hq; by apply trackLast_at|].
  assert (Hout : map clone (expandAll scope sel2 positions [clone sel2])
                 = map (fun choices => clone (substitute sel2 choices))
                       (allChoices scope sel2 positions))
    by (apply expansion_outputs; [apply tracked_special|apply tracked_descending]).
  split; [exact Hout|].
  rewrite <- (List.map_map (substitute sel2) clone) in Hout.
  rewrite <- (List.map_map (substitute sel2) toString).
  by apply toString_of_clones.
Qed.

Lemma global_local_expansion_witness :
  localGlobal divGlobalSpan <> []
  /\ exists replacements,
       inRoot (rewriteSelector divGlobalSpan "s") = replacements
       /\ length replacements = 2.
Proof.
  assert (H : localGlobal divGlobalSpan <> []) by (vm_compute; discriminate).
  split; [exact H|].
  destruct (proj1 global_local_expansion divGlobalSpan "s" H)
    as (replacements & _ & Hroot & Hlen & _).
  exists replacements. split; [exact Hroot|exact Hlen].
Defined.

(** C1 as stated fails: the outputs for [div ::global(a, b) span] carry the
    scope attribute on [div] and on [span]; they are not [div a span] and
    [div b span].  And the copy that class-name scoping makes of
    [.foo ::global(a,b)] has no parent: [replaceWith] does nothing on it and
    it keeps its pseudo. *)
Lemma global_expansion_keeps_scoping :
  map toString (processRoot ClassScopeAbsent "s" [divGlobalSpan])
  = ["div[s] a span[s]"; "div[s]  b span[s]"]
  /\ (forall o, In o (processRoot ClassScopeAbsent "s" [divGlobalSpan]) ->
        In (scopeElement "s") (nodes o))
  /\ head (map toString (processRoot ClassScopeAbsent "s" [divGlobalSpan]))
     <> Some "div a span"
  /\ map toString
       (processRoot
          (ClassScopeObject (mkClassScopeOptions None (Some "_s") None None false)) "s"
          [selector [className "foo"; combinator " ";
                     pseudo "::global" [selector [tag "a"]; selector [tag "b"]]]])
     = ["[s].foo_s ::global(a,b)"; "[s].foo a"; "[s].foo b"].
Proof.
  split; [reflexivity|]. split; [|split; [vm_compute; discriminate|reflexivity]].
  intros o Ho. vm_compute in Ho.
  destruct Ho as [<-|[<-|[]]]; vm_compute; tauto.
Qed.
(** ** First and last representatives *)

Lemma lastPart_firstPart sel l :
  lastPart sel = Some l -> exists f, firstPart sel = Some f.
Proof.
  unfold lastPart, firstPart. destruct (scopable sel) as [|f rest]; [discriminate|].
  intros _. by exists f.
Qed.

Lemma split_one {A} (l : list A) i :
  i < length l -> exists pre x post, l = pre ++ x :: post /\ length pre = i.
Proof.
  intros Hi. destruct (lookup_lt_is_Some_2 l i Hi) as [x Hx].
  destruct (lookup_split _ _ _ Hx) as (pre & post & Hl & Hlen & _).
  by exists pre, x, post.
Qed.

Lemma app_same_length {A} (a b c d : list A) :
  a ++ b = c ++ d -> length a = length c -> a = c /\ b = d.
Proof. intros H Hl. by apply app_inj_1. Qed.

(** The first representative is rewritten where it stands; what stands
    before it is kept. *)
Lemma first_rewritten sel scope pre item post :
  nodes sel = pre ++ item :: post -> firstPart sel = Some (length pre) ->
  exists post', nodes (fst (rewriteSelector sel scope))
                = pre ++ partRewritten scope item ++ post'.
Proof.
  intros Hns Hf. destruct (lastPart sel) as [l|] eqn:Hl.
  - destruct (firstPart_lastPart _ _ _ Hf Hl) as [Hlt Hlen].
    destruct (split_two (nodes sel) (length pre) l (conj Hlt Hlen))
      as (pre' & itf & mid & itl & post' & Hns' & Hlen' & Hl').
    rewrite Hns' in Hns. destruct (app_same_length _ _ _ _ Hns Hlen') as [-> Heq].
    injection Heq as -> Hpost.
    rewrite (rewriteSelector_two _ _ _ _ _ _ _ Hns'); [|exact Hf|by rewrite Hl; f_equal].
    eexists. rewrite nodes_set_nodes. reflexivity.
  - rewrite (rewriteSelector_one _ _ _ _ _ Hns Hf Hl). by exists post.
Qed.

(** The last representative is rewritten where it stands; what stands
    behind it is kept. *)
Lemma last_rewritten sel scope pre item post :
  nodes sel = pre ++ item :: post -> lastPart sel = Some (length pre) ->
  exists pre', nodes (fst (rewriteSelector sel scope))
               = pre' ++ partRewritten scope item ++ post.
Proof.
  intros Hns Hl. destruct (lastPart_firstPart _ _ Hl) as [f Hf].
  destruct (firstPart_lastPart _ _ _ Hf Hl) as [Hlt Hlen].
  destruct (split_two (nodes sel) f (length pre) (conj Hlt Hlen))
    as (pre' & itf & mid & itl & post' & Hns' & Hlen' & Hl').
  rewrite Hns' in Hns.
  assert (Hcut : (pre' ++ itf :: mid) ++ itl :: post' = pre ++ item :: post)
    by by rewrite <- app_assoc.
  destruct (app_same_length _ _ _ _ Hcut) as [Hpre Heq].
  { rewrite length_app. simpl. lia. }
  injection Heq as -> ->.
  subst f. rewrite (rewriteSelector_two _ _ _ _ _ _ _ Hns'); [|exact Hf|].
  - exists (pre' ++ partRewritten scope itf ++ mid).
    rewrite nodes_set_nodes, <- !app_assoc. reflexivity.
  - rewrite Hl. f_equal. rewrite <- Hpre, length_app. simpl. lia.
Qed.

(** C2 (as amended).  The default compound scoping changes the first and
    the last representative (those left after [::global] and [::local] are
    set aside) and nothing else, so every compound in between is kept; a
    representative that is not finalized gets the scope attribute behind it
    when it is a tag or [*] and before it when it is a class, an id or an
    attribute; a finalized one is kept as it is. *)
Theorem first_last_scoping (sel : Node) (scope : string) :
  (firstPart sel = None -> fst (rewriteSelector sel scope) = sel)
  /\ (forall f, firstPart sel = Some f -> lastPart sel = None ->
        exists pre item post,
          nodes sel = pre ++ item :: post /\ length pre = f
          /\ fst (rewriteSelector sel scope)
             = set_nodes sel (pre ++ partRewritten scope item ++ post))
  /\ (forall f l, firstPart sel = Some f -> lastPart sel = Some l ->
        exists pre itf mid itl post,
          nodes sel = pre ++ itf :: mid ++ itl :: post
          /\ length pre = f /\ f + 1 + length mid = l
          /\ fst (rewriteSelector sel scope)
             = set_nodes sel (pre ++ partRewritten scope itf ++ mid
                                  ++ partRewritten scope itl ++ post))
  /\ (forall item, processed item = false ->
        type item = Tag \/ type item = Universal ->
        partRewritten scope item
        = [set_after item ""; set_after (scopeElement scope) (after item)])
  /\ (forall item, processed item = false ->
        type item = Class \/ type item = Id \/ type item = Attribute ->
        partRewritten scope item
        = [set_before (scopeElement scope) (before item); set_before item ""])
  /\ (forall item, processed item = true -> partRewritten scope item = [item])
  /\ processRoot ClassScopeAbsent scope [abc]
     = [selector [scopeElement scope; className "a"; combinator " "; className "b";
                  child; scopeElement scope; className "c"]]
  /\ processRoot ClassScopeAbsent scope [selector [tag "div"]; selector [className "foo"]]
     = [selector [tag "div"; scopeElement scope];
        selector [scopeElement scope; className "foo"]]
  /\ map toString (processRoot ClassScopeAbsent "s" [abc]) = ["[s].a .b > [s].c"]
  /\ map toString
       (processRoot ClassScopeAbsent "s"
          [selector [tag "div"]; selector [className "foo"];
           selector [universal; child; idName "x"]])
     = ["div[s]"; "[s].foo"; "*[s] > [s]#x"].
Proof.
  repeat apply conj; try reflexivity.
  - intros Hf. rewrite rewriteSelector_fst. unfold scopeLast, scopeFirst.
    by rewrite (lastPart_None_firstPart _ Hf), Hf.
  - intros f Hf Hl.
    destruct (split_one (nodes sel) f (firstPart_bound _ _ Hf))
      as (pre & item & post & Hns & Hlen).
    exists pre, item, post. subst f. repeat split; [exact Hns|].
    by apply rewriteSelector_one.
  - intros f l Hf Hl.
    destruct (split_two (nodes sel) f l (firstPart_lastPart _ _ _ Hf Hl))
      as (pre & itf & mid & itl & post & Hns & Hlen & Hmid).
    exists pre, itf, mid, itl, post. subst f. repeat split; try done.
    apply rewriteSelector_two; [exact Hns|exact Hf|by rewrite Hl, Hmid].
  - intros item Hp [Ht|Ht]; unfold partRewritten; by rewrite Hp, Ht.
  - intros item Hp [Ht|[Ht|Ht]]; unfold partRewritten; by rewrite Hp, Ht.
  - intros item Hp. unfold partRewritten. by rewrite Hp.
Qed.

Lemma first_last_scoping_witness :
  firstPart abc = Some 0 /\ lastPart abc = Some 4
  /\ exists pre itf mid itl post,
       nodes abc = pre ++ itf :: mid ++ itl :: post
       /\ length pre = 0 /\ 0 + 1 + length mid = 4
       /\ fst (rewriteSelector abc "s")
          = set_nodes abc (pre ++ partRewritten "s" itf ++ mid
                               ++ partRewritten "s" itl ++ post).
Proof.
  split; [reflexivity|]. split; [reflexivity|].
  apply (proj1 (proj2 (proj2 (first_last_scoping abc "s"))) 0 4);
    reflexivity.
Defined.

(** C2 as stated fails: after the ref-binding rewrite of [ref:foo] the only
    representative is an attribute, first in its selector, and the default
    compound scoping inserts no scope attribute before it. *)
Lemma finalized_attribute_not_scoped :
  let sel := rewriteRefs refFoo "s" in
  startsWithSlotted sel = false
  /\ firstPart sel = Some 0
  /\ at_ sel 0 = Some (refAttribute (pseudo ":foo" []) "s")
  /\ type (refAttribute (pseudo ":foo" []) "s") = Attribute
  /\ fst (rewriteSelector sel "s") = sel
  /\ map toString (processRoot ClassScopeAbsent "s" [refFoo]) = ["[ref-foo-s]"].
Proof. repeat split. Qed.

(** ** [::slotted] *)

Lemma rewriteRefs_type sel scope : type (rewriteRefs sel scope) = type sel.
Proof. by destruct sel. Qed.

Lemma rewriteRefs_value sel scope : value (rewriteRefs sel scope) = value sel.
Proof. by destruct sel. Qed.

Lemma startsWithSlotted_rewriteRefs sel scope :
  startsWithSlotted (rewriteRefs sel scope) = startsWithSlotted sel.
Proof.
  unfold startsWithSlotted. rewrite rewriteRefs_nodes, nodes_set_nodes.
  destruct (nodes sel) as [|node rest]; [reflexivity|].
  rewrite refsWalk_cons.
  destruct (is_type Tag node) eqn:Ht.
  - assert (Hp : is_type Pseudo node = false).
    { unfold is_type in *. by destruct (type node). }
    destruct (String.eqb (value node) "ref"); [|by rewrite Hp].
    destruct rest as [|next rest]; [by rewrite Hp|].
    destruct (is_type Pseudo next); by rewrite Hp.
  - unfold is_type. by rewrite rewriteRefs_type, rewriteRefs_value.
Qed.

Lemma rewriteSlotted_fst sel scope :
  fst (rewriteSlotted sel scope) = startsWithSlotted sel.
Proof.
  unfold rewriteSlotted, startsWithSlotted.
  destruct (nodes sel) as [|node rest]; [reflexivity|].
  by destruct (is_type Pseudo node && String.eqb (value node) "::slotted").
Qed.

(** C5.  [rewriteSlotted] rewrites a selector exactly when its first node
    is a [::slotted] pseudo: the pseudo gives way to [slot], [[slotted]],
    the scope attribute, the combinator [>] and its own arguments, and
    [handleSelector] then applies no compound scoping; any other selector,
    also one with [::slotted] further on, is left as it is by this step and
    goes on to [rewriteSelector]. *)
Theorem slotted_rewrite (sel : Node) (scope : string) :
  (forall node rest,
     nodes sel = node :: rest ->
     is_type Pseudo node = true -> value node = "::slotted" ->
     rewriteSlotted sel scope
     = (true, set_nodes sel (tag "slot" :: attr "slotted" :: scopeElement scope
                               :: combinator " > " :: nodes node ++ rest)))
  /\ (startsWithSlotted sel = false -> rewriteSlotted sel scope = (false, sel))
  /\ (startsWithSlotted sel = true ->
        handleSelector scope sel
        = (snd (rewriteSlotted (rewriteRefs sel scope) scope), None))
  /\ (startsWithSlotted sel = false ->
        handleSelector scope sel = rewriteSelector (rewriteRefs sel scope) scope)
  /\ processRoot ClassScopeAbsent scope
       [selector [pseudo "::slotted" [selector [className "x"]]]]
     = [selector [tag "slot"; attr "slotted"; scopeElement scope; combinator " > ";
                  selector [className "x"]]]
  /\ map toString
       (processRoot ClassScopeAbsent "s"
          [selector [pseudo "::slotted" [selector [className "x"]]]])
     = ["slot[slotted][s] > .x"].
Proof.
  repeat apply conj; try reflexivity.
  - intros node rest Hns Ht Hv. unfold rewriteSlotted, replaceWith.
    rewrite Hns, Ht, Hv. simpl. unfold splice. simpl. by rewrite drop_0.
  - unfold rewriteSlotted, startsWithSlotted.
    destruct (nodes sel) as [|node rest]; [reflexivity|]. by intros ->.
  - intros H. unfold handleSelector.
    pose proof (rewriteSlotted_fst (rewriteRefs sel scope) scope) as Hfst.
    rewrite startsWithSlotted_rewriteRefs, H in Hfst.
    destruct (rewriteSlotted (rewriteRefs sel scope) scope) as [b sel'].
    simpl in *. by subst b.
  - intros H. unfold handleSelector.
    pose proof (rewriteSlotted_fst (rewriteRefs sel scope) scope) as Hfst.
    rewrite startsWithSlotted_rewriteRefs, H in Hfst.
    destruct (rewriteSlotted (rewriteRefs sel scope) scope) as [b sel'].
    simpl in *. by subst b.
Qed.

Lemma slotted_rewrite_witness :
  rewriteSlotted (selector [pseudo "::slotted" [selector [className "x"]]; className "y"]) "s"
  = (true, selector [tag "slot"; attr "slotted"; scopeElement "s"; combinator " > ";
                     selector [className "x"]; className "y"]).
Proof.
  exact (proj1 (slotted_rewrite
                  (selector [pseudo "::slotted" [selector [className "x"]]; className "y"])
                  "s")
               (pseudo "::slotted" [selector [className "x"]]) [className "y"]
               eq_refl eq_refl eq_refl).
Defined.

(** ** [:host] and [:host-context] *)

(** C6.  A first or last representative that is a [:host] pseudo, not
    finalized, gives way to the scope-host attribute followed by its own
    arguments; a [:host-context] pseudo gives way to its arguments, a space
    literal and the scope-host attribute.  So [:host] becomes the single
    selector [[s-host]] and [:host-context(.a)] becomes [.a [s-host]]. *)
Theorem host_rewrite (sel : Node) (scope : string) (pre post : list Node) (item : Node) :
  nodes sel = pre ++ item :: post ->
  processed item = false -> type item = Pseudo ->
  (value item = ":host" ->
     partRewritten scope item = scopeHost scope :: nodes item
     /\ (firstPart sel = Some (length pre) ->
           exists post', nodes (fst (rewriteSelector sel scope))
                         = pre ++ (scopeHost scope :: nodes item) ++ post')
     /\ (lastPart sel = Some (length pre) ->
           exists pre', nodes (fst (rewriteSelector sel scope))
                        = pre' ++ (scopeHost scope :: nodes item) ++ post))
  /\ (value item = ":host-context" ->
        partRewritten scope item = nodes item ++ [str " "; scopeHost scope]
        /\ (firstPart sel = Some (length pre) ->
              exists post', nodes (fst (rewriteSelector sel scope))
                            = pre ++ (nodes item ++ [str " "; scopeHost scope]) ++ post')
        /\ (lastPart sel = Some (length pre) ->
              exists pre', nodes (fst (rewriteSelector sel scope))
                           = pre' ++ (nodes item ++ [str " "; scopeHost scope]) ++ post))
  /\ processRoot ClassScopeAbsent scope [selector [pseudo ":host" []]]
     = [selector [scopeHost scope]]
  /\ processRoot ClassScopeAbsent scope
       [selector [pseudo ":host-context" [selector [className "a"]]]]
     = [selector [selector [className "a"]; str " "; scopeHost scope]]
  /\ map toString
       (processRoot ClassScopeAbsent "s"
          [selector [pseudo ":host" []];
           selector [pseudo ":host-context" [selector [className "a"]]]])
     = ["[s-host]"; ".a [s-host]"].
Proof.
  intros Hns Hp Ht.
  repeat apply conj; try reflexivity.
  - intros Hv.
    assert (Hpart : partRewritten scope item = scopeHost scope :: nodes item).
    { unfold partRewritten. by rewrite Hp, Ht, Hv. }
    rewrite <- Hpart. repeat split.
    + intros Hf. by eapply first_rewritten.
    + intros Hl. by eapply last_rewritten.
  - intros Hv.
    assert (Hpart : partRewritten scope item = nodes item ++ [str " "; scopeHost scope]).
    { unfold partRewritten. by rewrite Hp, Ht, Hv. }
    rewrite <- Hpart. repeat split.
    + intros Hf. by eapply first_rewritten.
    + intros Hl. by eapply last_rewritten.
Qed.

Lemma host_rewrite_witness :
  map toString (inRoot (rewriteSelector
                  (selector [pseudo ":host" [selector [className "a"]];
                             combinator " "; tag "b"]) "s"))
  = ["[s-host].a b[s]"]
  /\ exists post',
       nodes (fst (rewriteSelector
                     (selector [pseudo ":host" [selector [className "a"]];
                                combinator " "; tag "b"]) "s"))
       = [] ++ (scopeHost "s" :: [selector [className "a"]]) ++ post'.
Proof.
  split; [reflexivity|].
  exact (proj1 (proj2 (proj1 (host_rewrite
           (selector [pseudo ":host" [selector [className "a"]]; combinator " "; tag "b"])
           "s" [] [combinator " "; tag "b"] (pseudo ":host" [selector [className "a"]])
           eq_refl eq_refl eq_refl) eq_refl)) eq_refl).
Defined.

(** ** Ref bindings *)

(** C7 (as amended).  Every [ref] tag with a pseudo next to it gives way,
    with that pseudo, to one attribute named [ref-], the pseudo's name
    without its first sign, [-] and the scope, always joined with [-]; the
    walk goes on behind the pair and into the children of every node that
    is not a tag; the attribute is finalized, so the compound scoping
    leaves a selector alone at it. *)
Theorem ref_rewrite (scope : string) (pre post : list Node) (ref next : Node) :
  is_type Tag ref = true -> value ref = "ref" -> is_type Pseudo next = true ->
  refsWalk scope (pre ++ ref :: next :: post)
  = refsWalk scope pre ++ refAttribute next scope :: refsWalk scope post
  /\ type (refAttribute next scope) = Attribute
  /\ attribute (refAttribute next scope)
     = "ref-" +:+ slice1 (value next) +:+ "-" +:+ scope
  /\ (forall c name, value next = String c name -> slice1 (value next) = name)
  /\ processed (refAttribute next scope) = true
  /\ (forall selector i scope',
        at_ selector i = Some (refAttribute next scope) ->
        rewriteSelectorPart selector i scope' = selector)
  /\ (forall sel, rewriteRefs sel scope = set_nodes sel (refsWalk scope (nodes sel)))
  /\ (forall c rest, is_type Tag c = false ->
        refsWalk scope (c :: rest) = rewriteRefs c scope :: refsWalk scope rest).
Proof.
  intros Ht Hv Hp. repeat apply conj; try reflexivity.
  - rewrite refsWalk_app by (simpl; unfold is_type in *; by destruct (type ref)).
    f_equal. rewrite refsWalk_cons, Ht, Hv, Hp. reflexivity.
  - intros c name ->. reflexivity.
  - intros selector i scope' Hat. unfold rewriteSelectorPart. by rewrite Hat.
  - intros sel. apply rewriteRefs_nodes.
  - intros c rest Hc. by rewrite refsWalk_cons, Hc.
Qed.

Lemma ref_rewrite_witness :
  refsWalk "s" ([className "a"] ++ tag "ref" :: pseudo ":foo" [] :: [className "b"])
  = refsWalk "s" [className "a"]
    ++ refAttribute (pseudo ":foo" []) "s" :: refsWalk "s" [className "b"].
Proof.
  exact (proj1 (ref_rewrite "s" [className "a"] [className "b"] (tag "ref")
                  (pseudo ":foo" []) eq_refl eq_refl eq_refl)).
Defined.

(** C7 as stated fails: with a scope that starts with [_] the attribute is
    still joined with [-], where the concatenation rule joins with nothing. *)
Lemma ref_attribute_always_dash :
  map toString (processRoot ClassScopeAbsent "_s" [refFoo]) = ["[ref-foo-_s]"]
  /\ Text.concat ("ref-" +:+ slice1 ":foo") "_s" = "ref-foo_s"
  /\ attribute (refAttribute (pseudo ":foo" []) "_s")
     <> Text.concat ("ref-" +:+ slice1 ":foo") "_s".
Proof. repeat split. vm_compute. discriminate. Qed.
(** ** Exhaustive class scoping *)

Lemma decoratedClone_decorateAt options i sel :
  decoratedClone options i sel = decorateAt options i (clone sel).
Proof. reflexivity. Qed.

Lemma qualifies_clone n options :
  qualifies (clone n) options = qualifies n options.
Proof. by destruct n. Qed.

Lemma decorated_clone n options :
  decorated (clone n) options = clone (decorated n options).
Proof.
  unfold decorated. rewrite qualifies_clone.
  destruct (qualifies n options); [|reflexivity]. by destruct n.
Qed.

Lemma clone_decorateAt options i c :
  clone (decorateAt options i c) = decorateAt options i (clone c).
Proof.
  unfold decorateAt, at_. rewrite clone_nodes, list_lookup_fmap.
  destruct (nodes c !! i) as [n|]; [|reflexivity].
  change (clone <$> Some n) with (Some (clone n)). cbv iota beta.
  rewrite clone_set_nodes, decorated_clone. f_equal.
  apply list_fmap_insert.
Qed.

Lemma clone_decorate options s : forall c,
  clone (decorate options c s) = decorate options (clone c) s.
Proof.
  unfold decorate. induction s as [|i s IH]; intros c; simpl; [reflexivity|].
  by rewrite IH, clone_decorateAt.
Qed.

Lemma decorate_snoc options c s i :
  decorate options c (s ++ [i]) = decorateAt options i (decorate options c s).
Proof. unfold decorate. by rewrite fold_left_app. Qed.

Lemma decoratedClone_decorate options c s i :
  decoratedClone options i (decorate options (clone c) s)
  = decorate options (clone c) (s ++ [i]).
Proof.
  by rewrite decoratedClone_decorateAt, clone_decorate, clone_clone, decorate_snoc.
Qed.

Lemma subsets_snoc l p :
  subsets (l ++ [p]) = subsets l ++ map (fun s => s ++ [p]) (subsets l).
Proof. unfold subsets. by rewrite fold_left_app. Qed.

Lemma subsets_head l : exists rest, subsets l = [] :: rest.
Proof.
  induction l as [|p l IH] using rev_ind; [by exists []|].
  destruct IH as [rest Hrest]. rewrite subsets_snoc, Hrest. simpl. eauto.
Qed.

Lemma subsets_length l : length (subsets l) = 2 ^ length l.
Proof.
  induction l as [|p l IH] using rev_ind; [reflexivity|].
  rewrite subsets_snoc, !length_app, length_map, IH.
  replace (length l + length [p]) with (S (length l)) by (simpl; lia).
  rewrite Nat.pow_succ_r'. lia.
Qed.

Lemma subsets_sublist l s : In s (subsets l) <-> sublist s l.
Proof.
  revert s. induction l as [|p l IH] using rev_ind; intros s.
  - simpl. rewrite sublist_nil_r. split; [intros [<-|[]]; done|intros ->; by left].
  - rewrite subsets_snoc, List.in_app_iff, List.in_map_iff, sublist_app_r. split.
    + intros [H|(s' & <- & H)].
      * exists s, []. rewrite app_nil_r. repeat split; [by apply IH|apply sublist_nil_l].
      * exists s', [p]. repeat split; [by apply IH|done].
    + intros (k1 & k2 & -> & H1 & H2).
      apply sublist_cons_r in H2 as [H2|(k2' & -> & H2)];
        apply sublist_nil_r in H2 as ->.
      * left. rewrite app_nil_r. by apply IH.
      * right. exists k1. split; [done|by apply IH].
Qed.

Lemma subsets_NoDup l : NoDup l -> NoDup (subsets l).
Proof.
  induction l as [|p l IH] using rev_ind; intros Hl.
  - unfold subsets. simpl. apply NoDup_singleton.
  - apply NoDup_app in Hl as (Hl & Hp & _).
    rewrite subsets_snoc. apply NoDup_app. repeat split.
    + by apply IH.
    + intros s Hs%list_elem_of_In%subsets_sublist Hs'%list_elem_of_In.
      apply List.in_map_iff in Hs' as (s' & <- & _).
      assert (Hin : p ∈ l).
      { eapply elem_of_sublist; [|exact Hs].
        apply elem_of_app. right. by apply list_elem_of_singleton. }
      eapply Hp; [exact Hin|by apply list_elem_of_singleton].
    + apply NoDup_fmap_2; [|by apply IH].
      intros s1 s2 H. by apply app_inv_tail in H.
Qed.

Lemma copies_full options container :
  full options = true -> noPseudoArguments container ->
  copies options container
  = tail (classLoop options (nodes container) 0 [container]).
Proof.
  intros Hfull Hno. destruct container as [t v a b af ns p].
  unfold noPseudoArguments in Hno. simpl in Hno.
  cbn [copies nodes]. rewrite Hfull. cbn [negb].
  f_equal.
  match goal with
  | |- ?f ns 0 ?u = _ =>
      enough (H : forall l, List.Forall (fun n => is_type Pseudo n = true -> nodes n = []) l ->
                forall i toUpdate, f l i toUpdate = classLoop options l i toUpdate)
        by (by apply H)
  end.
  clear. intros l Hno.
  induction Hno as [|node l Hnode Hl IH]; intros i toUpdate; [reflexivity|].
  cbn [classLoop]. rewrite <- IH. f_equal.
  destruct (qualifies node options); [reflexivity|].
  destruct (is_type Pseudo node) eqn:Hp; [|reflexivity].
  destruct node as [t' v' a' b' af' pns p']. simpl in Hnode.
  by rewrite (Hnode eq_refl).
Qed.

Lemma qualifying_from_bounds options ns : forall i q,
  In q (qualifying_from options i ns) -> i <= q.
Proof.
  induction ns as [|n ns IH]; intros i q; simpl; [tauto|].
  destruct (qualifies n options); [intros [<-|H%IH]|intros H%IH]; lia.
Qed.

Lemma qualifying_from_NoDup options ns : forall i,
  NoDup (qualifying_from options i ns).
Proof.
  induction ns as [|n ns IH]; intros i; simpl; [constructor|].
  destruct (qualifies n options); [|apply IH].
  constructor; [|apply IH].
  intros H%list_elem_of_In%qualifying_from_bounds. lia.
Qed.

Lemma classLoop_subsets options c u0 l : forall i done,
  clone u0 = clone c ->
  classLoop options l i
    (u0 :: map (decorate options (clone c)) (tail (subsets done)))
  = u0 :: map (decorate options (clone c))
            (tail (subsets (done ++ qualifying_from options i l))).
Proof.
  intros i done Hu0. revert i done.
  induction l as [|node l IH]; intros i done.
  - simpl. by rewrite app_nil_r.
  - cbn [classLoop qualifying_from].
    destruct (qualifies node options); [|apply IH].
    replace (done ++ i :: qualifying_from options (S i) l)
      with ((done ++ [i]) ++ qualifying_from options (S i) l)
      by by rewrite <- app_assoc.
    rewrite <- IH. f_equal.
    destruct (subsets_head done) as [rest Hrest].
    rewrite subsets_snoc, Hrest. cbn [tail map app].
    rewrite List.map_app. cbn [map]. f_equal. f_equal.
    rewrite decoratedClone_decorateAt, Hu0. f_equal.
    rewrite !List.map_map. apply List.map_ext. intros s.
    apply decoratedClone_decorate.
Qed.

(** The variants differ. *)

Lemma length_string_append (a b : string) :
  String.length (a +:+ b) = String.length a + String.length b.
Proof.
  induction a as [|c a IH]; [reflexivity|].
  change (String c a +:+ b) with (String c (a +:+ b)). simpl. by rewrite IH.
Qed.

Lemma truthy_length s : truthy s = true -> 0 < String.length (orEmpty s).
Proof. destruct s as [[|c s]|]; try discriminate. simpl. lia. Qed.

Lemma decorated_changes options node :
  truthy (prefix options) || truthy (suffix options) = true ->
  qualifies node options = true ->
  decorated node options <> node.
Proof.
  intros Ht Hs Heq. unfold decorated in Heq. rewrite Hs in Heq.
  apply (f_equal (fun n => String.length (value n))) in Heq. simpl in Heq.
  rewrite !length_string_append in Heq.
  apply orb_true_iff in Ht as [Ht%truthy_length|Ht%truthy_length]; lia.
Qed.

Lemma decorateAt_nodes options i c :
  nodes (decorateAt options i c)
  = match nodes c !! i with
    | Some node => <[i := decorated node options]> (nodes c)
    | None => nodes c
    end.
Proof. unfold decorateAt, at_. by destruct (nodes c !! i). Qed.

Lemma decorateAt_length options i c :
  length (nodes (decorateAt options i c)) = length (nodes c).
Proof.
  rewrite decorateAt_nodes. destruct (nodes c !! i); [apply length_insert|reflexivity].
Qed.

Lemma decorateAt_other options i j c :
  i <> j -> nodes (decorateAt options i c) !! j = nodes c !! j.
Proof.
  intros Hij. rewrite decorateAt_nodes.
  destruct (nodes c !! i); [by apply list_lookup_insert_ne|reflexivity].
Qed.

Lemma decorateAt_same options i c node :
  nodes c !! i = Some node ->
  nodes (decorateAt options i c) !! i = Some (decorated node options).
Proof.
  intros Hi. rewrite decorateAt_nodes, Hi.
  apply list_lookup_insert_eq. by eapply lookup_lt_Some.
Qed.

Lemma decorate_lookup_out options s : forall c j,
  ~ In j s -> nodes (decorate options c s) !! j = nodes c !! j.
Proof.
  unfold decorate. induction s as [|i s IH]; intros c j Hj; [reflexivity|].
  simpl. rewrite IH by (intros H; apply Hj; by right).
  apply decorateAt_other. intros ->. apply Hj. by left.
Qed.

Lemma decorate_lookup_in options s : forall c j node,
  NoDup s -> In j s -> nodes c !! j = Some node ->
  nodes (decorate options c s) !! j = Some (decorated node options).
Proof.
  unfold decorate. induction s as [|i s IH]; intros c j node Hnd Hj Hnode; [done|].
  apply NoDup_cons in Hnd as [Hi Hnd]. simpl.
  destruct Hj as [->|Hj].
  - fold (decorate options (decorateAt options j c) s).
    rewrite decorate_lookup_out by (by rewrite <- list_elem_of_In).
    by apply decorateAt_same.
  - apply IH; [exact Hnd|exact Hj|].
    rewrite decorateAt_other; [exact Hnode|].
    intros ->. by apply Hi, list_elem_of_In.
Qed.

Lemma qualifying_from_spec options ns : forall i q,
  In q (qualifying_from options i ns)
  -> exists node, ns !! (q - i) = Some node /\ qualifies node options = true /\ i <= q.
Proof.
  induction ns as [|n ns IH]; intros i q; simpl; [tauto|].
  destruct (qualifies n options) eqn:Hn.
  - intros [<-|H].
    + exists n. rewrite Nat.sub_diag. by repeat split.
    + destruct (IH _ _ H) as (node & Hl & Hs & Hle).
      exists node. replace (q - i) with (S (q - S i)) by lia. repeat split; [done|done|lia].
  - intros H. destruct (IH _ _ H) as (node & Hl & Hs & Hle).
    exists node. replace (q - i) with (S (q - S i)) by lia. repeat split; [done|done|lia].
Qed.

Lemma sublist_same_elements (l l1 l2 : list nat) :
  NoDup l -> sublist l1 l -> sublist l2 l ->
  (forall x, In x l1 <-> In x l2) -> l1 = l2.
Proof.
  intros Hnd. revert l1 l2. induction l as [|a l IH]; intros l1 l2 H1 H2 Hsame.
  - apply sublist_nil_r in H1, H2. by subst.
  - apply NoDup_cons in Hnd as [Ha Hnd].
    assert (Hnot : forall k, sublist k l -> ~ In a k).
    { intros k Hk Hin. apply Ha. eapply elem_of_sublist; [|exact Hk].
      by apply list_elem_of_In. }
    apply sublist_cons_r in H1 as [H1|(k1 & -> & H1)];
      apply sublist_cons_r in H2 as [H2|(k2 & -> & H2)].
    + by apply IH.
    + exfalso. apply (Hnot l1 H1). apply Hsame. by left.
    + exfalso. apply (Hnot l2 H2). apply Hsame. by left.
    + f_equal. apply IH; [done|done|done|]. intros x. split; intros Hx.
      * destruct (proj1 (Hsame x) (or_intror Hx)) as [<-|H]; [|exact H].
        by destruct (Hnot k1 H1).
      * destruct (proj2 (Hsame x) (or_intror Hx)) as [<-|H]; [|exact H].
        by destruct (Hnot k2 H2).
Qed.

Lemma decorate_injective options c s1 s2 :
  truthy (prefix options) || truthy (suffix options) = true ->
  sublist s1 (qualifying options c) -> sublist s2 (qualifying options c) ->
  decorate options c s1 = decorate options c s2 -> s1 = s2.
Proof.
  intros Ht H1 H2 Heq.
  pose proof (qualifying_from_NoDup options (nodes c) 0) as Hnd.
  fold (qualifying options c) in Hnd.
  assert (Hin : forall s s' x,
            sublist s (qualifying options c) -> sublist s' (qualifying options c) ->
            decorate options c s = decorate options c s' -> In x s -> In x s').
  { intros s s' x Hs Hs' Hd Hx.
    destruct (List.in_dec Nat.eq_dec x s') as [|Hout]; [done|exfalso].
    assert (Hq : In x (qualifying options c)).
    { apply list_elem_of_In. eapply elem_of_sublist; [|exact Hs]. by apply list_elem_of_In. }
    destruct (qualifying_from_spec _ _ _ _ Hq) as (node & Hnode & Hsc & _).
    rewrite Nat.sub_0_r in Hnode.
    pose proof (decorate_lookup_in options s c x node
                  (sublist_NoDup _ _ Hnd Hs) Hx Hnode) as Hyes.
    pose proof (decorate_lookup_out options s' c x Hout) as Hno.
    rewrite Hd, Hno, Hnode in Hyes. injection Hyes as Hyes.
    by eapply decorated_changes. }
  apply (sublist_same_elements _ _ _ Hnd H1 H2).
  intros x. split; by eapply Hin.
Qed.

Lemma variants_NoDup options c :
  truthy (prefix options) || truthy (suffix options) = true ->
  NoDup (map (decorate options c) (subsets (qualifying options c))).
Proof.
  intros Ht. apply NoDup_fmap_2_strong.
  - intros s1 s2 H1%list_elem_of_In%subsets_sublist H2%list_elem_of_In%subsets_sublist.
    by apply decorate_injective.
  - apply subsets_NoDup, qualifying_from_NoDup.
Qed.

Lemma qualifying_from_clone options ns : forall i,
  qualifying_from options i (map clone ns) = qualifying_from options i ns.
Proof.
  induction ns as [|n ns IH]; intros i; [reflexivity|].
  simpl. by rewrite qualifies_clone, IH.
Qed.

Lemma qualifying_clone options c : qualifying options (clone c) = qualifying options c.
Proof. unfold qualifying. by rewrite clone_nodes, qualifying_from_clone. Qed.

(** ** Regular expressions that keep no state *)

Lemma test_unflagged re s : flagged re = false -> test re s = (matches re s, re).
Proof. unfold test, matches. intros ->. by destruct (matchFrom re s 0). Qed.

Lemma set_exclude_same options re :
  exclude options = Some re -> set_exclude options re = options.
Proof. destruct options. cbn. by intros ->. Qed.

Lemma set_include_same options re :
  include options = Some re -> set_include options re = options.
Proof. destruct options. cbn. by intros ->. Qed.

Lemma shouldScopeNode_stateless node options :
  stateless options -> shouldScopeNode node options = (qualifies node options, options).
Proof.
  intros [Hi He]. unfold shouldScopeNode, qualifies.
  destruct (negb (is_type Class node)); [done|].
  destruct (exclude options) as [re|] eqn:Hre.
  - cbn in He. apply negb_true_iff in He. rewrite (test_unflagged _ _ He).
    rewrite (set_exclude_same _ _ Hre).
    destruct (matches re (value node)); [done|]. cbn [negb andb].
    destruct (include options) as [ri|] eqn:Hri; [|done].
    cbn in Hi. apply negb_true_iff in Hi. rewrite (test_unflagged _ _ Hi).
    by rewrite (set_include_same _ _ Hri).
  - cbn [negb andb].
    destruct (include options) as [ri|] eqn:Hri; [|done].
    cbn in Hi. apply negb_true_iff in Hi. rewrite (test_unflagged _ _ Hi).
    by rewrite (set_include_same _ _ Hri).
Qed.

Lemma scopeValue_stateless node options :
  stateless options -> scopeValue node options = (decorated node options, options).
Proof.
  intros H. unfold scopeValue, decorated. rewrite (shouldScopeNode_stateless _ _ H).
  by destruct (qualifies node options).
Qed.

Lemma scopeAt_stateless i sel options :
  stateless options -> scopeAt i sel options = (decoratedClone options i sel, options).
Proof.
  intros H. unfold scopeAt, decoratedClone. destruct (at_ (clone sel) i); [|done].
  by rewrite (scopeValue_stateless _ _ H).
Qed.

Lemma scopeSnapshot_stateless i sels options :
  stateless options ->
  scopeSnapshot i sels options = (map (decoratedClone options i) sels, options).
Proof.
  intros H. induction sels as [|sel sels IH]; [done|].
  cbn [scopeSnapshot map]. by rewrite (scopeAt_stateless _ _ _ H), IH.
Qed.

Lemma scopeClassNames_rec_children options sel :
  stateless options ->
  (forall force, scopeClassNames_rec force sel options
                 = (renamed_rec options force sel, options))
  /\ List.Forall (fun c => forall force, scopeClassNames_rec force c options
                                         = (renamed_rec options force c, options))
                 (nodes sel).
Proof.
  intros Hst.
  induction sel as [t v a b af ns p IH] using Node_ind'.
  assert (Hch : List.Forall (fun c => forall force,
                   scopeClassNames_rec force c options
                   = (renamed_rec options force c, options)) ns).
  { eapply List.Forall_impl; [|exact IH]. by intros c [Hc _]. }
  split; [|exact Hch].
  intros force. cbn [scopeClassNames_rec renamed_rec].
  match goal with
  | |- (let '(_, _) := ?f ns options in _) = (mkNode _ _ _ _ _ (?g ns) _, _) =>
      enough (H : forall l, List.Forall (fun n =>
                    List.Forall (fun c => forall force,
                       scopeClassNames_rec force c options
                       = (renamed_rec options force c, options)) (nodes n)) l ->
                  f l options = (g l, options))
        by (rewrite H; [done|]; eapply List.Forall_impl; [|exact IH]; by intros c [_ Hc])
  end.
  clear IH Hch. intros l Hl.
  induction Hl as [|node l Hnode _ IHl]; [done|].
  rewrite (shouldScopeNode_stateless _ _ Hst).
  destruct (qualifies node options).
  - by rewrite (scopeValue_stateless _ _ Hst), IHl.
  - destruct (force || negb (isIgnoredPseudo node)); [|by rewrite IHl].
    destruct node as [t' v' a' b' af' ns' p']. cbn [nodes] in Hnode.
    match goal with
    | |- (let '(_, _) := (let '(_, _) := ?f ns' options in _) in _) = _ =>
        enough (H : f ns' options
                    = (map (renamed_rec options false) ns', options))
          by (by rewrite H, IHl)
    end.
    clear IHl. induction Hnode as [|c cs Hc _ IHc]; [done|].
    by rewrite Hc, IHc.
Qed.

Lemma scopeClassNames_rec_stateless options force sel :
  stateless options ->
  scopeClassNames_rec force sel options = (renamed_rec options force sel, options).
Proof. intros H. by apply scopeClassNames_rec_children. Qed.

Lemma scopeClassNames_stateless sel options force :
  stateless options ->
  scopeClassNames sel options force = (renamed sel options force, options).
Proof.
  intros H. unfold scopeClassNames, renamed.
  destruct (truthy (prefix options) || truthy (suffix options)); [|done].
  by apply scopeClassNames_rec_stateless.
Qed.

Lemma anyClassToScope_stateless options container :
  stateless options ->
  anyClassToScope container options = (anyQualifies options container, options).
Proof.
  intros Hst. induction container as [t v a b af ns p IH] using Node_ind'.
  cbn [anyClassToScope anyQualifies].
  induction IH as [|node l Hnode _ IHl]; [done|].
  rewrite (shouldScopeNode_stateless _ _ Hst).
  destruct (qualifies node options); [done|]. rewrite Hnode.
  destruct (anyQualifies options node); [done|]. by rewrite IHl.
Qed.

Lemma scopeClassNamesInContainer_children options container :
  stateless options ->
  scopeClassNamesInContainer container options = (copies options container, options)
  /\ List.Forall (fun c => scopeClassNamesInContainer c options
                           = (copies options c, options)) (nodes container).
Proof.
  intros Hst.
  induction container as [t v a b af ns p IH] using Node_ind'.
  assert (Hch : List.Forall (fun c => scopeClassNamesInContainer c options
                                      = (copies options c, options)) ns).
  { eapply List.Forall_impl; [|exact IH]. by intros c [Hc _]. }
  split; [|exact Hch].
  cbn [scopeClassNamesInContainer copies].
  destruct (negb (full options)).
  - rewrite (anyClassToScope_stateless _ _ Hst).
    destruct (anyQualifies options _); [|done].
    by rewrite (scopeClassNames_stateless _ _ _ Hst).
  - match goal with
    | |- (let '(_, _) := ?f ns 0 ?u options in _) = (tail (?g ns 0 ?u), _) =>
        enough (H : forall l, List.Forall (fun n =>
                      List.Forall (fun c => scopeClassNamesInContainer c options
                                            = (copies options c, options)) (nodes n)) l ->
                    forall i toUpdate, f l i toUpdate options = (g l i toUpdate, options))
          by (rewrite H; [done|]; eapply List.Forall_impl; [|exact IH]; by intros c [_ Hc])
    end.
    clear IH Hch. intros l Hl.
    induction Hl as [|node l Hnode _ IHl]; intros i toUpdate; [done|].
    rewrite (shouldScopeNode_stateless _ _ Hst).
    destruct (qualifies node options).
    + by rewrite (scopeSnapshot_stateless _ _ _ Hst), IHl.
    + destruct (is_type Pseudo node); [|by rewrite IHl].
      destruct node as [t' v' a' b' af' pns p']. cbn [nodes] in Hnode.
      match goal with
      | |- (let '(_, _) := ?f pns 0 toUpdate options in _) = _ =>
          enough (H : forall ps, List.Forall (fun c =>
                        scopeClassNamesInContainer c options
                        = (copies options c, options)) ps ->
                      forall j u, f ps j u options
                        = ((fix forEachArg (ps : list Node) (j : nat)
                              (toUpdate : list Node) : list Node :=
                              match ps with
                              | [] => toUpdate
                              | pseudoSel :: ps' =>
                                  forEachArg ps' (S j)
                                    (toUpdate ++
                                     flat_map
                                       (substituteArgument i j
                                          (copies options pseudoSel))
                                       toUpdate)
                              end) ps j u, options))
            by (by rewrite (H pns Hnode), IHl)
      end.
      clear IHl Hnode. intros ps Hps.
      induction Hps as [|pseudoSel ps Hp _ IHp]; intros j u; [done|].
      match goal with
      | |- (let '(_, _) := ?f u options in _) = _ =>
          enough (H : forall sels, f sels options
                      = (flat_map (substituteArgument i j (copies options pseudoSel)) sels,
                         options))
            by (by rewrite H, IHp)
      end.
      intros sels. induction sels as [|sel sels IHs]; [done|].
      by rewrite Hp, IHs.
Qed.

Lemma scopeClassNamesInContainer_stateless options container :
  stateless options ->
  scopeClassNamesInContainer container options = (copies options container, options).
Proof. intros H. by apply scopeClassNamesInContainer_children. Qed.

Lemma getClassScopeOptions_stateless scope classScope o :
  statelessScope classScope -> getClassScopeOptions scope classScope = Some o ->
  stateless o.
Proof.
  unfold getClassScopeOptions.
  destruct classScope as [|[|]|given]; cbn [statelessScope]; try discriminate.
  - intros _. cbn. destruct (negb _); by intros [= <-].
  - intros Hst. destruct (_ && _); by intros [= <-].
Qed.

Lemma withRegExps_same scope classScope o :
  getClassScopeOptions scope classScope = Some o -> withRegExps classScope o = classScope.
Proof.
  unfold getClassScopeOptions.
  destruct classScope as [|[|]|given]; try done.
  destruct (_ && _); intros [= <-]; by destruct given.
Qed.

Lemma eachSelector_st_stateless classScope scope sel :
  statelessScope classScope ->
  eachSelector_st classScope scope sel
  = (eachSelectorStateless classScope scope sel, classScope).
Proof.
  intros Hst. unfold eachSelector_st, eachSelectorStateless.
  destruct (getClassScopeOptions scope classScope) as [o|] eqn:Ho; [|done].
  pose proof (getClassScopeOptions_stateless _ _ _ Hst Ho) as Hso.
  rewrite (scopeClassNamesInContainer_stateless _ _ Hso).
  rewrite (scopeClassNames_stateless _ _ _ Hso).
  rewrite (withRegExps_same _ _ _ Ho). by destruct (isGlobalClassScope classScope).
Qed.

Lemma eachSelector_stateless classScope scope sel :
  statelessScope classScope ->
  eachSelector classScope scope sel = eachSelectorStateless classScope scope sel.
Proof. intros H. unfold eachSelector. by rewrite eachSelector_st_stateless. Qed.

Lemma processRoot_st_stateless classScope scope root :
  statelessScope classScope ->
  processRoot_st classScope scope root
  = (flat_map (eachSelector classScope scope) root, classScope).
Proof.
  intros Hst. induction root as [|sel root IH]; [done|].
  cbn [processRoot_st flat_map]. unfold eachSelector at 1.
  by rewrite eachSelector_st_stateless, IH.
Qed.

Lemma processRoot_stateless classScope scope root :
  statelessScope classScope ->
  processRoot classScope scope root = flat_map (eachSelector classScope scope) root.
Proof. intros H. unfold processRoot. by rewrite processRoot_st_stateless. Qed.

(** C9.  The claim fails on the code where a regular expression of the
    options has the g flag.  With [{ suffix: '_s', include: /a/g, full:
    true }] the selector [.a.a.a] has three class names that the pattern
    matches, and the claim gives 2^3 variants, one for each set of decorated
    names.  The code tests the pattern for a class name in the loop and
    once more in [scopeValue] for every copy; a test that succeeds moves
    [lastIndex] behind the match, and the next test starts there, fails and
    moves it back.  So the copy made at the first name is not decorated,
    at the second name one of the two copies is, and the third name is no
    longer taken to qualify: three copies are returned, two of them the
    original, and the root ends up with four selectors of which three are
    the same. *)
Lemma flagged_include_loses_variants :
  fst (scopeClassNamesInContainer aaa suffixIncludeAGlobal)
  = [aaa; aaa; selector [className "a"; className "a_s"; className "a"]]
  /\ map (fun re => lastIndex re)
       (option_list (include (snd (scopeClassNamesInContainer aaa suffixIncludeAGlobal))))
     = [0]
  /\ map toString (processRoot (ClassScopeObject suffixIncludeAGlobal) "s" [aaa])
     = ["[s].a.a.a"; "[s].a.a.a"; "[s].a.a_s.a"; "[s].a.a.a"]
  /\ length (aaa :: fst (scopeClassNamesInContainer aaa suffixIncludeAGlobal)) <> 2 ^ 3
  /\ ~ NoDup (aaa :: fst (scopeClassNamesInContainer aaa suffixIncludeAGlobal))
  /\ List.Forall (fun node => matches aGlobal (value node) = true) (nodes aaa).
Proof.
  split; [reflexivity|]. split; [reflexivity|]. split; [reflexivity|].
  split; [vm_compute; discriminate|]. split; [|repeat constructor].
  intros H. vm_compute in H. apply NoDup_cons in H as [H _].
  apply H. left.
Qed.

(** X25.  With regular expressions that have neither the g nor the y flag
    (or none), in exhaustive mode a selector none of whose pseudos has
    arguments and with k classes to scope is expanded into 2^k variants, the
    original and one clone for each non-empty set of decorated occurrences,
    a decorated name being the prefix, the name and the suffix; all but the
    original are returned, the regular expressions staying as they were,
    and the caller keeps the original.  For [.foo.bar] with the suffix [_s]
    the root ends up with the four selectors [[s].foo_s.bar],
    [[s].foo.bar_s], [[s].foo_s.bar_s] and [[s].foo.bar], all different;
    with a prefix or suffix set the 2^k variants are all different for
    every selector. *)
Theorem exhaustive_class_variants (options : ClassScopeOptions) (container : Node) :
  stateless options -> full options = true -> noPseudoArguments container ->
  let occurrences := qualifying options container in
  scopeClassNamesInContainer container options
  = (map (decorate options (clone container)) (tail (subsets occurrences)), options)
  /\ length (container :: fst (scopeClassNamesInContainer container options))
     = 2 ^ length occurrences
  /\ length (fst (scopeClassNamesInContainer container options))
     = 2 ^ length occurrences - 1
  /\ (exists rest, subsets occurrences = [] :: rest)
  /\ (forall s, In s (subsets occurrences) <-> sublist s occurrences)
  /\ NoDup (subsets occurrences)
  /\ (truthy (prefix options) || truthy (suffix options) = true ->
        NoDup (map (decorate options (clone container)) (subsets occurrences)))
  /\ (forall i node, In i occurrences -> nodes (clone container) !! i = Some node ->
        nodes (decorateAt options i (clone container)) !! i
        = Some (set_value node
                  (orEmpty (prefix options) +:+ value node +:+ orEmpty (suffix options))))
  /\ (forall scope,
        let selectors :=
          processRoot
            (ClassScopeObject
               (mkClassScopeOptions None (Some ("_" +:+ scope)) None None true))
            scope [fooBar] in
        selectors
        = [selector [scopeElement scope; className ("foo_" +:+ scope); className "bar"];
           selector [scopeElement scope; className "foo"; className ("bar_" +:+ scope)];
           selector [scopeElement scope; className ("foo_" +:+ scope);
                     className ("bar_" +:+ scope)];
           selector [scopeElement scope; className "foo"; className "bar"]]
        /\ NoDup selectors)
  /\ map toString
       (processRoot
          (ClassScopeObject (mkClassScopeOptions None (Some "_s") None None true))
          "s" [fooBar])
     = ["[s].foo_s.bar"; "[s].foo.bar_s"; "[s].foo_s.bar_s"; "[s].foo.bar"].
Proof.
  intros Hst Hfull Hno occurrences.
  rewrite (scopeClassNamesInContainer_stateless _ _ Hst). cbn [fst].
  assert (Heq : copies options container
                = map (decorate options (clone container)) (tail (subsets occurrences))).
  { rewrite copies_full by assumption.
    pose proof (classLoop_subsets options container container (nodes container) 0 []
                  eq_refl) as H.
    simpl in H. unfold subsets at 1 in H. simpl in H. rewrite H. reflexivity. }
  assert (Hlen : length (container :: copies options container)
                 = 2 ^ length occurrences).
  { rewrite Heq. destruct (subsets_head occurrences) as [rest Hrest].
    rewrite <- subsets_length, Hrest. simpl. by rewrite length_map. }
  repeat apply conj.
  - by rewrite Heq.
  - exact Hlen.
  - simpl in Hlen. lia.
  - apply subsets_head.
  - apply subsets_sublist.
  - apply subsets_NoDup, qualifying_from_NoDup.
  - intros Ht. unfold occurrences. rewrite <- qualifying_clone.
    by apply variants_NoDup.
  - intros i node Hi Hn. rewrite (decorateAt_same _ _ _ _ Hn). f_equal.
    unfold occurrences in Hi. rewrite <- qualifying_clone in Hi.
    apply qualifying_from_spec in Hi as (node' & Hn' & Hq & _).
    rewrite Nat.sub_0_r, Hn in Hn'. injection Hn' as <-.
    unfold decorated. by rewrite Hq.
  - intros scope. cbv zeta. split; [reflexivity|].
    cbv -[String.append].
    repeat (apply NoDup_cons; split;
            [rewrite ?elem_of_cons, elem_of_nil;
             intros H; repeat destruct H as [H|H]; try discriminate H; exact H|]).
    apply NoDup_nil_2.
  - reflexivity.
Qed.

Lemma exhaustive_class_variants_witness :
  length (fst (scopeClassNamesInContainer fooBar
                 (mkClassScopeOptions None (Some "_s") None None true)))
  = 2 ^ length (qualifying (mkClassScopeOptions None (Some "_s") None None true) fooBar) - 1.
Proof.
  refine (proj1 (proj2 (proj2 (exhaustive_class_variants
            (mkClassScopeOptions None (Some "_s") None None true) fooBar _ eq_refl _)))).
  - by split.
  - repeat constructor; discriminate.
Defined.

(** ** Nothing to scope, and selectors whose children have no children *)

Lemma renamed_rec_nodes options force sel :
  renamed_rec options force sel
  = set_nodes sel
      (map (fun node =>
              if qualifies node options then decorated node options
              else if force || negb (isIgnoredPseudo node)
                   then set_nodes node
                          (map (renamed_rec options false) (nodes node))
                   else node)
           (nodes sel)).
Proof.
  destruct sel as [t v a b af ns p]. unfold set_nodes at 1.
  cbn [renamed_rec nodes type value attribute before after processed]. f_equal.
  induction ns as [|node ns IH]; [done|]. cbn [map]. rewrite <- IH. f_equal.
  destruct (qualifies node options); [done|].
  destruct (force || negb (isIgnoredPseudo node)); [|done].
  destruct node as [t' v' a' b' af' ns' p']. unfold set_nodes.
  cbn [nodes type value attribute before after processed]. reflexivity.
Qed.

Lemma anyQualifies_nodes options container :
  anyQualifies options container
  = existsb (fun node => qualifies node options || anyQualifies options node)
            (nodes container).
Proof.
  destruct container as [t v a b af ns p]. cbn [anyQualifies nodes].
  induction ns as [|node ns IH]; [done|]. cbn [existsb]. by rewrite <- IH.
Qed.

Lemma map_id_forall {A} (f : A -> A) l :
  List.Forall (fun x => f x = x) l -> map f l = l.
Proof. induction 1 as [|x l Hx _ IH]; [done|]. cbn. by rewrite Hx, IH. Qed.

Lemma existsb_false {A} (f : A -> bool) l :
  existsb f l = false -> List.Forall (fun x => f x = false) l.
Proof.
  induction l as [|x l IH]; [constructor|]. cbn.
  intros [Hx Hl]%orb_false_elim. constructor; auto.
Qed.

Lemma renamed_rec_nothing options sel :
  (anyQualifies options sel = false ->
   forall force, renamed_rec options force sel = sel)
  /\ List.Forall (fun c => anyQualifies options c = false ->
                           forall force, renamed_rec options force c = c)
                 (nodes sel).
Proof.
  induction sel as [t v a b af ns p IH] using Node_ind'.
  assert (Hch : List.Forall (fun c => anyQualifies options c = false ->
                   forall force, renamed_rec options force c = c) ns).
  { eapply List.Forall_impl; [|exact IH]. by intros c [Hc _]. }
  split; [|exact Hch].
  intros Hany force. rewrite renamed_rec_nodes. cbn [nodes].
  rewrite anyQualifies_nodes in Hany. cbn [nodes] in Hany.
  apply existsb_false in Hany.
  rewrite map_id_forall; [done|].
  rewrite List.Forall_forall in IH, Hany |- *. intros node Hin.
  pose proof (Hany node Hin) as [Hs Ha]%orb_false_elim. rewrite Hs.
  destruct (force || negb (isIgnoredPseudo node)); [|done].
  destruct (IH node Hin) as [_ Hg].
  rewrite anyQualifies_nodes in Ha. apply existsb_false in Ha.
  rewrite map_id_forall; [by destruct node|].
  rewrite List.Forall_forall in Hg, Ha |- *. intros c Hc.
  pose proof (Ha c Hc) as [_ Hac]%orb_false_elim. by apply Hg.
Qed.

Lemma renamed_nothing options sel force :
  anyQualifies options sel = false -> renamed sel options force = sel.
Proof.
  intros H. unfold renamed.
  destruct (truthy (prefix options) || truthy (suffix options)); [|done].
  by apply renamed_rec_nothing.
Qed.

Lemma copies_unfold options container :
  copies options container
  = if negb (full options) then
      if anyQualifies options container
      then [renamed (clone container) options true]
      else []
    else tail (fullLoop options (nodes container) 0 [container]).
Proof.
  destruct container as [t v a b af ns p].
  cbn [copies nodes].
  destruct (negb (full options)); [done|]. f_equal.
  match goal with
  | |- ?f ns 0 ?u = _ =>
      enough (H : forall l i toUpdate, f l i toUpdate = fullLoop options l i toUpdate)
        by apply H
  end.
  clear. intros l.
  induction l as [|node l IH]; intros i toUpdate; [done|].
  cbn [fullLoop]. rewrite <- IH. f_equal.
  destruct (qualifies node options); [done|].
  destruct (is_type Pseudo node); [|done].
  destruct node as [t' v' a' b' af' pns p']. cbn [nodes].
  match goal with
  | |- ?g pns 0 toUpdate = _ =>
      enough (H : forall ps j u, g ps j u = argLoop options i ps j u) by apply H
  end.
  clear. intros ps.
  induction ps as [|pseudoSel ps IH]; intros j u; [done|].
  cbn [argLoop]. by rewrite <- IH.
Qed.


Lemma flat_map_nothing {A B} (f : A -> list B) l :
  (forall x, f x = []) -> flat_map f l = [].
Proof. intros H. induction l as [|x l IH]; [done|]. cbn. by rewrite H, IH. Qed.

Lemma argLoop_nothing options i ps : forall j toUpdate,
  List.Forall (fun pseudoSel => copies options pseudoSel = []) ps ->
  argLoop options i ps j toUpdate = toUpdate.
Proof.
  induction ps as [|pseudoSel ps IH]; intros j toUpdate H; [done|].
  apply List.Forall_cons_iff in H as [Hp Hps]. cbn [argLoop].
  rewrite Hp, flat_map_nothing, app_nil_r; [by apply IH|done].
Qed.

Lemma fullLoop_nothing options l : forall i toUpdate,
  List.Forall (fun node =>
     qualifies node options = false
     /\ List.Forall (fun pseudoSel => copies options pseudoSel = [])
                    (nodes node)) l ->
  fullLoop options l i toUpdate = toUpdate.
Proof.
  induction l as [|node l IH]; intros i toUpdate H; [done|].
  apply List.Forall_cons_iff in H as [[Hs Hp] Hl]. cbn [fullLoop]. rewrite Hs.
  rewrite IH by done. destruct (is_type Pseudo node); [|done].
  by apply argLoop_nothing.
Qed.

Lemma copies_nothing options container :
  (anyQualifies options container = false ->
   copies options container = [])
  /\ List.Forall (fun c => anyQualifies options c = false ->
                           copies options c = [])
                 (nodes container).
Proof.
  induction container as [t v a b af ns p IH] using Node_ind'.
  assert (Hch : List.Forall (fun c => anyQualifies options c = false ->
                   copies options c = []) ns).
  { eapply List.Forall_impl; [|exact IH]. by intros c [Hc _]. }
  split; [|exact Hch].
  intros Hany. rewrite copies_unfold, Hany.
  destruct (negb (full options)); [done|]. cbn [nodes].
  rewrite fullLoop_nothing; [done|].
  rewrite anyQualifies_nodes in Hany. cbn [nodes] in Hany.
  apply existsb_false in Hany.
  rewrite List.Forall_forall in IH, Hany |- *. intros node Hin.
  pose proof (Hany node Hin) as [Hs Ha]%orb_false_elim. split; [done|].
  destruct (IH node Hin) as [_ Hg].
  rewrite anyQualifies_nodes in Ha. apply existsb_false in Ha.
  rewrite List.Forall_forall in Hg, Ha |- *. intros c Hc.
  pose proof (Ha c Hc) as [_ Hac]%orb_false_elim. by apply Hg.
Qed.

Lemma decorated_id node options :
  qualifies node options = false -> decorated node options = node.
Proof. unfold decorated. by intros ->. Qed.

Lemma decorate_set_nodes options s : forall c,
  decorate options c s = set_nodes c (nodes (decorate options c s)).
Proof.
  unfold decorate. induction s as [|i s IH]; intros c; cbn [fold_left].
  - by destruct c.
  - rewrite IH at 1. unfold decorateAt at 1. destruct (at_ c i); [|done].
    by rewrite set_nodes_set_nodes.
Qed.

Lemma decorate_qualifying_from options ns : forall c pre,
  nodes c = pre ++ ns ->
  nodes (decorate options c (qualifying_from options (length pre) ns))
  = pre ++ map (fun n => decorated n options) ns.
Proof.
  induction ns as [|n ns IH]; intros c pre Hc; [done|].
  cbn [qualifying_from map].
  assert (Hnext : forall c', nodes c' = (pre ++ [decorated n options]) ++ ns ->
            nodes (decorate options c' (qualifying_from options (S (length pre)) ns))
            = pre ++ decorated n options :: map (fun n => decorated n options) ns).
  { intros c' Hc'. specialize (IH c' (pre ++ [decorated n options]) Hc').
    rewrite length_app in IH. cbn [length] in IH.
    replace (length pre + 1) with (S (length pre)) in IH by lia.
    by rewrite IH, <- app_assoc. }
  destruct (qualifies n options) eqn:Hs.
  - unfold decorate. cbn [fold_left]. apply Hnext.
    unfold decorateAt, at_. rewrite Hc, lookup_middle, nodes_set_nodes, insert_middle.
    by rewrite <- app_assoc.
  - apply Hnext. rewrite Hc, decorated_id by done. by rewrite <- app_assoc.
Qed.

Lemma decorate_qualifying options c :
  decorate options c (qualifying options c)
  = set_nodes c (map (fun n => decorated n options) (nodes c)).
Proof.
  rewrite decorate_set_nodes. f_equal.
  by apply (decorate_qualifying_from options (nodes c) c []).
Qed.

Lemma decorated_no_affix node options :
  truthy (prefix options) || truthy (suffix options) = false ->
  decorated node options = node.
Proof.
  intros [Hp Hs]%orb_false_elim. unfold decorated.
  destruct (qualifies node options); [|done].
  assert (orEmpty (prefix options) = "") as ->.
  { destruct (prefix options) as [[|]|]; done. }
  assert (orEmpty (suffix options) = "") as ->.
  { destruct (suffix options) as [[|]|]; done. }
  destruct node as [t v a b af ns p]. unfold set_value. cbn [value type attribute
    before after nodes processed]. f_equal.
  change ("" +:+ v +:+ "") with (v +:+ ""). apply TextFacts.append_empty_r.
Qed.

Lemma renamed_leaf options c force :
  leafChildren c ->
  renamed c options force
  = set_nodes c (map (fun n => decorated n options) (nodes c)).
Proof.
  intros Hleaf. unfold renamed.
  destruct (truthy (prefix options) || truthy (suffix options)) eqn:Ht.
  - rewrite renamed_rec_nodes. f_equal.
    apply List.map_ext_in. intros n Hn.
    unfold leafChildren in Hleaf. rewrite List.Forall_forall in Hleaf.
    specialize (Hleaf n Hn).
    destruct (qualifies n options) eqn:Hs; [by unfold decorated; rewrite Hs|].
    rewrite decorated_id by done.
    destruct (force || negb (isIgnoredPseudo n)); [|done].
    rewrite Hleaf. by destruct n; cbn in *; subst.
  - rewrite map_id_forall; [by destruct c|].
    apply List.Forall_forall. intros n _. by apply decorated_no_affix.
Qed.

Lemma leafChildren_clone c : leafChildren c -> leafChildren (clone c).
Proof.
  unfold leafChildren. rewrite clone_nodes, List.Forall_map.
  apply List.Forall_impl. intros n Hn. by rewrite clone_nodes, Hn.
Qed.

Lemma leafChildren_noPseudoArguments c : leafChildren c -> noPseudoArguments c.
Proof. unfold leafChildren, noPseudoArguments. apply List.Forall_impl. auto. Qed.

Lemma qualifying_any options c :
  qualifying options c <> [] -> anyQualifies options c = true.
Proof.
  rewrite anyQualifies_nodes. unfold qualifying. generalize 0.
  induction (nodes c) as [|n ns IH]; intros i; [done|]. cbn [qualifying_from existsb].
  destruct (qualifies n options); [done|]. intros H. rewrite (IH _ H).
  apply orb_true_r.
Qed.

Lemma subsets_last l : last (subsets l) = Some l.
Proof.
  induction l as [|p l IH] using rev_ind; [done|].
  rewrite subsets_snoc, last_app.
  change (map (fun s => s ++ [p]) (subsets l)) with ((fun s => s ++ [p]) <$> subsets l).
  by rewrite fmap_last, IH.
Qed.

Lemma subsets_tail_last l : l <> [] -> last (tail (subsets l)) = Some l.
Proof.
  intros Hl. pose proof (subsets_last l) as H.
  destruct (subsets_head l) as [rest Hrest]. rewrite Hrest in H |- *. cbn [tail].
  rewrite last_cons in H. destruct (last rest); [done|].
  injection H as <-. done.
Qed.

Lemma qualifies_setFull options b node :
  qualifies node (setFull options b) = qualifies node options.
Proof. reflexivity. Qed.

Lemma decorated_setFull options b node :
  decorated node (setFull options b) = decorated node options.
Proof. reflexivity. Qed.

Lemma qualifying_setFull options b c :
  qualifying (setFull options b) c = qualifying options c.
Proof.
  unfold qualifying. generalize 0.
  induction (nodes c) as [|n ns IH]; intros i; [done|]. cbn [qualifying_from].
  by rewrite qualifies_setFull, IH.
Qed.

Lemma qualifying_none options c :
  leafChildren c -> qualifying options c = [] -> anyQualifies options c = false.
Proof.
  rewrite anyQualifies_nodes. unfold qualifying, leafChildren. generalize 0.
  induction (nodes c) as [|n ns IH]; intros i Hleaf; [done|]. cbn [qualifying_from existsb].
  apply List.Forall_cons_iff in Hleaf as [Hn Hns].
  destruct (qualifies n options); [done|]. intros H. rewrite (IH _ Hns H).
  rewrite anyQualifies_nodes, Hn. done.
Qed.



End SelFacts.
(** * Facts about the stylesheet pass *)

Module CssFacts.
Import Text Css TextFacts TextProps.

(** Induction on stylesheet trees. *)
Lemma ChildNode_ind' (P : ChildNode -> Prop) :
  (forall name params nodes processed,
     List.Forall P nodes -> P (AtRule name params nodes processed)) ->
  (forall selectors nodes processed,
     List.Forall P nodes -> P (Rule selectors nodes processed)) ->
  (forall prop value processed, P (Declaration prop value processed)) ->
  (forall text, P (Comment text)) ->
  forall node, P node.
Proof.
  intros Hat Hrule Hdecl Hcomment. fix IH 1. intros [name params nodes p|sels nodes p|prop value p|text].
  - apply Hat. induction nodes as [|c nodes IHn]; constructor; [apply IH|exact IHn].
  - apply Hrule. induction nodes as [|c nodes IHn]; constructor; [apply IH|exact IHn].
  - apply Hdecl.
  - apply Hcomment.
Qed.

Lemma has_true (animations : gset string) name : has animations name = true <-> name ∈ animations.
Proof. unfold has. apply bool_decide_eq_true. Qed.

Lemma has_false (animations : gset string) name : has animations name = false <-> name ∉ animations.
Proof. unfold has. apply bool_decide_eq_false. Qed.


(** ** What [Once] collects *)

Lemma elem_of_union_map {A} (f : A -> gset string) (l : list A) x :
  x ∈ ⋃ (map f l) <-> exists a, In a l /\ x ∈ f a.
Proof.
  rewrite elem_of_union_list. split.
  - intros (X & HX & Hx). apply list_elem_of_In, List.in_map_iff in HX as (a & <- & Ha).
    eauto.
  - intros (a & Ha & Hx). exists (f a). split; [|exact Hx].
    apply list_elem_of_In, List.in_map. exact Ha.
Qed.

Lemma collect_atRules node : forall parent x,
  x ∈ collect parent node
  <-> exists p name, In (p, name, x) (atRules parent node)
                     /\ isRewriteableKeyframe (Some p) name x = true.
Proof.
  induction node as [name params nodes pr IH|sels nodes pr IH|prop value pr|text]
    using ChildNode_ind'; intros parent x.
  - cbn [collect atRules]. rewrite elem_of_union, elem_of_union_map.
    rewrite List.Forall_forall in IH. split.
    + intros [Hx|(child & Hchild & Hx)].
      * destruct (isRewriteableKeyframe (Some parent) name params) eqn:Hrk;
          [|by apply not_elem_of_empty in Hx].
        apply elem_of_singleton in Hx as ->. exists parent, name. split; [by left|done].
      * apply (IH child Hchild) in Hx as (p & name' & Hin & Hrk).
        exists p, name'. split; [|exact Hrk]. right.
        apply List.in_flat_map. eauto.
    + intros (p & name' & [Heq|Hin] & Hrk).
      * injection Heq as <- <- <-. left. rewrite Hrk. by apply elem_of_singleton.
      * right. apply List.in_flat_map in Hin as (child & Hchild & Hin).
        exists child. split; [exact Hchild|]. apply (IH child Hchild). eauto.
  - cbn [collect atRules]. rewrite elem_of_union_map.
    rewrite List.Forall_forall in IH. split.
    + intros (child & Hchild & Hx).
      apply (IH child Hchild) in Hx as (p & name' & Hin & Hrk).
      exists p, name'. split; [|exact Hrk]. apply List.in_flat_map. eauto.
    + intros (p & name' & Hin & Hrk).
      apply List.in_flat_map in Hin as (child & Hchild & Hin).
      exists child. split; [exact Hchild|]. apply (IH child Hchild). eauto.
  - simpl. split; [by intros H%not_elem_of_empty|by intros (? & ? & [] & _)].
  - simpl. split; [by intros H%not_elem_of_empty|by intros (? & ? & [] & _)].
Qed.

Lemma Once_animations options root s x :
  Css.scope options = Some s -> s <> "" ->
  x ∈ animations (Once options root)
  <-> exists p name, In (p, name, x) (atRulesOf root)
                     /\ isRewriteableKeyframe (Some p) name x = true.
Proof.
  intros Hs Hne. unfold Once. rewrite Hs. destruct s as [|c s]; [done|].
  cbn [animations]. rewrite elem_of_union_map. unfold atRulesOf. split.
  - intros (node & Hnode & Hx). apply collect_atRules in Hx as (p & name & Hin & Hrk).
    exists p, name. split; [|exact Hrk]. apply List.in_flat_map. eauto.
  - intros (p & name & Hin & Hrk). apply List.in_flat_map in Hin as (node & Hnode & Hin).
    exists node. split; [exact Hnode|]. apply collect_atRules. eauto.
Qed.

Lemma Once_truthy options root s :
  Css.scope options = Some s -> s <> "" ->
  truthyScope (Once options root) = Some s.
Proof.
  intros Hs Hne. unfold Once. rewrite Hs. by destruct s.
Qed.


(** ** The visitors *)



(** C8 (as amended).  For a declaration that is not finalized the property
    name is compared without its vendor prefix.  For [animation-name] a
    value that is a collected name gets the scope appended.  For [animation]
    the value is split at every single space sign, the chunks that are
    collected names get the scope appended, and the chunks are joined with
    single spaces again, so that every other sign of the value, also a tab,
    a line break or a second space in a row, stays where it is.  Every other
    declaration keeps its value. *)
Theorem declaration_rewrite (st : State) (s prop value : string) :
  truthyScope st = Some s ->
  (cssName prop = "animation-name" -> value ∈ animations st ->
     DeclarationVisit st prop value false = (concat value s, true))
  /\ (cssName prop = "animation-name" -> value ∉ animations st ->
        DeclarationVisit st prop value false = (value, true))
  /\ (cssName prop = "animation" ->
        DeclarationVisit st prop value false
        = (join (map (fun chunk => if has (animations st) chunk
                                   then concat chunk s else chunk)
                     (split value)), true))
  /\ (cssName prop = "animation" ->
        List.Forall (fun chunk => chunk ∉ animations st) (split value) ->
        DeclarationVisit st prop value false = (value, true))
  /\ (cssName prop <> "animation-name" -> cssName prop <> "animation" ->
        DeclarationVisit st prop value false = (value, true))
  /\ join (split value) = value
  /\ List.Forall (fun chunk => occurs " " chunk = false) (split value)
  /\ (forall w rest, w <> "" -> wordOnly w = true ->
        cssName ("-" +:+ w +:+ "-" +:+ rest) = rest)
  /\ (forall c rest, c <> "-"%char -> cssName (String c rest) = String c rest).
Proof.
  intros Hs.
  assert (Hshort : cssName prop = "animation" ->
            DeclarationVisit st prop value false
            = (join (map (fun chunk => if has (animations st) chunk
                                       then concat chunk s else chunk)
                         (split value)), true)).
  { intros Hp. unfold DeclarationVisit. by rewrite Hs, Hp. }
  repeat apply conj.
  - intros Hp Hv%has_true. unfold DeclarationVisit. by rewrite Hs, Hp, Hv.
  - intros Hp Hv%has_false. unfold DeclarationVisit. by rewrite Hs, Hp, Hv.
  - exact Hshort.
  - intros Hp Hnone. rewrite (Hshort Hp). f_equal.
    rewrite map_id_on; [apply join_split|].
    eapply List.Forall_impl; [|exact Hnone]. intros chunk Hc%has_false. by rewrite Hc.
  - intros Hn Hn'. unfold DeclarationVisit. rewrite Hs.
    destruct (String.eqb_spec (cssName prop) "animation-name"); [done|].
    destruct (String.eqb_spec (cssName prop) "animation"); [done|]. reflexivity.
  - apply join_split.
  - apply split_no_space.
  - apply cssName_prefixed.
  - apply cssName_plain.
Qed.

Lemma declaration_rewrite_witness :
  DeclarationVisit (mkState (Some "s") {[ "spin" ]}) "-webkit-animation"
    "spin 1s  ease" false
  = ("spin-s 1s  ease", true).
Proof.
  exact (proj1 (proj2 (proj2 (declaration_rewrite
           (mkState (Some "s") {[ "spin" ]}) "s" "-webkit-animation" "spin 1s  ease"
           eq_refl))) eq_refl).
Defined.

(** C8 as stated fails: a collected name followed by a tab is a token of
    the value split on white space, and the value stays as it is. *)
Lemma shorthand_split_on_space_only :
  let st := mkState (Some "s") {[ "spin" ]} in
  let value := "spin" +:+ String "009" "1s" in
  whitespaceTokens value = ["spin"; "1s"]
  /\ shorthandSplitOnWhitespace st "s" value = "spin-s 1s"
  /\ DeclarationVisit st "animation" value false = (value, true)
  /\ fst (DeclarationVisit st "animation" value false)
     <> shorthandSplitOnWhitespace st "s" value.
Proof. vm_compute. repeat split. discriminate. Qed.


(** ** The pass, unfolded *)

Section Pass.
Variable parse : string -> Sel.Node.

Lemma walk_st_AtRule options st parent name params nodes processed :
  walk_st parse options st parent (AtRule name params nodes processed)
  = (AtRuleExit st (Some parent) name params
       (fst (walkNodes_st parse options st (AtRuleC name params) nodes)) processed,
     snd (walkNodes_st parse options st (AtRuleC name params) nodes)).
Proof.
  cbn [walk_st].
  match goal with
  | |- (let '(_, _) := ?f nodes options in _) = _ =>
      enough (H : forall l o, f l o = walkNodes_st parse o st (AtRuleC name params) l)
        by (rewrite H; by destruct (walkNodes_st _ _ _ _ _))
  end.
  intros l. induction l as [|child l IH]; intros o; [done|].
  cbn [walkNodes_st]. destruct (walk_st parse o st _ child) as [r o1].
  by rewrite IH.
Qed.

Lemma walk_st_Rule options st parent selectors nodes processed :
  walk_st parse options st parent (Rule selectors nodes processed)
  = let '(selectors', processed', options') :=
      RuleVisit_st parse options st (Some parent) selectors processed in
    ([Rule selectors' (fst (walkNodes_st parse options' st RuleC nodes)) processed'],
     snd (walkNodes_st parse options' st RuleC nodes)).
Proof.
  cbn [walk_st].
  destruct (RuleVisit_st parse options st (Some parent) selectors processed)
    as [[selectors' processed'] options'].
  match goal with
  | |- (let '(_, _) := ?f nodes options' in _) = _ =>
      enough (H : forall l o, f l o = walkNodes_st parse o st RuleC l)
        by (rewrite H; by destruct (walkNodes_st _ _ _ _ _))
  end.
  intros l. induction l as [|child l IH]; intros o; [done|].
  cbn [walkNodes_st]. destruct (walk_st parse o st _ child) as [r o1].
  by rewrite IH.
Qed.

Lemma walk_AtRule options st parent name params nodes processed :
  walk parse options st parent (AtRule name params nodes processed)
  = AtRuleExit st (Some parent) name params
      (walkNodes parse options st (AtRuleC name params) nodes) processed.
Proof. unfold walk. by rewrite walk_st_AtRule. Qed.

Lemma walkNodes_st_cons options st parent child nodes :
  walkNodes_st parse options st parent (child :: nodes)
  = (walk parse options st parent child
     ++ walkNodes parse (snd (walk_st parse options st parent child)) st parent nodes,
     snd (walkNodes_st parse (snd (walk_st parse options st parent child)) st parent nodes)).
Proof.
  cbn [walkNodes_st]. unfold walk, walkNodes.
  destruct (walk_st parse options st parent child) as [r o1]. cbn [fst snd].
  by destruct (walkNodes_st parse o1 st parent nodes).
Qed.

(** A property of the results of the pass that holds for every node under
    all options holds for the children walked one after the other. *)
Lemma walkNodes_flat_map {B} (f : ChildNode -> list B) st nodes :
  List.Forall (fun node => forall options parent,
                 flat_map f (walk parse options st parent node) = f node) nodes ->
  forall options parent,
    flat_map f (walkNodes parse options st parent nodes) = flat_map f nodes.
Proof.
  induction 1 as [|child nodes Hchild _ IH]; intros options parent; [done|].
  unfold walkNodes. rewrite walkNodes_st_cons. cbn [fst flat_map].
  by rewrite flat_map_app, Hchild, IH.
Qed.

Lemma walkNodes_same st nodes :
  List.Forall (fun node => forall options parent,
                 walk_st parse options st parent node = ([node], options)) nodes ->
  forall options parent,
    walkNodes_st parse options st parent nodes = (nodes, options).
Proof.
  induction 1 as [|child nodes Hchild _ IH]; intros options parent; [done|].
  cbn [walkNodes_st]. by rewrite Hchild, IH.
Qed.

Lemma RuleVisit_st_marker options st s parent selectors processed :
  truthyScope st = Some s ->
  snd (fst (RuleVisit_st parse options st parent selectors processed)) = true.
Proof.
  intros Hst. unfold RuleVisit_st. rewrite Hst. destruct processed; [done|].
  assert (Ho : snd (fst (let '(selectors0, options0) :=
                           processSync_st parse options s selectors in
                         (selectors0, true, options0))) = true)
    by (by destruct (processSync_st parse options s selectors)).
  destruct parent as [p|]; [|exact Ho].
  destruct (isKeyframe p); [done|].
  destruct (getMediaScope p); [|exact Ho].
  destruct (classScope options); try done.
  destruct (_ && _); [|done].
  by destruct (scopeClassNamesInRule_st _ _ _).
Qed.

Lemma RuleVisit_st_skip options st parent selectors processed :
  truthyScope st = None \/ processed = true ->
  RuleVisit_st parse options st parent selectors processed
  = (selectors, processed, options).
Proof.
  unfold RuleVisit_st. intros [-> | ->]; [done|]. by destruct (truthyScope st).
Qed.



End Pass.

(** The separator of [concat]. *)
Lemma concat_underscore name suffix :
  concat name (String "_" suffix) = name +:+ String "_" suffix.
Proof. reflexivity. Qed.

Lemma concat_hyphen name suffix :
  concat name (String "-" suffix) = name +:+ String "-" suffix.
Proof. reflexivity. Qed.

Lemma concat_other name c suffix :
  c <> "_"%char -> c <> "-"%char ->
  concat name (String c suffix) = name +:+ "-" +:+ String c suffix.
Proof.
  intros H1 H2. unfold concat.
  destruct c as [[] [] [] [] [] [] [] []]; try reflexivity; by destruct H1 || by destruct H2.
Qed.




(** C4 (as amended).  At the start of the pass the set of animation names
    holds exactly the parameters of the keyframes at-rules whose parent is
    not a boundary tagged [global].  At its exit a keyframes at-rule so
    collected gets the scope appended to its parameters by the
    concatenation rule (a hyphen comes between the two unless the scope
    starts with an underscore or a hyphen), unless its own parameters
    contain the bare word [local] or [global]; a keyframes at-rule whose
    parent is tagged [global] and whose own parameters contain neither word
    keeps its parameters, and a declaration value is renamed when it is in
    the set and only then.  So [@keyframes spin] and [animation-name: spin]
    become [spin-s], and with the keyframes inside [@media global] nothing
    is renamed. *)
Theorem keyframes_collected (options : Options) (root : list ChildNode) (s : string) :
  Css.scope options = Some s -> s <> "" ->
  let st := Once options root in
  (forall x, x ∈ animations st
             <-> exists parent name,
                   In (parent, name, x) (atRulesOf root)
                   /\ isKeyframe (AtRuleC name x) = true
                   /\ isGlobal (getMediaScope parent) = false)
  /\ (forall parent name params nodes,
        isKeyframe (AtRuleC name params) = true ->
        getMediaScope (AtRuleC name params) = None ->
        (isGlobal (getMediaScope parent) = false ->
           AtRuleExit st (Some parent) name params nodes false
           = [AtRule name (concat params s) nodes true])
        /\ (isGlobal (getMediaScope parent) = true ->
              AtRuleExit st (Some parent) name params nodes false
              = [AtRule name params nodes true]))
  /\ (forall prop value,
        cssName prop = "animation-name" ->
        (value ∈ animations st ->
           DeclarationVisit st prop value false = (concat value s, true))
        /\ (value ∉ animations st ->
              DeclarationVisit st prop value false = (value, true)))
  /\ (forall name, concat name s <> name)
  /\ (forall name c rest, s = String c rest ->
        (c = "_"%char \/ c = "-"%char -> concat name s = name +:+ s)
        /\ (c <> "_"%char -> c <> "-"%char -> concat name s = name +:+ "-" +:+ s))
  /\ run simpleParser (mkOptions (Some s) Sel.ClassScopeAbsent)
       [AtRule "keyframes" "spin" [Rule ["from"] [] false] false;
        Rule ["a"] [Declaration "animation-name" "spin" false] false]
     = [AtRule "keyframes" (concat "spin" s) [Rule ["from"] [] true] true;
        Rule [Sel.toString (Sel.selector [Sel.tag "a"; Sel.scopeElement s])]
          [Declaration "animation-name" (concat "spin" s) true] true]
  /\ run simpleParser (mkOptions (Some s) Sel.ClassScopeAbsent)
       [AtRule "media" "global"
          [AtRule "keyframes" "spin" [Rule ["from"] [] false] false] false;
        Rule ["a"] [Declaration "animation-name" "spin" false] false]
     = [AtRule "keyframes" "spin" [Rule ["from"] [] true] true;
        Rule [Sel.toString (Sel.selector [Sel.tag "a"; Sel.scopeElement s])]
          [Declaration "animation-name" "spin" true] true]
  /\ run simpleParser (mkOptions (Some "s") Sel.ClassScopeAbsent)
       [AtRule "keyframes" "spin" [Rule ["from"] [] false] false;
        Rule ["a"] [Declaration "animation-name" "spin" false] false]
     = [AtRule "keyframes" "spin-s" [Rule ["from"] [] true] true;
        Rule ["a[s]"] [Declaration "animation-name" "spin-s" true] true]
  /\ run simpleParser (mkOptions (Some "_s") Sel.ClassScopeAbsent)
       [AtRule "keyframes" "spin" [] false;
        Rule ["a"] [Declaration "animation-name" "spin" false;
                    Declaration "animation-name" "turn" false] false]
     = [AtRule "keyframes" "spin_s" [] true;
        Rule ["a[_s]"] [Declaration "animation-name" "spin_s" true;
                        Declaration "animation-name" "turn" true] true].
Proof.
  intros Hs Hne st.
  pose proof (Once_truthy options root s Hs Hne) as Hst. fold st in Hst.
  repeat apply conj.
  - intros x. unfold st. rewrite (Once_animations _ _ _ _ Hs Hne).
    unfold isRewriteableKeyframe. split.
    + intros (p & name & Hin & [Hk Hg%negb_true_iff]%andb_true_iff). eauto.
    + intros (p & name & Hin & Hk & Hg). exists p, name. by rewrite Hk, Hg.
  - intros parent name params nodes Hk Hm.
    split; intros Hg; unfold AtRuleExit, isRewriteableKeyframe;
      by rewrite Hst, Hm, Hk, Hg.
  - intros prop value Hp. split.
    + intros Hv%has_true. unfold DeclarationVisit. by rewrite Hst, Hp, Hv.
    + intros Hv%has_false. unfold DeclarationVisit. by rewrite Hst, Hp, Hv.
  - intros name Heq. pose proof (concat_length name s Hne) as Hlen.
    rewrite Heq in Hlen. lia.
  - intros name c rest ->. split.
    + by intros [-> | ->].
    + apply concat_other.
  - destruct s as [|c s']; [done|]. vm_compute. reflexivity.
  - destruct s as [|c s']; [done|]. vm_compute. reflexivity.
  - vm_compute. reflexivity.
  - vm_compute. reflexivity.
Qed.

Lemma keyframes_collected_witness :
  "spin" ∈ animations
    (Once (mkOptions (Some "s") Sel.ClassScopeAbsent)
       [AtRule "media" "local" [AtRule "keyframes" "spin" [] false] false])
  /\ AtRuleExit
       (Once (mkOptions (Some "s") Sel.ClassScopeAbsent)
          [AtRule "media" "local" [AtRule "keyframes" "spin" [] false] false])
       (Some (AtRuleC "media" "local")) "keyframes" "spin" [] false
     = [AtRule "keyframes" "spin-s" [] true].
Proof.
  split.
  - apply (proj1 (keyframes_collected (mkOptions (Some "s") Sel.ClassScopeAbsent)
                    [AtRule "media" "local" [AtRule "keyframes" "spin" [] false] false]
                    "s" eq_refl ltac:(discriminate))).
    exists (AtRuleC "media" "local"), "keyframes".
    split; [right; left; reflexivity|split; reflexivity].
  - exact (proj1 (proj1 (proj2 (keyframes_collected
             (mkOptions (Some "s") Sel.ClassScopeAbsent)
             [AtRule "media" "local" [AtRule "keyframes" "spin" [] false] false]
             "s" eq_refl ltac:(discriminate)))
             (AtRuleC "media" "local") "keyframes" "spin" [] eq_refl eq_refl) eq_refl).
Defined.

(** C4 as stated fails: a keyframes at-rule nested two levels inside
    [@media global] is collected, and renamed with the declarations that
    name it; [@keyframes local] is collected and not renamed; and a name
    declared inside [@media global] and outside of it is renamed in the
    declarations. *)
Lemma nested_keyframes_collected :
  let options := mkOptions (Some "s") Sel.ClassScopeAbsent in
  let root :=
    [AtRule "media" "global"
       [AtRule "supports" "(x)"
          [AtRule "keyframes" "spin" [Rule ["from"] [] false] false] false] false;
     Rule ["a"] [Declaration "animation-name" "spin" false] false] in
  getMediaScope (AtRuleC "media" "global") = Some "global"
  /\ "spin" ∈ animations (Once options root)
  /\ run simpleParser options root
     = [AtRule "supports" "(x)"
          [AtRule "keyframes" "spin-s" [Rule ["from"] [] true] true] true;
        Rule ["a[s]"] [Declaration "animation-name" "spin-s" true] true]
  /\ "local" ∈ animations (Once options [AtRule "keyframes" "local" [] false])
  /\ run simpleParser options [AtRule "keyframes" "local" [] false] = []
  /\ run simpleParser options
       [AtRule "keyframes" "spin" [] false;
        AtRule "media" "global" [AtRule "keyframes" "spin" [] false] false;
        Rule ["a"] [Declaration "animation-name" "spin" false] false]
     = [AtRule "keyframes" "spin-s" [] true;
        AtRule "keyframes" "spin" [] true;
        Rule ["a[s]"] [Declaration "animation-name" "spin-s" true] true].
Proof.
  split; [reflexivity|].
  split; [apply has_true; vm_compute; reflexivity|].
  split; [vm_compute; reflexivity|].
  split; [apply has_true; vm_compute; reflexivity|].
  split; vm_compute; reflexivity.
Qed.


End CssFacts.
(** * Further facts about the stylesheet pass *)

Module CssProps.
Import Text TextFacts TextProps Css CssFacts.

(** ** Markers and the shape of the tree *)

Section Pass.
Variable parse : string -> Sel.Node.

Lemma flat_map_singletons {A} (f : A -> list A) l :
  List.Forall (fun x => f x = [x]) l -> flat_map f l = l.
Proof. induction 1 as [|x l Hx _ IH]; [done|]. cbn. by rewrite Hx, IH. Qed.

(** What the pass makes of the children comes from the children, each
    walked under some options. *)
Lemma walkNodes_In st nodes : forall options parent x,
  In x (walkNodes parse options st parent nodes) ->
  exists node options', In node nodes /\ In x (walk parse options' st parent node).
Proof.
  induction nodes as [|child nodes IH]; intros options parent x; [done|].
  unfold walkNodes. rewrite walkNodes_st_cons. cbn [fst].
  intros [H|H]%in_app_or.
  - exists child, options. split; [by left|done].
  - apply IH in H as (node & options' & Hin & Hx).
    exists node, options'. split; [by right|done].
Qed.

Lemma walk_st_no_scope st node :
  truthyScope st = None ->
  forall options parent, walk_st parse options st parent node = ([node], options).
Proof.
  intros Hst.
  induction node as [name params nodes processed IH|selectors nodes processed IH
                     |prop value processed|text] using ChildNode_ind';
    intros options parent.
  - rewrite walk_st_AtRule, (walkNodes_same parse st nodes IH). cbn [fst snd].
    unfold AtRuleExit. by rewrite Hst.
  - rewrite walk_st_Rule, RuleVisit_st_skip by auto.
    by rewrite (walkNodes_same parse st nodes IH).
  - cbn [walk_st]. unfold DeclarationVisit. by rewrite Hst.
  - done.
Qed.

Lemma walk_no_scope st node options parent :
  truthyScope st = None -> walk parse options st parent node = [node].
Proof. intros Hst. unfold walk. by rewrite walk_st_no_scope. Qed.

Lemma walk_st_processed st node :
  allProcessed node = true ->
  forall options parent, walk_st parse options st parent node = ([node], options).
Proof.
  induction node as [name params nodes processed IH|selectors nodes processed IH
                     |prop value processed|text] using ChildNode_ind';
    intros H options parent; cbn [allProcessed] in H.
  - apply andb_prop in H as [-> H]. rewrite forallb_forall in H.
    rewrite walk_st_AtRule, (walkNodes_same parse st nodes).
    + cbn [fst snd]. unfold AtRuleExit. by destruct (truthyScope st).
    + rewrite List.Forall_forall in IH |- *. intros x Hx. apply IH; auto.
  - apply andb_prop in H as [-> H]. rewrite forallb_forall in H.
    rewrite walk_st_Rule, RuleVisit_st_skip by auto.
    rewrite (walkNodes_same parse st nodes); [done|].
    rewrite List.Forall_forall in IH |- *. intros x Hx. apply IH; auto.
  - subst. cbn [walk_st]. unfold DeclarationVisit. by destruct (truthyScope st).
  - done.
Qed.

Lemma walk_processed st node options parent :
  allProcessed node = true -> walk parse options st parent node = [node].
Proof. intros H. unfold walk. by rewrite walk_st_processed. Qed.

Lemma walk_marks st s node :
  truthyScope st = Some s ->
  forall options parent,
    forallb allProcessed (walk parse options st parent node) = true.
Proof.
  intros Hst.
  induction node as [name params nodes processed IH|selectors nodes processed IH
                     |prop value processed|text] using ChildNode_ind';
    intros options parent.
  - assert (Hc : forallb allProcessed
                   (walkNodes parse options st (AtRuleC name params) nodes) = true).
    { apply forallb_forall. intros x (node & options' & Hin & Hx)%walkNodes_In.
      rewrite List.Forall_forall in IH. specialize (IH node Hin options' (AtRuleC name params)).
      rewrite forallb_forall in IH. by apply IH. }
    rewrite walk_AtRule. unfold AtRuleExit. rewrite Hst. destruct processed.
    + cbn. by rewrite Hc.
    + destruct (getMediaScope _).
      * destruct (String.eqb _ _); [done|]. cbn. by rewrite Hc.
      * destruct (isRewriteableKeyframe _ _ _); cbn; by rewrite Hc.
  - unfold walk. rewrite walk_st_Rule.
    pose proof (RuleVisit_st_marker parse options st s (Some parent) selectors processed Hst)
      as Hp.
    destruct (RuleVisit_st parse options st (Some parent) selectors processed)
      as [[sels p] options1]. cbn [fst snd] in Hp |- *. subst p.
    cbn [forallb allProcessed]. rewrite andb_true_r. cbn [andb].
    apply forallb_forall. intros x (node & options' & Hin & Hx)%walkNodes_In.
    rewrite List.Forall_forall in IH. specialize (IH node Hin options' RuleC).
    rewrite forallb_forall in IH. by apply IH.
  - unfold walk. cbn [walk_st].
    destruct (DeclarationVisit st prop value processed) as [v p] eqn:Hd.
    assert (p = true) as ->; [|done].
    revert Hd. unfold DeclarationVisit. rewrite Hst. destruct processed; [by intros [= _ <-]|].
    destruct (_ && _); [by intros [= _ <-]|].
    destruct (String.eqb _ _); by intros [= _ <-].
  - done.
Qed.

Lemma walk_items st node : forall options parent,
  flat_map items (walk parse options st parent node) = items node.
Proof.
  induction node as [name params nodes processed IH|selectors nodes processed IH
                     |prop value processed|text] using ChildNode_ind';
    intros options parent; cbn [items].
  - pose proof (walkNodes_flat_map parse items st nodes IH options (AtRuleC name params))
      as Hc.
    rewrite walk_AtRule. unfold AtRuleExit.
    destruct (truthyScope st); [|cbn; by rewrite Hc, app_nil_r].
    destruct processed; [cbn; by rewrite Hc, app_nil_r|].
    destruct (getMediaScope _).
    + destruct (String.eqb _ _); [done|]. cbn. by rewrite Hc, app_nil_r.
    + destruct (isRewriteableKeyframe _ _ _); cbn; by rewrite Hc, app_nil_r.
  - unfold walk. rewrite walk_st_Rule.
    destruct (RuleVisit_st _ _ _ _ _ _) as [[sels p] options1]. cbn.
    rewrite app_nil_r. f_equal.
    apply (walkNodes_flat_map parse items st nodes IH).
  - unfold walk. cbn [walk_st]. by destruct (DeclarationVisit _ _ _ _).
  - done.
Qed.
End Pass.

(** X6.  Without a scope the plugin changes nothing: when the scope option
    is undefined or the empty text, the stylesheet comes out of [Once] and
    the pass as it went in, markers included. *)
Theorem no_scope_no_change (parse : string -> Sel.Node) (classScope : Sel.ClassScope)
    (root : list ChildNode) :
  run parse (mkOptions None classScope) root = root
  /\ run parse (mkOptions (Some "") classScope) root = root.
Proof.
  split; unfold run, walkNodes;
    (rewrite walkNodes_same; [done|]); apply List.Forall_forall;
    intros node _; by apply walk_st_no_scope.
Qed.

(** X7.  A subtree whose at-rules, rules and declarations all carry the
    marker is left as it is by every visitor.  With a scope set, the pass
    leaves every node it lets stand marked, so visiting its result again,
    under any state, parent, parser or options, changes nothing. *)
Theorem marked_nodes_settle (parse : string -> Sel.Node) (options : Options)
    (st : State) (parent : Container) (node : ChildNode) :
  (allProcessed node = true -> walk parse options st parent node = [node])
  /\ (forall s, truthyScope st = Some s ->
        forallb allProcessed (walk parse options st parent node) = true)
  /\ (forall s (parse' : string -> Sel.Node) options' st' parent',
        truthyScope st = Some s ->
        flat_map (walk parse' options' st' parent') (walk parse options st parent node)
        = walk parse options st parent node)
  /\ (forall s (parse' : string -> Sel.Node) options' st' parent',
        truthyScope st = Some s ->
        walkNodes_st parse' options' st' parent' (walk parse options st parent node)
        = (walk parse options st parent node, options')).
Proof.
  split; [apply walk_processed|]. split; [intros s Hst; by eapply walk_marks|].
  split; intros s parse' options' st' parent' Hst;
    pose proof (walk_marks parse st s node Hst options parent) as H;
    rewrite forallb_forall in H.
  - apply flat_map_singletons, List.Forall_forall. intros n Hn.
    apply walk_processed. by apply H.
  - apply walkNodes_same, List.Forall_forall. intros n Hn options1 parent1.
    apply walk_st_processed. by apply H.
Qed.

Lemma marked_nodes_settle_witness :
  let options := mkOptions (Some "s") Sel.ClassScopeAbsent in
  let st := mkState (Some "s") {[ "spin" ]} in
  let node := AtRule "media" "local"
                [Rule ["a"] [Declaration "animation" "spin 1s" false] false] false in
  flat_map (walk simpleParser options st RootC) (walk simpleParser options st RootC node)
  = walk simpleParser options st RootC node.
Proof.
  exact (proj1 (proj2 (proj2 (marked_nodes_settle simpleParser
                         (mkOptions (Some "s") Sel.ClassScopeAbsent)
                         (mkState (Some "s") {[ "spin" ]}) RootC
                         (AtRule "media" "local"
                            [Rule ["a"] [Declaration "animation" "spin 1s" false] false]
                            false))))
           "s" simpleParser (mkOptions (Some "s") Sel.ClassScopeAbsent)
           (mkState (Some "s") {[ "spin" ]}) RootC eq_refl).
Defined.

(** X8.  The pass drops, adds and reorders no rule, declaration or comment:
    the rules, the property names of the declarations and the comments of a
    subtree, read in document order, are the same before and after, also
    where a boundary at-rule is replaced by its children. *)
Theorem pass_keeps_items (parse : string -> Sel.Node) (options : Options)
    (st : State) (parent : Container) (node : ChildNode) (root : list ChildNode) :
  flat_map items (walk parse options st parent node) = items node
  /\ flat_map items (run parse options root) = flat_map items root.
Proof.
  split; [apply walk_items|].
  unfold run. apply walkNodes_flat_map, List.Forall_forall.
  intros n _. apply walk_items.
Qed.

(** ** Names *)

(** X1.  [cssName] removes at most one leading vendor prefix: a name is
    either returned as it is, and is then not of the form [-word-rest] with
    a non-empty word of letters, digits and underscores, or it is of that
    form and the rest is returned.  So the at-rules treated as keyframes are
    those named [keyframes] or [-word-keyframes]. *)
Theorem vendor_prefix_stripped (propName params : string) :
  ((cssName propName = propName
    /\ forall w rest, w <> "" -> wordOnly w = true ->
                      propName <> "-" +:+ w +:+ "-" +:+ rest)
   \/ (exists w, w <> "" /\ wordOnly w = true
                 /\ propName = "-" +:+ w +:+ "-" +:+ cssName propName))
  /\ (isKeyframe (AtRuleC propName params) = true
      <-> propName = "keyframes"
          \/ exists w, w <> "" /\ wordOnly w = true
                       /\ propName = "-" +:+ w +:+ "-keyframes").
Proof.
  split; [apply cssName_shape|].
  unfold isKeyframe. rewrite String.eqb_eq. split.
  - intros Hk. destruct (cssName_shape propName) as [[Hs _]|(w & Hw & Hword & Hp)].
    + left. congruence.
    + right. exists w. rewrite Hk in Hp. done.
  - intros [->|(w & Hw & Hword & ->)]; [reflexivity|].
    by apply cssName_prefixed.
Qed.

(** X2.  The renaming [concat] keeps names apart and recognisable: for one
    suffix, two names with the same result are the same name; the result
    starts with the name, is longer than it, and is the name, an optional
    hyphen and the suffix. *)
Theorem renaming_keeps_names_apart (suffix : string) :
  (forall a b, concat a suffix = concat b suffix -> a = b)
  /\ (forall name, startsWith name (concat name suffix) = true)
  /\ (forall name, String.length name < String.length (concat name suffix))
  /\ (exists sep, (sep = "" \/ sep = "-")
                  /\ forall name, concat name suffix = name +:+ sep +:+ suffix).
Proof.
  split; [intros a b; apply concat_injective|].
  split; [intros name; destruct (concat_sep suffix) as (sep & _ & H);
          rewrite H; apply startsWith_append|].
  split; [|apply concat_sep].
  intros name. unfold concat.
  destruct suffix as [|c s].
  - rewrite !length_append. cbn. lia.
  - rewrite !length_append. cbn [String.length]. lia.
Qed.

(** X3.  The shorthand rewrite works chunk by chunk and keeps the spacing:
    when the scope holds no space, the rewritten value of an [animation]
    declaration splits at the spaces into the chunks of the old value, each
    collected name renamed and every other chunk as it was, and it holds as
    many spaces as the old value. *)
Theorem shorthand_chunkwise (st : State) (s prop value : string) :
  truthyScope st = Some s -> cssName prop = "animation" -> occurs " " s = false ->
  split (fst (DeclarationVisit st prop value false))
  = map (fun chunk => if has (animations st) chunk then concat chunk s else chunk)
        (split value)
  /\ countSpaces (fst (DeclarationVisit st prop value false)) = countSpaces value.
Proof.
  intros Hst Hprop Hs.
  set (rename := fun chunk => if has (animations st) chunk then concat chunk s else chunk).
  assert (Hv : fst (DeclarationVisit st prop value false) = join (map rename (split value))).
  { unfold DeclarationVisit. rewrite Hst, Hprop. reflexivity. }
  assert (Hsplit : split (join (map rename (split value))) = map rename (split value)).
  { apply split_join_chunks.
    - pose proof (split_nonempty value). by destruct (split value).
    - rewrite List.Forall_map. eapply List.Forall_impl; [|apply split_no_space].
      intros chunk Hc. cbn beta. unfold rename.
      destruct (has (animations st) chunk); [by apply concat_no_space|done]. }
  rewrite Hv. split; [exact Hsplit|].
  by rewrite !countSpaces_split, Hsplit, length_map.
Qed.

Lemma shorthand_chunkwise_witness :
  split (fst (DeclarationVisit (mkState (Some "s") {[ "spin" ]}) "-webkit-animation"
                "spin 1s  spin" false))
  = ["spin-s"; "1s"; ""; "spin-s"]
  /\ countSpaces (fst (DeclarationVisit (mkState (Some "s") {[ "spin" ]})
                         "-webkit-animation" "spin 1s  spin" false))
     = 3.
Proof.
  exact (shorthand_chunkwise (mkState (Some "s") {[ "spin" ]}) "s" "-webkit-animation"
           "spin 1s  spin" eq_refl eq_refl eq_refl).
Defined.

(** X24.  The rules of a keyframes at-rule keep their selectors: under an
    at-rule named [keyframes] or [-word-keyframes] the [Rule] visitor leaves
    the selectors of a rule as they are, whatever the parameters of the
    at-rule, the state and the options; it sets the marker where the scope
    is set. *)
Theorem keyframe_steps_untouched (parse : string -> Sel.Node) (options : Options)
    (st : State) (name params : string) (selectors : list string)
    (nodes : list ChildNode) (processed : bool) :
  (name = "keyframes"
   \/ exists w, w <> "" /\ wordOnly w = true /\ name = "-" +:+ w +:+ "-keyframes") ->
  walk parse options st (AtRuleC name params) (Rule selectors nodes processed)
  = [Rule selectors (walkNodes parse options st RuleC nodes)
       (processed || bool_decide (is_Some (truthyScope st)))].
Proof.
  intros Hname.
  assert (Hk : isKeyframe (AtRuleC name params) = true).
  { unfold isKeyframe. apply String.eqb_eq.
    destruct Hname as [->|(w & Hw & Hword & ->)]; [reflexivity|].
    by apply cssName_prefixed. }
  unfold walk. rewrite walk_st_Rule. unfold RuleVisit_st. rewrite Hk.
  destruct (truthyScope st) as [s|]; destruct processed; reflexivity.
Qed.

Lemma keyframe_steps_untouched_witness :
  walk simpleParser
    (mkOptions (Some "s")
       (Sel.ClassScopeObject (Sel.mkClassScopeOptions None (Some "_s") None None false)))
    (mkState (Some "s") ∅) (AtRuleC "-webkit-keyframes" "local")
    (Rule [".from"] [] false)
  = [Rule [".from"] [] true].
Proof.
  refine (keyframe_steps_untouched simpleParser
            (mkOptions (Some "s")
               (Sel.ClassScopeObject
                  (Sel.mkClassScopeOptions None (Some "_s") None None false)))
            (mkState (Some "s") ∅) "-webkit-keyframes" "local" [".from"] [] false _).
  right. exists "webkit". repeat split. discriminate.
Defined.

(** ** Boundaries *)

(** X4.  [getMediaScope] finds the bare word as a whole word only: a result
    is [local] or [global] and stands in the parameters with no [\w] sign
    right before it and none right behind it; and there is no result
    exactly when every occurrence of [local] or [global] in the parameters
    has a [\w] sign right before or right behind it. *)
Theorem media_scope_whole_word (name params : string) :
  (forall tok, getMediaScope (AtRuleC name params) = Some tok ->
     isToken tok
     /\ exists pre post, params = pre +:+ tok +:+ post
                         /\ lastIsWord pre = false /\ wordAt post = false)
  /\ (getMediaScope (AtRuleC name params) = None
      <-> forall pre tok post, isToken tok -> params = pre +:+ tok +:+ post ->
                               lastIsWord pre = true \/ wordAt post = true).
Proof.
  cbn [getMediaScope]. unfold lastIsWord.
  split; [intros tok; apply matchMediaScope_sound|]. split.
  - intros Hnone pre tok post Htok ->.
    destruct (lastIsWord pre) eqn:Hp; [by left|].
    destruct (wordAt post) eqn:Hw; [by right|].
    by destruct (matchMediaScope_complete pre false tok post Htok Hp Hw).
  - intros H. destruct (matchMediaScope false params) as [tok|] eqn:Hm; [|done].
    apply matchMediaScope_sound in Hm as (Htok & pre & post & Hparams & Hp & Hw).
    destruct (H pre tok post Htok Hparams); congruence.
Qed.

Lemma media_scope_whole_word_witness :
  (isToken "global"
   /\ exists pre post, "localhost and global" = pre +:+ "global" +:+ post
                       /\ lastIsWord pre = false /\ wordAt post = false)
  /\ (lastIsWord "" = true \/ wordAt "host" = true).
Proof.
  split.
  - exact (proj1 (media_scope_whole_word "media" "localhost and global") "global" eq_refl).
  - exact (proj1 (proj2 (media_scope_whole_word "media" "localhost")) eq_refl
             "" "local" "host" (or_introl eq_refl) eq_refl).
Defined.

(** X5.  Stripping the boundary word never makes the parameters longer, and
    it leaves them as they are exactly when neither [local] nor [global]
    occurs in them; so the at-rule of a boundary that is not the bare word
    alone stays, with parameters that are shorter than before. *)
Theorem boundary_word_stripped (params : string) :
  (stripMediaScope params = params <-> containsToken params = false)
  /\ String.length (stripMediaScope params) <= String.length params
  /\ (forall st s parent name nodes tok,
        truthyScope st = Some s ->
        getMediaScope (AtRuleC name params) = Some tok -> tok <> params ->
        AtRuleExit st parent name params nodes false
        = [AtRule name (stripMediaScope params) nodes true]
        /\ String.length (stripMediaScope params) < String.length params).
Proof.
  split; [|split; [apply replaceAll_length|]].
  - split; [|apply replaceAll_clean].
    intros H. destruct (containsToken params) eqn:Hc; [|done].
    apply replaceAll_shrinks in Hc. unfold stripMediaScope in H. rewrite H in Hc. lia.
  - intros st s parent name nodes tok Hst Hm Hne. split.
    + unfold AtRuleExit. rewrite Hst, Hm.
      apply String.eqb_neq in Hne. by rewrite Hne.
    + apply replaceAll_shrinks. by apply matchMediaScope_containsToken in Hm.
Qed.

Lemma boundary_word_stripped_witness :
  AtRuleExit (mkState (Some "s") ∅) (Some RootC) "media" "local and (min-width: 1px)"
    [] false
  = [AtRule "media" (stripMediaScope "local and (min-width: 1px)") [] true]
  /\ String.length (stripMediaScope "local and (min-width: 1px)")
     < String.length "local and (min-width: 1px)".
Proof.
  refine (proj2 (proj2 (boundary_word_stripped "local and (min-width: 1px)"))
            (mkState (Some "s") ∅) "s" (Some RootC) "media" [] "local" eq_refl eq_refl _).
  discriminate.
Defined.

(** X10.  An at-rule that is no keyframes at-rule and whose parameters hold
    neither [local] nor [global] is only marked: its name and parameters
    stay, and its children are what the pass makes of them. *)
Theorem ordinary_at_rule_only_marked (parse : string -> Sel.Node) (options : Options)
    (st : State) (s : string) (parent : Container) (name params : string)
    (nodes : list ChildNode) :
  truthyScope st = Some s -> containsToken params = false ->
  cssName name <> "keyframes" ->
  AtRuleExit st (Some parent) name params nodes false = [AtRule name params nodes true]
  /\ walk parse options st parent (AtRule name params nodes false)
     = [AtRule name params (walkNodes parse options st (AtRuleC name params) nodes)
          true].
Proof.
  intros Hst Hc Hk.
  assert (H : forall ns, AtRuleExit st (Some parent) name params ns false
                         = [AtRule name params ns true]).
  { intros ns. unfold AtRuleExit. rewrite Hst.
    destruct (getMediaScope (AtRuleC name params)) as [tok|] eqn:Hm.
    - apply matchMediaScope_containsToken in Hm. congruence.
    - unfold isRewriteableKeyframe, isKeyframe.
      apply String.eqb_neq in Hk. by rewrite Hk. }
  split; [apply H|]. rewrite walk_AtRule. apply H.
Qed.

Lemma ordinary_at_rule_only_marked_witness :
  walk simpleParser (mkOptions (Some "s") Sel.ClassScopeAbsent) (mkState (Some "s") ∅)
    RootC (AtRule "media" "screen and (min-width: 100px)" [Rule ["a"] [] false] false)
  = [AtRule "media" "screen and (min-width: 100px)" [Rule ["a[s]"] [] true] true].
Proof.
  refine (proj2 (ordinary_at_rule_only_marked simpleParser
                   (mkOptions (Some "s") Sel.ClassScopeAbsent) (mkState (Some "s") ∅) "s"
                   RootC "media" "screen and (min-width: 100px)" [Rule ["a"] [] false]
                   eq_refl eq_refl _)).
  discriminate.
Defined.

(** ** Keyframes and the declarations that name them *)

(** X9.  A keyframes at-rule and the declarations that name it are renamed
    alike: for an at-rule of the stylesheet that is a rewriteable keyframes
    at-rule and no boundary, leaving the at-rule turns its name [x] into
    [concat x scope], an [animation-name] declaration with the value [x] gets
    that same value, and no other name is renamed to it. *)
Theorem keyframes_references_agree (options : Options) (root : list ChildNode)
    (s : string) (p : Container) (name x : string) (nodes : list ChildNode) :
  Css.scope options = Some s -> s <> "" ->
  In (p, name, x) (atRulesOf root) ->
  isRewriteableKeyframe (Some p) name x = true ->
  getMediaScope (AtRuleC name x) = None ->
  AtRuleExit (Once options root) (Some p) name x nodes false
  = [AtRule name (concat x s) nodes true]
  /\ (forall prop, cssName prop = "animation-name" ->
        DeclarationVisit (Once options root) prop x false = (concat x s, true))
  /\ (forall y, y <> x -> concat y s <> concat x s).
Proof.
  intros Hscope Hs Hin Hrw Hm.
  assert (Hst : truthyScope (Once options root) = Some s) by (by apply Once_truthy).
  assert (Hx : x ∈ animations (Once options root)).
  { apply (Once_animations options root s x Hscope Hs). eauto. }
  repeat split.
  - unfold AtRuleExit. by rewrite Hst, Hm, Hrw.
  - intros prop Hprop. unfold DeclarationVisit. rewrite Hst, Hprop.
    by rewrite (proj2 (has_true _ _) Hx).
  - intros y Hy E. by apply concat_injective in E.
Qed.

Lemma keyframes_references_agree_witness :
  let options := mkOptions (Some "s") Sel.ClassScopeAbsent in
  let root := [AtRule "-webkit-keyframes" "spin" [] false;
               Rule ["a"] [Declaration "animation-name" "spin" false] false] in
  AtRuleExit (Once options root) (Some RootC) "-webkit-keyframes" "spin" [] false
  = [AtRule "-webkit-keyframes" "spin-s" [] true]
  /\ (forall prop, cssName prop = "animation-name" ->
        DeclarationVisit (Once options root) prop "spin" false = ("spin-s", true))
  /\ (forall y, y <> "spin" -> concat y "s" <> "spin-s").
Proof.
  refine (keyframes_references_agree (mkOptions (Some "s") Sel.ClassScopeAbsent)
            [AtRule "-webkit-keyframes" "spin" [] false;
             Rule ["a"] [Declaration "animation-name" "spin" false] false]
            "s" RootC "-webkit-keyframes" "spin" [] eq_refl _ _ eq_refl eq_refl).
  - discriminate.
  - left. reflexivity.
Defined.

(** ** Stylesheets without keyframes *)

Lemma DeclarationVisit_no_names st prop value processed :
  (forall x, x ∉ animations st) ->
  fst (DeclarationVisit st prop value processed) = value.
Proof.
  intros H. unfold DeclarationVisit.
  destruct (truthyScope st); [|done]. destruct processed; [done|].
  rewrite (proj2 (has_false _ _) (H value)), andb_false_r.
  destruct (String.eqb _ _); [|done]. cbn [fst].
  rewrite map_id_on; [apply join_split|].
  apply List.Forall_forall. intros chunk _.
  by rewrite (proj2 (has_false _ _) (H chunk)).
Qed.

Lemma walk_declarations parse st node :
  (forall x, x ∉ animations st) ->
  forall options parent,
    flat_map declarations (walk parse options st parent node) = declarations node.
Proof.
  intros Hno.
  induction node as [name params nodes processed IH|selectors nodes processed IH
                     |prop value processed|text] using ChildNode_ind';
    intros options parent; cbn [declarations].
  - pose proof (walkNodes_flat_map parse declarations st nodes IH options
                  (AtRuleC name params)) as Hc.
    rewrite walk_AtRule. unfold AtRuleExit.
    destruct (truthyScope st); [|cbn; by rewrite Hc, app_nil_r].
    destruct processed; [cbn; by rewrite Hc, app_nil_r|].
    destruct (getMediaScope _).
    + destruct (String.eqb _ _); [done|]. cbn. by rewrite Hc, app_nil_r.
    + destruct (isRewriteableKeyframe _ _ _); cbn; by rewrite Hc, app_nil_r.
  - unfold walk. rewrite walk_st_Rule.
    destruct (RuleVisit_st _ _ _ _ _ _) as [[sels p] options1]. cbn.
    rewrite app_nil_r.
    apply (walkNodes_flat_map parse declarations st nodes IH).
  - unfold walk. cbn [walk_st].
    pose proof (DeclarationVisit_no_names st prop value processed Hno) as H.
    destruct (DeclarationVisit _ _ _ _) as [v p]. cbn in *. by subst.
  - done.
Qed.

(** X21.  A stylesheet none of whose at-rules is a rewriteable keyframes
    at-rule keeps every declaration with the value it had, in document
    order, whatever the scope and the options. *)
Theorem declarations_kept_without_keyframes (parse : string -> Sel.Node)
    (options : Options) (root : list ChildNode) :
  List.Forall (fun a => isRewriteableKeyframe (Some (a.1.1)) (a.1.2) (a.2) = false)
              (atRulesOf root) ->
  flat_map declarations (run parse options root) = flat_map declarations root.
Proof.
  intros H. unfold run. apply walkNodes_flat_map, List.Forall_forall. intros n _.
  apply walk_declarations. intros x Hx.
  unfold Once in Hx. destruct (Css.scope options) as [[|c s]|] eqn:Hs;
    try (cbn in Hx; set_solver).
  assert (Hx' : x ∈ animations (Once options root)).
  { unfold Once. by rewrite Hs. }
  apply (Once_animations options root (String c s) x Hs) in Hx'; [|done].
  destruct Hx' as (p & name & Hin & Hrw).
  rewrite List.Forall_forall in H. specialize (H _ Hin). cbn in H. congruence.
Qed.

Lemma declarations_kept_without_keyframes_witness :
  let root := [AtRule "media" "global"
                 [AtRule "keyframes" "spin" [] false;
                  Rule ["a"] [Declaration "animation" "spin 1s" false] false] false] in
  flat_map declarations
    (run simpleParser (mkOptions (Some "s") Sel.ClassScopeAbsent) root)
  = [("animation", "spin 1s")].
Proof.
  refine (declarations_kept_without_keyframes simpleParser
            (mkOptions (Some "s") Sel.ClassScopeAbsent)
            [AtRule "media" "global"
               [AtRule "keyframes" "spin" [] false;
                Rule ["a"] [Declaration "animation" "spin 1s" false] false] false] _).
  repeat constructor.
Defined.

End CssProps.

(** * Further facts about the selector rewriting *)

Module SelProps.
Import Sel SelFacts.

(** ** Compound selectors *)

Lemma getCompound_from_spec ns : forall i part q,
  In q (getCompound_from i part ns) <->
  i <= q /\ exists node, ns !! (q - i) = Some node /\ isCompoundBoundary node = false
    /\ (if q =? i then part = false
        else exists prev, ns !! (q - i - 1) = Some prev /\ isCompoundBoundary prev = true).
Proof.
  induction ns as [|n ns IH]; intros i part q.
  - cbn. split; [done|]. by intros (_ & node & H & _).
  - cbn [getCompound_from].
    assert (Hrec : forall part',
      In q (getCompound_from (S i) part' ns) <->
      i < q /\ exists node, (n :: ns) !! (q - i) = Some node
        /\ isCompoundBoundary node = false
        /\ (if q =? S i then part' = false
            else exists prev, (n :: ns) !! (q - i - 1) = Some prev
                              /\ isCompoundBoundary prev = true)).
    { intros part'. rewrite IH. split.
      - intros (Hle & node & Hn & Hb & Hp). split; [lia|]. exists node.
        replace (q - i) with (S (q - S i)) by lia. split; [done|]. split; [done|].
        destruct (q =? S i) eqn:E; [done|]. apply Nat.eqb_neq in E.
        destruct Hp as (prev & Hp & Hpb). exists prev.
        replace (S (q - S i) - 1) with (S (q - S i - 1)) by lia. done.
      - intros (Hlt & node & Hn & Hb & Hp). split; [lia|]. exists node.
        replace (q - i) with (S (q - S i)) in Hn, Hp by lia. split; [done|]. split; [done|].
        destruct (q =? S i) eqn:E; [done|]. apply Nat.eqb_neq in E.
        destruct Hp as (prev & Hp & Hpb). exists prev.
        replace (S (q - S i) - 1) with (S (q - S i - 1)) in Hp by lia. done. }
    destruct (isCompoundBoundary n) eqn:Hn.
    + rewrite Hrec. split.
      * intros (Hlt & node & Hq & Hb & Hp). split; [lia|]. exists node.
        split; [done|]. split; [done|].
        destruct (q =? i) eqn:E; [apply Nat.eqb_eq in E; lia|].
        destruct (q =? S i) eqn:E'; [|done].
        apply Nat.eqb_eq in E'. subst q. exists n.
        replace (S i - i - 1) with 0 by lia. done.
      * intros (Hle & node & Hq & Hb & Hp).
        destruct (q =? i) eqn:E.
        { apply Nat.eqb_eq in E. subst q. rewrite Nat.sub_diag in Hq.
          cbn in Hq. congruence. }
        apply Nat.eqb_neq in E. split; [lia|]. exists node.
        split; [done|]. split; [done|].
        destruct (q =? S i) eqn:E'; done.
    + destruct part.
      * rewrite Hrec. split.
        -- intros (Hlt & node & Hq & Hb & Hp). split; [lia|]. exists node.
           split; [done|]. split; [done|].
           destruct (q =? i) eqn:E; [apply Nat.eqb_eq in E; lia|].
           destruct (q =? S i) eqn:E'; [discriminate|done].
        -- intros (Hle & node & Hq & Hb & Hp).
           destruct (q =? i) eqn:E; [discriminate|].
           apply Nat.eqb_neq in E. split; [lia|]. exists node.
           split; [done|]. split; [done|].
           destruct (q =? S i) eqn:E'; [|done].
           apply Nat.eqb_eq in E'. subst q. destruct Hp as (prev & Hp & Hpb).
           replace (S i - i - 1) with 0 in Hp by lia. cbn in Hp. congruence.
      * cbn [In]. rewrite Hrec. split.
        -- intros [<-|(Hlt & node & Hq & Hb & Hp)].
           ++ split; [lia|]. exists n. rewrite Nat.sub_diag, Nat.eqb_refl. done.
           ++ split; [lia|]. exists node. split; [done|]. split; [done|].
              destruct (q =? i) eqn:E; [apply Nat.eqb_eq in E; lia|].
              destruct (q =? S i) eqn:E'; [discriminate|done].
        -- intros (Hle & node & Hq & Hb & Hp).
           destruct (q =? i) eqn:E; [apply Nat.eqb_eq in E; by left|].
           apply Nat.eqb_neq in E. right. split; [lia|]. exists node.
           split; [done|]. split; [done|].
           destruct (q =? S i) eqn:E'; [|done].
           apply Nat.eqb_eq in E'. subst q. destruct Hp as (prev & Hp & Hpb).
           replace (S i - i - 1) with 0 in Hp by lia. cbn in Hp. congruence.
Qed.


(** X11.  [getCompound] returns, in increasing order, exactly the positions
    where a compound selector starts: the positions of the children that
    are no combinator and that stand first in the selector or right behind
    a combinator.  A selector without children, or of combinators only, has
    none. *)
Theorem compound_starts (sel : Node) :
  (forall q, In q (getCompound sel) <->
     exists node, at_ sel q = Some node /\ isCompoundBoundary node = false
       /\ (q = 0 \/ exists prev, 0 < q /\ at_ sel (q - 1) = Some prev
                                  /\ isCompoundBoundary prev = true))
  /\ StronglySorted lt (getCompound sel)
  /\ (List.Forall (fun n => isCompoundBoundary n = true) (nodes sel) ->
        getCompound sel = []).
Proof.
  split; [|split; [apply getCompound_from_sorted|]].
  - intros q. unfold getCompound, at_. rewrite getCompound_from_spec.
    rewrite Nat.sub_0_r. split.
    + intros (_ & node & Hn & Hb & Hp). exists node. split; [done|]. split; [done|].
      destruct (q =? 0) eqn:E; [left; by apply Nat.eqb_eq|].
      apply Nat.eqb_neq in E. right. destruct Hp as (prev & Hp & Hpb).
      exists prev. split; [lia|]. by split.
    + intros (node & Hn & Hb & Hp). split; [lia|]. exists node.
      split; [done|]. split; [done|].
      destruct (q =? 0) eqn:E; [done|]. apply Nat.eqb_neq in E.
      destruct Hp as [->|(prev & _ & Hp & Hpb)]; [done|]. by exists prev.
  - intros Hall. destruct (getCompound sel) as [|q qs] eqn:E; [done|].
    assert (Hq : In q (getCompound sel)) by (rewrite E; by left).
    unfold getCompound in Hq. apply getCompound_from_spec in Hq
      as (_ & node & Hn & Hb & _).
    rewrite List.Forall_forall in Hall.
    rewrite (Hall node) in Hb; [done|].
    apply list_elem_of_In. by eapply list_elem_of_lookup_2.
Qed.

Lemma compound_starts_witness : In 4 (getCompound abc) /\ getCompound (selector [child]) = [].
Proof.
  split.
  - apply (proj1 (compound_starts abc) 4). exists (className "c").
    split; [reflexivity|]. split; [reflexivity|].
    right. exists child. split; [lia|]. split; reflexivity.
  - apply (proj2 (proj2 (compound_starts (selector [child])))).
    repeat constructor.
Defined.

(** ** The ref-binding rewrite *)

Lemma hasRefPair_nodes n : hasRefPair n = refPairs (nodes n).
Proof. by destruct n. Qed.

Lemma refPairs_cons node rest :
  refPairs (node :: rest)
  = (if is_type Tag node then
       String.eqb (value node) "ref"
       && match rest with
          | next :: _ => is_type Pseudo next
          | [] => false
          end
     else hasRefPair node)
    || refPairs rest.
Proof. reflexivity. Qed.

Lemma nodeCount_nodes n : nodeCount n = S (nodeCounts (nodes n)).
Proof. destruct n. unfold nodeCounts. cbn. lia. Qed.

Lemma nodeCounts_cons c l : nodeCounts (c :: l) = nodeCount c + nodeCounts l.
Proof. unfold nodeCounts. cbn. lia. Qed.

Lemma refsWalk_unchanged scope l :
  List.Forall (fun n => hasRefPair n = false -> rewriteRefs n scope = n) l ->
  refPairs l = false -> refsWalk scope l = l.
Proof.
  induction 1 as [|node rest Hn _ IH]; [done|].
  rewrite refPairs_cons, refsWalk_cons. intros [H1 H2]%orb_false_elim.
  specialize (IH H2). rewrite IH.
  destruct (is_type Tag node).
  - destruct (String.eqb (value node) "ref"); [|done].
    destruct rest as [|next rest]; [done|]. cbn in H1. by rewrite H1.
  - by rewrite (Hn H1).
Qed.

Lemma rewriteRefs_unchanged sel scope :
  hasRefPair sel = false -> rewriteRefs sel scope = sel.
Proof.
  induction sel as [t v a b af ns p IH] using Node_ind'. intros H.
  rewrite rewriteRefs_nodes. rewrite hasRefPair_nodes in H. cbn [nodes] in *.
  by rewrite refsWalk_unchanged.
Qed.

Lemma refsWalk_head scope l : notPseudoHead l -> notPseudoHead (refsWalk scope l).
Proof.
  destruct l as [|node rest]; [done|]. cbn [notPseudoHead]. intros Hn.
  rewrite refsWalk_cons.
  destruct (is_type Tag node) eqn:Ht.
  - destruct (String.eqb (value node) "ref"); [|done].
    destruct rest as [|next rest]; [done|].
    destruct (is_type Pseudo next); done.
  - cbn. unfold is_type in *. by rewrite rewriteRefs_type.
Qed.

Lemma refAttribute_type next scope : is_type Tag (refAttribute next scope) = false.
Proof. reflexivity. Qed.

Lemma refsWalk_no_pair scope : forall k l,
  length l <= k ->
  List.Forall (fun n => hasRefPair (rewriteRefs n scope) = false) l ->
  refPairs (refsWalk scope l) = false.
Proof.
  induction k as [|k IH]; intros l Hk Hl.
  { destruct l; [done|cbn in Hk; lia]. }
  destruct l as [|node rest]; [done|]. cbn [length] in Hk.
  apply List.Forall_cons_iff in Hl as [Hn Hrest].
  assert (Hr : refPairs (refsWalk scope rest) = false) by (apply IH; [lia|done]).
  rewrite refsWalk_cons.
  destruct (is_type Tag node) eqn:Ht.
  - destruct (String.eqb (value node) "ref") eqn:Hv.
    + destruct rest as [|next rest].
      * rewrite refPairs_cons, Ht, Hv. done.
      * destruct (is_type Pseudo next) eqn:Hp.
        -- rewrite refPairs_cons, refAttribute_type. cbn [orb].
           apply List.Forall_cons_iff in Hrest as [_ Hrest].
           apply IH; [cbn [length] in Hk; lia|done].
        -- rewrite refPairs_cons, Ht, Hv, Hr.
           pose proof (refsWalk_head scope (next :: rest)) as Hh.
           cbn [notPseudoHead] in Hh. specialize (Hh Hp).
           destruct (refsWalk scope (next :: rest)) as [|x xs]; [done|].
           cbn in Hh. by rewrite Hh.
    + rewrite refPairs_cons, Ht, Hv, Hr. done.
  - rewrite refPairs_cons. unfold is_type in *. rewrite rewriteRefs_type, Ht, Hn, Hr. done.
Qed.

Lemma rewriteRefs_no_pair sel scope : hasRefPair (rewriteRefs sel scope) = false.
Proof.
  induction sel as [t v a b af ns p IH] using Node_ind'.
  rewrite rewriteRefs_nodes, hasRefPair_nodes. cbn [nodes set_nodes].
  by apply (refsWalk_no_pair scope (length ns)).
Qed.

Lemma refsWalk_count scope : forall k l,
  length l <= k ->
  List.Forall (fun n => nodeCount (rewriteRefs n scope) <= nodeCount n
                        /\ (hasRefPair n = true ->
                            nodeCount (rewriteRefs n scope) < nodeCount n)) l ->
  nodeCounts (refsWalk scope l) <= nodeCounts l
  /\ (refPairs l = true -> nodeCounts (refsWalk scope l) < nodeCounts l).
Proof.
  induction k as [|k IH]; intros l Hk Hl.
  { destruct l; [done|cbn in Hk; lia]. }
  destruct l as [|node rest]; [done|]. cbn [length] in Hk.
  apply List.Forall_cons_iff in Hl as [[Hn Hn'] Hrest].
  destruct (IH rest ltac:(lia) Hrest) as [Hr Hr'].
  rewrite refsWalk_cons, refPairs_cons.
  destruct (is_type Tag node) eqn:Ht.
  - destruct (String.eqb (value node) "ref") eqn:Hv.
    + destruct rest as [|next rest].
      * rewrite !nodeCounts_cons. cbn. split; [lia|done].
      * destruct (is_type Pseudo next) eqn:Hp.
        -- apply List.Forall_cons_iff in Hrest as [_ Hrest].
           cbn [length] in Hk.
           destruct (IH rest ltac:(lia) Hrest) as [Hr2 _].
           rewrite !nodeCounts_cons.
           assert (nodeCount (refAttribute next scope) = 1) as -> by reflexivity.
           rewrite (nodeCount_nodes node), (nodeCount_nodes next). lia.
        -- rewrite !(nodeCounts_cons node). cbn [andb orb]. split; [lia|].
           intros H. specialize (Hr' H). lia.
    + rewrite !(nodeCounts_cons node). cbn [andb orb]. split; [lia|].
      intros H. specialize (Hr' H). lia.
  - rewrite !nodeCounts_cons. split; [lia|].
    intros [H|H]%orb_prop; [specialize (Hn' H)|specialize (Hr' H)]; lia.
Qed.

Lemma rewriteRefs_count sel scope :
  nodeCount (rewriteRefs sel scope) <= nodeCount sel
  /\ (hasRefPair sel = true -> nodeCount (rewriteRefs sel scope) < nodeCount sel).
Proof.
  induction sel as [t v a b af ns p IH] using Node_ind'.
  rewrite rewriteRefs_nodes, !nodeCount_nodes, hasRefPair_nodes. cbn [nodes set_nodes].
  destruct (refsWalk_count scope (length ns) ns ltac:(lia) IH) as [H1 H2].
  split; [lia|]. intros H. specialize (H2 H). lia.
Qed.


(** X12.  [rewriteRefs] rewrites every pair there is: in its result no
    [ref] tag has a pseudo right behind it, at any depth, so running it
    again, also with another scope, changes nothing. *)
Theorem ref_pairs_all_rewritten (sel : Node) (scope : string) :
  hasRefPair (rewriteRefs sel scope) = false
  /\ (forall scope', rewriteRefs (rewriteRefs sel scope) scope' = rewriteRefs sel scope).
Proof.
  split; [apply rewriteRefs_no_pair|].
  intros scope'. apply rewriteRefs_unchanged, rewriteRefs_no_pair.
Qed.

(** X13.  [rewriteRefs] changes a selector exactly when a [ref] tag has a
    pseudo right behind it somewhere in it; it never adds a node, and it
    removes at least one where there is such a pair. *)
Theorem ref_rewrite_only_pairs (sel : Node) (scope : string) :
  (rewriteRefs sel scope = sel <-> hasRefPair sel = false)
  /\ nodeCount (rewriteRefs sel scope) <= nodeCount sel
  /\ (hasRefPair sel = true -> nodeCount (rewriteRefs sel scope) < nodeCount sel).
Proof.
  destruct (rewriteRefs_count sel scope) as [Hle Hlt].
  split; [|by split]. split; [|apply rewriteRefs_unchanged].
  intros H. destruct (hasRefPair sel); [|done].
  specialize (Hlt eq_refl). rewrite H in Hlt. lia.
Qed.

Lemma ref_rewrite_only_pairs_witness :
  nodeCount (rewriteRefs refFoo "s") < nodeCount refFoo.
Proof.
  exact (proj2 (proj2 (ref_rewrite_only_pairs refFoo "s")) eq_refl).
Defined.

(** ** Class names *)

Lemma stateless_absent : statelessScope ClassScopeAbsent.
Proof. exact I. Qed.

Lemma stateless_setFull options b : stateless options -> stateless (setFull options b).
Proof. by destruct options. Qed.

Lemma eachSelector_nothing classScope scope sel :
  statelessScope classScope ->
  (forall o, getClassScopeOptions scope classScope = Some o ->
             anyQualifies o sel = false) ->
  eachSelector classScope scope sel = eachSelector ClassScopeAbsent scope sel.
Proof.
  intros Hst H. rewrite !eachSelector_stateless by done.
  unfold eachSelectorStateless at 1.
  destruct (getClassScopeOptions scope classScope) as [o|] eqn:Ho; [|done].
  specialize (H o eq_refl).
  destruct (isGlobalClassScope classScope).
  - by rewrite (proj1 (copies_nothing o sel) H).
  - by rewrite renamed_nothing.
Qed.

Lemma processRoot_nothing classScope scope root :
  statelessScope classScope ->
  (forall o, getClassScopeOptions scope classScope = Some o ->
             List.Forall (fun sel => anyQualifies o sel = false) root) ->
  processRoot classScope scope root = processRoot ClassScopeAbsent scope root.
Proof.
  intros Hst H. rewrite !processRoot_stateless by done.
  induction root as [|sel root IH]; [done|].
  cbn [flat_map]. rewrite eachSelector_nothing, IH; [done| |done|].
  - intros o Ho. specialize (H o Ho). by apply List.Forall_cons_iff in H as [_ H].
  - intros o Ho. specialize (H o Ho). by apply List.Forall_cons_iff in H as [H _].
Qed.

(** X16.  Class-name scoping needs a class name to scope.  With regular
    expressions without the g and y flags, for a container in which no
    class name qualifies, at any depth, no copy is made in either mode and
    the renaming in place changes nothing; and when that holds for every
    selector of a root, the selector processor gives what it gives with
    class-name scoping switched off. *)
Theorem class_scoping_needs_classes (classScope : ClassScope) (scope : string)
    (root : list Node) :
  statelessScope classScope ->
  (forall o, getClassScopeOptions scope classScope = Some o ->
             List.Forall (fun sel => anyQualifies o sel = false) root) ->
  processRoot classScope scope root = processRoot ClassScopeAbsent scope root
  /\ (forall o sel force,
        getClassScopeOptions scope classScope = Some o -> In sel root ->
        scopeClassNamesInContainer sel o = ([], o)
        /\ scopeClassNames sel o force = (sel, o)).
Proof.
  intros Hst H. split; [by apply processRoot_nothing|].
  intros o sel force Ho Hin. specialize (H o Ho).
  pose proof (getClassScopeOptions_stateless _ _ _ Hst Ho) as Hso.
  rewrite List.Forall_forall in H. specialize (H sel Hin). split.
  - rewrite scopeClassNamesInContainer_stateless by done.
    by rewrite (proj1 (copies_nothing o sel)).
  - rewrite scopeClassNames_stateless by done. by rewrite renamed_nothing.
Qed.

Lemma class_scoping_needs_classes_witness :
  processRoot (ClassScopeFlag true) "s"
    [selector [tag "div"; combinator " "; pseudo ":not" [selector [idName "x"]]]]
  = processRoot ClassScopeAbsent "s"
      [selector [tag "div"; combinator " "; pseudo ":not" [selector [idName "x"]]]].
Proof.
  refine (proj1 (class_scoping_needs_classes (ClassScopeFlag true) "s"
                   [selector [tag "div"; combinator " ";
                              pseudo ":not" [selector [idName "x"]]]] I _)).
  intros o [= <-]. repeat constructor.
Defined.

(** X17.  With regular expressions without the g and y flags, for a
    container whose children have no children, the one copy made without
    [full] is the last of the copies made with [full]: the clone with every
    qualifying class name decorated.  Where no class name qualifies,
    neither mode makes a copy. *)
Theorem single_copy_is_last_variant (options : ClassScopeOptions) (container : Node) :
  stateless options -> leafChildren container ->
  let all := decorate options (clone container) (qualifying options container) in
  (qualifying options container <> [] ->
     scopeClassNamesInContainer container (setFull options false)
     = ([all], setFull options false)
     /\ last (fst (scopeClassNamesInContainer container (setFull options true)))
        = Some all)
  /\ (qualifying options container = [] ->
        scopeClassNamesInContainer container (setFull options false)
        = ([], setFull options false)
        /\ scopeClassNamesInContainer container (setFull options true)
           = ([], setFull options true))
  /\ nodes all = map (fun node => decorated node options) (nodes (clone container)).
Proof.
  intros Hst Hleaf all.
  rewrite !scopeClassNamesInContainer_stateless by (by apply stateless_setFull).
  cbn [fst]. split; [|split].
  - intros Hq. split.
    + f_equal. rewrite copies_unfold. cbn [full setFull negb].
      rewrite qualifying_any by (by rewrite qualifying_setFull).
      rewrite renamed_leaf by (by apply leafChildren_clone).
      unfold all. rewrite <- qualifying_clone, decorate_qualifying. done.
    + rewrite copies_full;
        [|done|by apply leafChildren_noPseudoArguments].
      pose proof (classLoop_subsets (setFull options true) container container
                    (nodes container) 0 [] eq_refl) as H.
      cbn [app] in H. unfold subsets at 1 in H. cbn [fold_left tail map] in H.
      rewrite H. cbn [tail].
      change (map ?f ?l) with (f <$> l). rewrite fmap_last.
      fold (qualifying (setFull options true) container).
      rewrite qualifying_setFull, subsets_tail_last by done. cbn.
      unfold all. reflexivity.
  - intros Hq. split; f_equal; apply copies_nothing;
      apply qualifying_none; try done; by rewrite qualifying_setFull.
  - unfold all. rewrite <- qualifying_clone, decorate_qualifying.
    apply nodes_set_nodes.
Qed.

Lemma single_copy_is_last_variant_witness :
  scopeClassNamesInContainer fooBar (mkClassScopeOptions None (Some "_s") None None false)
  = ([selector [className "foo_s"; className "bar_s"]],
     mkClassScopeOptions None (Some "_s") None None false)
  /\ last (fst (scopeClassNamesInContainer fooBar
                  (mkClassScopeOptions None (Some "_s") None None true)))
     = Some (selector [className "foo_s"; className "bar_s"]).
Proof.
  refine (proj1 (single_copy_is_last_variant
                   (mkClassScopeOptions None (Some "_s") None None false) fooBar _ _) _).
  - by split.
  - repeat constructor.
  - discriminate.
Defined.

(** ** White space *)

Lemma concat_empty_cons (s : string) (l : list string) :
  String.concat "" (s :: l) = s +:+ String.concat "" l.
Proof.
  destruct l as [|s' l]; cbn [String.concat].
  - by rewrite TextFacts.append_empty_r.
  - done.
Qed.

Lemma texts_cons n l : texts (n :: l) = toString n +:+ texts l.
Proof. unfold texts. cbn [map]. apply concat_empty_cons. Qed.

Lemma texts_app l1 l2 : texts (l1 ++ l2) = texts l1 +:+ texts l2.
Proof.
  induction l1 as [|n l1 IH]; [done|].
  cbn [app]. by rewrite !texts_cons, IH, TextFacts.append_assoc.
Qed.

Lemma toString_selector sel : type sel = Selector -> toString sel = texts (nodes sel).
Proof. destruct sel as [t v a b af ns p]. cbn [type]. intros ->. by rewrite toString_unfold. Qed.

Lemma toString_before item :
  type item = Class \/ type item = Id \/ type item = Attribute ->
  toString item = before item +:+ toString (set_before item "").
Proof.
  destruct item as [t v a b af ns p]. cbn [type before]. unfold set_before.
  cbn [type value attribute before after nodes processed].
  intros [-> | [-> | ->]]; rewrite !toString_unfold; cbv zeta iota; done.
Qed.

Lemma toString_after item :
  type item = Tag \/ type item = Universal ->
  toString item = toString (set_after item "") +:+ after item.
Proof.
  destruct item as [t v a b af ns p]. cbn [type after]. unfold set_after.
  cbn [type value attribute before after nodes processed].
  intros [-> | ->]; rewrite !toString_unfold; cbv zeta iota;
    by rewrite TextFacts.append_empty_r, TextFacts.append_assoc.
Qed.

(** X15.  Scoping a first or last representative keeps the text of the
    selector and its white space: the text afterwards is the text before
    with [[scope]] put in, right behind the leading white space of a class,
    id or attribute and right before the trailing white space of a tag or
    universal selector. *)
Theorem scoping_keeps_white_space (sel : Node) (scope : string) (pre : list Node)
    (item : Node) (post : list Node) :
  type sel = Selector -> nodes sel = pre ++ item :: post -> processed item = false ->
  (type item = Class \/ type item = Id \/ type item = Attribute ->
     toString sel
     = texts pre +:+ before item +:+ toString (set_before item "") +:+ texts post
     /\ toString (rewriteSelectorPart sel (length pre) scope)
        = texts pre +:+ before item +:+ "[" +:+ scope +:+ "]"
          +:+ toString (set_before item "") +:+ texts post)
  /\ (type item = Tag \/ type item = Universal ->
        toString sel
        = texts pre +:+ toString (set_after item "") +:+ after item +:+ texts post
        /\ toString (rewriteSelectorPart sel (length pre) scope)
           = texts pre +:+ toString (set_after item "") +:+ "[" +:+ scope +:+ "]"
             +:+ after item +:+ texts post).
Proof.
  intros Hsel Hns Hp.
  assert (Hr : toString (rewriteSelectorPart sel (length pre) scope)
               = texts pre +:+ texts (partRewritten scope item) +:+ texts post).
  { rewrite (rewriteSelectorPart_middle sel pre item post scope Hns).
    rewrite toString_selector by (by destruct sel).
    by rewrite nodes_set_nodes, !texts_app. }
  assert (Hs : toString sel = texts pre +:+ toString item +:+ texts post).
  { rewrite toString_selector, Hns, texts_app, texts_cons by done. done. }
  split; intros Ht.
  - split.
    + by rewrite Hs, (toString_before item Ht), !TextFacts.append_assoc.
    + rewrite Hr. unfold partRewritten. rewrite Hp.
      assert (match type item with
              | Pseudo => if (value item =? ":host")%string then scopeHost scope :: nodes item
                          else if (value item =? ":host-context")%string
                               then nodes item ++ [str " "; scopeHost scope] else [item]
              | Tag | Universal =>
                  [set_after item ""; set_after (scopeElement scope) (after item)]
              | Id | Class | Attribute =>
                  [set_before (scopeElement scope) (before item); set_before item ""]
              | _ => [item]
              end = [set_before (scopeElement scope) (before item); set_before item ""]) as ->.
      { by destruct Ht as [-> | [-> | ->]]. }
      rewrite !texts_cons. unfold texts at 2. cbn [map String.concat].
      unfold scopeElement, attr, set_before at 1.
      cbn [type value attribute before after nodes processed].
      rewrite toString_unfold. cbv zeta iota.
      by rewrite !TextFacts.append_empty_r, !TextFacts.append_assoc.
  - split.
    + by rewrite Hs, (toString_after item Ht), !TextFacts.append_assoc.
    + rewrite Hr. unfold partRewritten. rewrite Hp.
      assert (match type item with
              | Pseudo => if (value item =? ":host")%string then scopeHost scope :: nodes item
                          else if (value item =? ":host-context")%string
                               then nodes item ++ [str " "; scopeHost scope] else [item]
              | Tag | Universal =>
                  [set_after item ""; set_after (scopeElement scope) (after item)]
              | Id | Class | Attribute =>
                  [set_before (scopeElement scope) (before item); set_before item ""]
              | _ => [item]
              end = [set_after item ""; set_after (scopeElement scope) (after item)]) as ->.
      { by destruct Ht as [-> | ->]. }
      rewrite !texts_cons. unfold texts at 2. cbn [map String.concat].
      unfold scopeElement, attr, set_after at 2.
      cbn [type value attribute before after nodes processed].
      rewrite (toString_unfold Attribute). cbv zeta iota.
      by rewrite !TextFacts.append_empty_r, !TextFacts.append_assoc.
Qed.

Lemma scoping_keeps_white_space_witness :
  toString (selector [tag "a"; child; set_after (tag "b") " "]) = "a > b "
  /\ toString (rewriteSelectorPart (selector [tag "a"; child; set_after (tag "b") " "])
                 2 "s")
     = "a > b[s] ".
Proof.
  refine (proj2 (scoping_keeps_white_space
                   (selector [tag "a"; child; set_after (tag "b") " "]) "s"
                   [tag "a"; child] (set_after (tag "b") " ") [] eq_refl eq_refl eq_refl) _).
  by left.
Defined.



(** ** What the compound scoping leaves alone *)

Lemma lookup_around {A} (pre post : list A) x n q :
  (pre ++ x :: post) !! q = Some n -> q <> length pre ->
  In n pre \/ (length pre < q /\ post !! (q - length pre - 1) = Some n).
Proof.
  intros H Hq. apply lookup_app_Some in H as [H|[Hle H]].
  - left. apply list_elem_of_In. by eapply list_elem_of_lookup_2.
  - right. split; [lia|]. destruct (q - length pre) as [|k] eqn:E; [lia|]. cbn in H.
    by replace (S k - 1) with k by lia.
Qed.

Lemma lookup_In {A} (l : list A) i x : l !! i = Some x -> In x l.
Proof. intros H. apply list_elem_of_In. by eapply list_elem_of_lookup_2. Qed.

(** X14.  [rewriteSelector] keeps every child of the selector that is
    neither the first nor the last scopable representative: such a child is
    still a child of the selector afterwards. *)
Theorem other_children_kept (sel : Node) (scope : string) (q : nat) (n : Node) :
  at_ sel q = Some n -> firstPart sel <> Some q -> lastPart sel <> Some q ->
  In n (nodes (fst (rewriteSelector sel scope))).
Proof.
  unfold at_. intros Hn Hf Hl.
  destruct (firstPart sel) as [f|] eqn:Ef.
  - destruct (lastPart sel) as [l|] eqn:El.
    + destruct (split_two (nodes sel) f l (firstPart_lastPart _ _ _ Ef El))
        as (pre & itf & mid & itl & post & Hns & Hlen & Hmid).
      subst f. rewrite (rewriteSelector_two sel scope pre itf mid itl post Hns Ef)
        by (by rewrite El, Hmid).
      rewrite nodes_set_nodes, !in_app_iff. rewrite Hns in Hn.
      apply lookup_around in Hn as [Hn|[Hlt Hn]]; [by left|..|by intros ->].
      apply lookup_around in Hn as [Hn|[_ Hn]]; [by right; right; left|..].
      * right. right. right. right. by eapply lookup_In.
      * intros E. apply Hl. f_equal. lia.
    + destruct (split_one (nodes sel) f (firstPart_bound _ _ Ef))
        as (pre & item & post & Hns & Hlen).
      subst f. rewrite (rewriteSelector_one sel scope pre item post Hns Ef El).
      rewrite nodes_set_nodes, !in_app_iff. rewrite Hns in Hn.
      apply lookup_around in Hn as [Hn|[_ Hn]]; [by left|..|by intros ->].
      right. right. by eapply lookup_In.
  - rewrite rewriteSelector_fst. unfold scopeLast, scopeFirst.
    rewrite (lastPart_None_firstPart _ Ef), Ef. by eapply lookup_In.
Qed.

Lemma other_children_kept_witness :
  In (className "b") (nodes (fst (rewriteSelector abc "s"))).
Proof.
  refine (other_children_kept abc "s" 2 (className "b") eq_refl _ _); discriminate.
Defined.


(** ** The options of the class-name scoping *)

(** X18.  [getClassScopeOptions] gives no options exactly when the option
    is absent or [false].  The options it gives keep the given [include],
    [exclude] and [full]; they are the given object when that has a prefix
    or a suffix; and with a non-empty scope they always have a prefix or a
    suffix, the suffix being [_scope] where the object had neither. *)
Theorem class_scope_options_effective (scope : string) (classScope : ClassScope) :
  (getClassScopeOptions scope classScope = None
   <-> classScope = ClassScopeAbsent \/ classScope = ClassScopeFlag false)
  /\ (forall o, getClassScopeOptions scope classScope = Some o ->
        (scope <> "" -> truthy (prefix o) || truthy (suffix o) = true)
        /\ (isGlobalClassScope classScope = true -> classScope = ClassScopeObject o)
        /\ (isGlobalClassScope classScope = false -> scope <> "" ->
              suffix o = Some ("_" +:+ scope) /\ truthy (prefix o) = false)
        /\ (forall given, classScope = ClassScopeObject given ->
              include o = include given /\ exclude o = exclude given
              /\ full o = full given)).
Proof.
  split.
  - unfold getClassScopeOptions. split.
    + destruct classScope as [|[|]|o]; auto; intros H.
      * by destruct (_ && _).
      * by destruct (_ && _).
    + by intros [-> | ->].
  - intros o Ho.
    destruct classScope as [|[|]|given]; try discriminate;
      unfold getClassScopeOptions, isGlobalClassScope in *.
    + cbn [noOptions prefix suffix truthy negb andb] in Ho.
      destruct (scope =? "")%string eqn:E; injection Ho as <-;
        [apply String.eqb_eq in E|]; repeat split; try done.
    + destruct (truthy (prefix given)) eqn:Hp, (truthy (suffix given)) eqn:Hs;
        cbn [negb andb orb] in *;
        [..|destruct (scope =? "")%string eqn:E; [apply String.eqb_eq in E|]];
        injection Ho as <-; cbn [prefix suffix include exclude full];
        rewrite ?Hp, ?Hs; repeat split; try done; congruence.
Qed.

Lemma class_scope_options_effective_witness :
  suffix (mkClassScopeOptions (Some "") (Some "_s") None None true) = Some ("_" +:+ "s")
  /\ truthy (prefix (mkClassScopeOptions (Some "") (Some "_s") None None true)) = false.
Proof.
  refine (proj1 (proj2 (proj2 (proj2 (class_scope_options_effective "s"
            (ClassScopeObject (mkClassScopeOptions (Some "") None None None true)))
            (mkClassScopeOptions (Some "") (Some "_s") None None true) eq_refl)))
            eq_refl _).
  discriminate.
Defined.



(** ** The selector processor *)

Lemma product_zero l : In 0 l -> product l = 0.
Proof.
  unfold product. induction l as [|n l IH]; [done|].
  cbn [fold_right]. intros [->|H]; [done|]. rewrite (IH H). lia.
Qed.

Lemma rewriteSelector_count sel scope :
  length (inRoot (rewriteSelector sel scope))
  = product (map (alternatives sel) (localGlobal sel)).
Proof.
  unfold rewriteSelector. destruct (localGlobal sel) as [|q qs] eqn:E; [done|].
  cbn [inRoot]. rewrite <- E.
  rewrite expansion_count by apply tracked_special.
  rewrite List.map_rev, product_rev, List.map_map.
  f_equal. apply List.map_ext_in. intros q' Hq. by apply alternatives_tracked.
Qed.

Lemma handleSelector_count scope sel :
  length (inRoot (handleSelector scope sel)) = outputs scope sel.
Proof.
  unfold handleSelector, outputs.
  pose proof (rewriteSlotted_fst (rewriteRefs sel scope) scope) as H.
  rewrite startsWithSlotted_rewriteRefs in H.
  destruct (rewriteSlotted (rewriteRefs sel scope) scope) as [[|] sel'];
    cbn [fst] in H; rewrite <- H; [done|].
  apply rewriteSelector_count.
Qed.

Lemma processRoot_count scope root :
  length (processRoot ClassScopeAbsent scope root)
  = list_sum (map (outputs scope) root).
Proof.
  rewrite processRoot_stateless by done.
  induction root as [|sel root IH]; [done|].
  cbn [flat_map map]. rewrite length_app, IH.
  rewrite eachSelector_stateless by done.
  unfold eachSelectorStateless. cbn [getClassScopeOptions].
  by rewrite handleSelector_count.
Qed.

(** X20.  Without class-name scoping the processor puts, for every
    selector of the root, one selector when it starts with [::slotted], and
    otherwise as many as the product of the numbers of alternatives of the
    [::global] and [::local] representatives left by the ref-binding
    rewrite: one when there is none, none when one of them has no
    alternative. *)
Theorem selector_count (scope : string) (root : list Node) (sel : Node) :
  length (processRoot ClassScopeAbsent scope root) = list_sum (map (outputs scope) root)
  /\ length (inRoot (handleSelector scope sel)) = outputs scope sel
  /\ (startsWithSlotted sel = false -> localGlobal (rewriteRefs sel scope) = [] ->
        outputs scope sel = 1)
  /\ (startsWithSlotted sel = false ->
        forall q, In q (localGlobal (rewriteRefs sel scope)) ->
                  alternatives (rewriteRefs sel scope) q = 0 ->
                  outputs scope sel = 0).
Proof.
  split; [apply processRoot_count|]. split; [apply handleSelector_count|]. split.
  - intros Hs Hlg. unfold outputs. rewrite Hs. cbv zeta. by rewrite Hlg.
  - intros Hs q Hq Hz. unfold outputs. rewrite Hs. cbv zeta.
    apply product_zero. rewrite <- Hz. by apply List.in_map.
Qed.

Lemma selector_count_witness :
  outputs "s" abc = 1
  /\ outputs "s" (selector [tag "a"; combinator " "; pseudo "::global" []]) = 0.
Proof.
  split.
  - exact (proj1 (proj2 (proj2 (selector_count "s" [] abc))) eq_refl eq_refl).
  - refine (proj2 (proj2 (proj2 (selector_count "s" []
              (selector [tag "a"; combinator " "; pseudo "::global" []]))))
              eq_refl 2 _ eq_refl).
    left. reflexivity.
Defined.

(** X19.  With regular expressions without the g and y flags, the renaming
    of class names in place keeps the shape of the selector: as many
    children, each of the type it had; with a prefix or suffix set a
    qualifying class gets the prefix before its name and the suffix behind
    it; a child without children that does not qualify stays as it is; and,
    unless forced, so does a [:host], [:host-context], [::slotted],
    [::global] or [::local] pseudo with all its arguments. *)
Theorem plain_renaming_shape (options : ClassScopeOptions) (sel : Node) (force : bool) :
  stateless options ->
  snd (scopeClassNames sel options force) = options
  /\ length (nodes (fst (scopeClassNames sel options force))) = length (nodes sel)
  /\ forall i node, nodes sel !! i = Some node ->
       exists node', nodes (fst (scopeClassNames sel options force)) !! i = Some node'
         /\ type node' = type node
         /\ (truthy (prefix options) || truthy (suffix options) = true ->
             qualifies node options = true ->
             node' = set_value node
                       (orEmpty (prefix options) +:+ value node
                        +:+ orEmpty (suffix options)))
         /\ (nodes node = [] -> qualifies node options = false -> node' = node)
         /\ (force = false -> isIgnoredPseudo node = true -> node' = node).
Proof.
  intros Hst. rewrite scopeClassNames_stateless by done. cbn [fst snd].
  split; [done|]. unfold renamed.
  destruct (truthy (prefix options) || truthy (suffix options)) eqn:Ht.
  - rewrite renamed_rec_nodes, nodes_set_nodes, length_map. split; [done|].
    intros i node Hi.
    change (map ?f ?l) with (f <$> l). rewrite list_lookup_fmap, Hi. cbn [fmap option_fmap option_map].
    eexists. split; [reflexivity|].
    destruct (qualifies node options) eqn:Hs.
    + unfold decorated. rewrite Hs. repeat split; try done.
      intros -> Hig. unfold qualifies, isIgnoredPseudo, is_type in *.
      apply andb_prop in Hig as [Hig _].
      destruct (type node); try discriminate.
    + repeat split; try done.
      * destruct (force || negb (isIgnoredPseudo node)); by destruct node.
      * intros Hn _. rewrite Hn. destruct (force || negb (isIgnoredPseudo node)); [|done].
        destruct node; cbn in *; by subst.
      * intros -> ->. done.
  - split; [done|]. intros i node Hi. exists node. repeat split; try done.
Qed.

Lemma plain_renaming_shape_witness :
  let sel := selector [className "a"; combinator " ";
                       pseudo "::global" [selector [className "b"]]] in
  let options := mkClassScopeOptions (Some "x-") (Some "_s") None None false in
  (exists node',
     nodes (fst (scopeClassNames sel options false)) !! 0 = Some node'
     /\ node' = className "x-a_s")
  /\ (exists node',
        nodes (fst (scopeClassNames sel options false)) !! 2 = Some node'
        /\ node' = pseudo "::global" [selector [className "b"]]).
Proof.
  split.
  - destruct (proj2 (proj2 (plain_renaming_shape
                       (mkClassScopeOptions (Some "x-") (Some "_s") None None false)
                       (selector [className "a"; combinator " ";
                                  pseudo "::global" [selector [className "b"]]]) false
                       (conj eq_refl eq_refl)))
                0 (className "a") eq_refl)
      as (node' & Hn & _ & Hd & _).
    exists node'. split; [exact Hn|]. by apply Hd.
  - destruct (proj2 (proj2 (plain_renaming_shape
                       (mkClassScopeOptions (Some "x-") (Some "_s") None None false)
                       (selector [className "a"; combinator " ";
                                  pseudo "::global" [selector [className "b"]]]) false
                       (conj eq_refl eq_refl)))
                2 (pseudo "::global" [selector [className "b"]]) eq_refl)
      as (node' & Hn & _ & _ & _ & Hg).
    exists node'. split; [exact Hn|]. by apply Hg.
Defined.

(** X22.  With [classScope: true], a non-empty scope and a selector whose
    children have no children, every class name gets the suffix [_scope],
    and the selector is then handled as a selector written with those
    names. *)
Theorem flag_mode_suffixes_every_class (sel : Node) (scope : string) :
  scope <> "" -> leafChildren sel ->
  eachSelector (ClassScopeFlag true) scope sel
  = inRoot (handleSelector scope (set_nodes sel (map (suffixed scope) (nodes sel)))).
Proof.
  intros Hs Hleaf. rewrite eachSelector_stateless by done.
  unfold eachSelectorStateless, getClassScopeOptions.
  cbn [noOptions prefix suffix truthy negb andb].
  apply String.eqb_neq in Hs. rewrite Hs. cbn [negb isGlobalClassScope].
  rewrite renamed_leaf by done. do 3 f_equal.
  apply List.map_ext. intros n. unfold decorated, qualifies, suffixed.
  cbn [include exclude prefix suffix orEmpty].
  destruct (is_type Class n); [|done]. cbn [negb andb]. done.
Qed.

Lemma flag_mode_suffixes_every_class_witness :
  map toString (eachSelector (ClassScopeFlag true) "s" abc) = ["[s].a_s .b_s > [s].c_s"].
Proof.
  refine (f_equal (map toString) (flag_mode_suffixes_every_class abc "s" _ _)).
  - discriminate.
  - repeat constructor.
Defined.

(** ** The exhaustive class scoping with arguments *)

Lemma list_sum_cons a l : list_sum (a :: l) = a + list_sum l.
Proof. reflexivity. Qed.

Lemma reachable_nodes options container :
  reachable options container = list_sum (map (reachableIn options) (nodes container)).
Proof.
  destruct container as [t v a b af ns p]. cbn [reachable nodes].
  induction ns as [|node ns IH]; [done|]. cbn [map]. rewrite list_sum_cons, <- IH. f_equal.
  unfold reachableIn. destruct (qualifies node options); [done|].
  destruct (is_type Pseudo node); [|done].
  destruct node as [t' v' a' b' af' args p']. cbn [nodes].
  induction args as [|ps args IHa]; [done|]. cbn [map]. by rewrite list_sum_cons, <- IHa.
Qed.

Lemma substituteArgument_length i j us sel :
  length (substituteArgument i j us sel) = length us.
Proof. unfold substituteArgument. apply length_map. Qed.

Lemma argLoop_length options i ps : forall j toUpdate,
  List.Forall (fun pseudoSel =>
                 S (length (copies options pseudoSel))
                 = 2 ^ reachable options pseudoSel) ps ->
  length (argLoop options i ps j toUpdate)
  = length toUpdate * 2 ^ list_sum (map (reachable options) ps).
Proof.
  induction ps as [|pseudoSel ps IH]; intros j toUpdate H.
  - cbn. lia.
  - apply List.Forall_cons_iff in H as [Hp Hps]. cbn [argLoop map]. rewrite list_sum_cons.
    rewrite IH by done. rewrite length_app.
    rewrite (flat_map_length_const _ _ (length (copies options pseudoSel)))
      by (intros x; apply substituteArgument_length).
    rewrite Nat.pow_add_r, <- Hp. lia.
Qed.

Lemma fullLoop_length options l : forall i toUpdate,
  List.Forall (fun node =>
     List.Forall (fun pseudoSel =>
                    S (length (copies options pseudoSel))
                    = 2 ^ reachable options pseudoSel) (nodes node)) l ->
  length (fullLoop options l i toUpdate)
  = length toUpdate * 2 ^ list_sum (map (reachableIn options) l).
Proof.
  induction l as [|node l IH]; intros i toUpdate H.
  - cbn. lia.
  - apply List.Forall_cons_iff in H as [Hn Hl]. cbn [fullLoop map]. rewrite list_sum_cons.
    rewrite IH by done. rewrite Nat.pow_add_r. unfold reachableIn at 2.
    destruct (qualifies node options).
    + rewrite length_app, length_map. cbn. lia.
    + destruct (is_type Pseudo node).
      * rewrite argLoop_length by done. lia.
      * cbn. lia.
Qed.

Lemma exhaustive_count_children options container :
  full options = true ->
  S (length (copies options container))
  = 2 ^ reachable options container
  /\ List.Forall (fun c => S (length (copies options c))
                           = 2 ^ reachable options c) (nodes container).
Proof.
  intros Hfull.
  induction container as [t v a b af ns p IH] using Node_ind'.
  assert (Hch : List.Forall (fun c => S (length (copies options c))
                                      = 2 ^ reachable options c) ns).
  { eapply List.Forall_impl; [|exact IH]. by intros c [Hc _]. }
  split; [|exact Hch].
  rewrite copies_unfold, Hfull. cbn [negb nodes].
  rewrite reachable_nodes. cbn [nodes].
  assert (Hlen : length (fullLoop options ns 0 [mkNode t v a b af ns p])
                 = 2 ^ list_sum (map (reachableIn options) ns)).
  { rewrite fullLoop_length.
    - cbn [length]. lia.
    - eapply List.Forall_impl; [|exact IH]. by intros c [_ Hc]. }
  destruct (fullLoop options ns 0 [mkNode t v a b af ns p]) as [|x xs].
  - cbn in Hlen. pose proof (Nat.pow_nonzero 2 (list_sum (map (reachableIn options) ns))). lia.
  - cbn [tail length] in *. done.
Qed.

(** X23.  With [full] set and regular expressions without the g and y
    flags, a container and its copies are 2^k selectors together, k being
    the number of qualifying class names among the children and, for the
    children that are pseudos of any name, in their arguments, to any
    depth: every such class name doubles the number. *)
Theorem exhaustive_count_nested (options : ClassScopeOptions) (container : Node) :
  stateless options -> full options = true ->
  length (container :: fst (scopeClassNamesInContainer container options))
  = 2 ^ reachable options container
  /\ length (fst (scopeClassNamesInContainer container options))
     = 2 ^ reachable options container - 1
  /\ snd (scopeClassNamesInContainer container options) = options.
Proof.
  intros Hst Hfull. rewrite scopeClassNamesInContainer_stateless by done.
  destruct (exhaustive_count_children options container Hfull) as [H _].
  cbn [length fst snd]. repeat split; lia.
Qed.

Lemma exhaustive_count_nested_witness :
  length (fst (scopeClassNamesInContainer
                 (selector [className "a";
                            pseudo ":not" [selector [className "b"];
                                           selector [tag "i"; className "c"]]])
                 (mkClassScopeOptions None (Some "_s") None None true)))
  = 2 ^ 3 - 1.
Proof.
  exact (proj1 (proj2 (exhaustive_count_nested
                  (mkClassScopeOptions None (Some "_s") None None true)
                  (selector [className "a";
                             pseudo ":not" [selector [className "b"];
                                            selector [tag "i"; className "c"]]])
                  (conj eq_refl eq_refl) eq_refl))).
Defined.

End SelProps.
